(** * compare_excels.py: pairing of workbooks and row-level diff of two sheets

    A shallow embedding of [src/compare_excels.py].  The script leans on three
    libraries; each gets a small executable model of exactly the calls the
    script makes:

    - Python [str] and [hashlib.md5]      (modules [PyStr], [Hashlib]);
    - [difflib.SequenceMatcher] and [difflib.get_close_matches] ([Difflib]);
    - the pandas calls of [find_key_column] and [compare_dataframes]
      ([Pandas]).

    Modelling conventions.
    - A Python string is a Rocq [string] read character by character as code
      points below 256 (ASCII and Latin-1; this covers the candidate key
      names such as [Código]).
    - Bytes are numbers below 256, 32-bit words are numbers kept below 2^32.
    - A cell is missing ([NaN]), an integer or a string, as [read_excel]
      delivers the blank, whole-number and text cells of a sheet.  A column
      has the dtype that pandas infers for its cells: [int64], [float64] when
      an integer column has a blank, [object] when it holds text.  Other cell
      types (fractions, dates, booleans) are not represented.
    - The pandas calls follow pandas 2: [Index.difference] sorts by default,
      [Index.intersection] keeps the order of its receiver, [loc] with a list
      of labels answers in the order of the list, [loc] with an [object]
      index of missing labels raises, [equals] compares dtypes as well as
      cells, [fillna] infers an [object] result anew, and [apply] along the
      rows hands each row over in the common dtype of the columns.
    - A Python float is the rational it stands for.  [get_close_matches]
      compares doubles: the quotient [2.0 * matches / length] rounded to the
      nearest double, against the threshold, itself a double.  The score of a
      pair is written as the exact quotient that Python rounds.
    - A Python exception is the result [None].
    - [main] runs against a [World]: the environment, the directories, the
      workbooks and what can be written.  A run is the list of its effects
      and the way it ends; [float] on the threshold text is a parameter.

    The file has the models first, then the vocabulary of the statements,
    then the facts; the statements about the script are marked C1 to C10,
    and further properties of the code X1 to X20. *)

From Stdlib Require Import List String Ascii Bool Arith ZArith NArith QArith.
From Stdlib Require Import Lia Permutation Sorted DecimalString Qround Qpower.
From Stdlib Require Init.Byte.
Import ListNotations.

Close Scope Q_scope.
Local Open Scope string_scope.
Local Open Scope list_scope.
Local Open Scope nat_scope.

(* ------------------------------------------------------------------------- *)
(** ** Python strings *)

Module PyStr.

Definition code (c : ascii) : N := N_of_ascii c.

(** [str.isspace] on the code points below 256. *)
Definition isspace (c : ascii) : bool :=
  let n := code c in
  (((9 <=? n) && (n <=? 13)) || ((28 <=? n) && (n <=? 32))
   || (n =? 133) || (n =? 160))%N.

Fixpoint lstrip (s : string) : string :=
  match s with
  | EmptyString => EmptyString
  | String c s' => if isspace c then lstrip s' else s
  end.

Fixpoint rstrip (s : string) : string :=
  match s with
  | EmptyString => EmptyString
  | String c s' =>
      match rstrip s' with
      | EmptyString => if isspace c then EmptyString else String c EmptyString
      | t => String c t
      end
  end.

(** [s.strip()] *)
Definition strip (s : string) : string := rstrip (lstrip s).

(** [str.lower] on one code point below 256: the ASCII capitals and the
    Latin-1 capitals U+00C0..U+00DE except the multiplication sign. *)
Definition lower_char (c : ascii) : ascii :=
  let n := code c in
  if (((65 <=? n) && (n <=? 90))
      || ((192 <=? n) && (n <=? 222) && negb (n =? 215)))%N
  then ascii_of_N (n + 32) else c.

(** [s.lower()] *)
Fixpoint lower (s : string) : string :=
  match s with
  | EmptyString => EmptyString
  | String c s' => String (lower_char c) (lower s')
  end.

(** [sep.join(l)] *)
Fixpoint join (sep : string) (l : list string) : string :=
  match l with
  | [] => EmptyString
  | [x] => x
  | x :: rest => x ++ sep ++ join sep rest
  end.

(** [str(z)] for an integer. *)
Definition str_int (z : Z) : string := NilZero.string_of_int (Z.to_int z).

(** [s.encode('utf-8')]: one byte below U+0080, two bytes up to U+00FF. *)
Definition encode_char (c : ascii) : list N :=
  let n := code c in
  if (n <? 128)%N then [n] else [(192 + n / 64)%N; (128 + n mod 64)%N].

Fixpoint encode_utf8 (s : string) : list N :=
  match s with
  | EmptyString => []
  | String c s' => encode_char c ++ encode_utf8 s'
  end.

(** [s < t] on strings: lexicographic on code points. *)
Fixpoint ltb (s t : string) : bool :=
  match s, t with
  | EmptyString, EmptyString => false
  | EmptyString, String _ _ => true
  | String _ _, EmptyString => false
  | String a s', String b t' =>
      if (code a <? code b)%N then true
      else if (code b <? code a)%N then false
      else ltb s' t'
  end.

Definition chars (s : string) : list ascii := list_ascii_of_string s.

End PyStr.

(* ------------------------------------------------------------------------- *)
(** ** hashlib.md5 (RFC 1321) *)

Module Hashlib.
Local Open Scope N_scope.

Definition mask32 : N := 0xffffffff.
Definition add32 (x y : N) : N := N.land (x + y) mask32.
Definition not32 (x : N) : N := N.lxor x mask32.
Definition rotl32 (x s : N) : N :=
  N.lor (N.land (N.shiftl x s) mask32) (N.shiftr x (32 - s)).

Definition shifts : list N :=
  [ 7; 12; 17; 22; 7; 12; 17; 22; 7; 12; 17; 22; 7; 12; 17; 22;
    5;  9; 14; 20; 5;  9; 14; 20; 5;  9; 14; 20; 5;  9; 14; 20;
    4; 11; 16; 23; 4; 11; 16; 23; 4; 11; 16; 23; 4; 11; 16; 23;
    6; 10; 15; 21; 6; 10; 15; 21; 6; 10; 15; 21; 6; 10; 15; 21 ].

(** [K i = floor (2^32 * abs (sin (i + 1)))] *)
Definition K : list N :=
  [ 0xd76aa478; 0xe8c7b756; 0x242070db; 0xc1bdceee;
    0xf57c0faf; 0x4787c62a; 0xa8304613; 0xfd469501;
    0x698098d8; 0x8b44f7af; 0xffff5bb1; 0x895cd7be;
    0x6b901122; 0xfd987193; 0xa679438e; 0x49b40821;
    0xf61e2562; 0xc040b340; 0x265e5a51; 0xe9b6c7aa;
    0xd62f105d; 0x02441453; 0xd8a1e681; 0xe7d3fbc8;
    0x21e1cde6; 0xc33707d6; 0xf4d50d87; 0x455a14ed;
    0xa9e3e905; 0xfcefa3f8; 0x676f02d9; 0x8d2a4c8a;
    0xfffa3942; 0x8771f681; 0x6d9d6122; 0xfde5380c;
    0xa4beea44; 0x4bdecfa9; 0xf6bb4b60; 0xbebfbc70;
    0x289b7ec6; 0xeaa127fa; 0xd4ef3085; 0x04881d05;
    0xd9d4d039; 0xe6db99e5; 0x1fa27cf8; 0xc4ac5665;
    0xf4292244; 0x432aff97; 0xab9423a7; 0xfc93a039;
    0x655b59c3; 0x8f0ccc92; 0xffeff47d; 0x85845dd1;
    0x6fa87e4f; 0xfe2ce6e0; 0xa3014314; 0x4e0811a1;
    0xf7537e82; 0xbd3af235; 0x2ad7d2bb; 0xeb86d391 ].

(** The four chaining words A, B, C, D. *)
Record state := mkState { sA : N; sB : N; sC : N; sD : N }.

Definition init : state :=
  mkState 0x67452301 0xefcdab89 0x98badcfe 0x10325476.

(** [n] bytes of [x], least significant first. *)
Fixpoint le_bytes (n : nat) (x : N) : list N :=
  match n with
  | O => []
  | S n' => N.land x 0xff :: le_bytes n' (N.shiftr x 8)
  end.

Fixpoint le_word (bs : list N) : N :=
  match bs with
  | [] => 0
  | b :: bs' => b + 256 * le_word bs'
  end.

(** Padding: a [0x80] byte, zeros up to 56 modulo 64, then the bit length
    on 64 bits. *)
Definition pad (msg : list N) : list N :=
  let len := N.of_nat (List.length msg) in
  let zeros := N.to_nat ((119 - len mod 64) mod 64) in
  msg ++ [0x80] ++ repeat 0 zeros ++ le_bytes 8 ((8 * len) mod 2 ^ 64).

(** Cut a block into 32-bit little-endian words. *)
Fixpoint words (n : nat) (bs : list N) : list N :=
  match n with
  | O => []
  | S n' => le_word (firstn 4 bs) :: words n' (skipn 4 bs)
  end.

Definition round (M : list N) (st : state) (i : N) : state :=
  let '(mkState a b c d) := st in
  let '(f, g) :=
    if i <? 16 then (N.lor (N.land b c) (N.land (not32 b) d), i)
    else if i <? 32
         then (N.lor (N.land d b) (N.land (not32 d) c), (5 * i + 1) mod 16)
    else if i <? 48 then (N.lxor b (N.lxor c d), (3 * i + 5) mod 16)
    else (N.lxor c (N.lor b (not32 d)), (7 * i) mod 16) in
  let f' := add32 (add32 (add32 f a) (nth (N.to_nat i) K 0))
                  (nth (N.to_nat g) M 0) in
  mkState d (add32 b (rotl32 f' (nth (N.to_nat i) shifts 0))) b c.

Definition rounds : list N := map N.of_nat (seq 0 64).

Definition compress (st : state) (block : list N) : state :=
  let st' := fold_left (round (words 16 block)) rounds st in
  mkState (add32 (sA st) (sA st')) (add32 (sB st) (sB st'))
          (add32 (sC st) (sC st')) (add32 (sD st) (sD st')).

(** Process the padded message, 64 bytes at a time. *)
Fixpoint blocks (n : nat) (st : state) (bs : list N) : state :=
  match n with
  | O => st
  | S n' => blocks n' (compress st (firstn 64 bs)) (skipn 64 bs)
  end.

(** [hashlib.md5(data).digest()]: sixteen bytes. *)
Definition md5 (msg : list N) : list N :=
  let p := pad msg in
  let st := blocks (List.length p / 64) init p in
  le_bytes 4 (sA st) ++ le_bytes 4 (sB st)
  ++ le_bytes 4 (sC st) ++ le_bytes 4 (sD st).

Definition hex_digit (n : N) : ascii :=
  if n <? 10 then ascii_of_N (48 + n) else ascii_of_N (87 + n).

Fixpoint hex (bs : list N) : string :=
  match bs with
  | [] => EmptyString
  | b :: bs' => String (hex_digit (b / 16)) (String (hex_digit (b mod 16)) (hex bs'))
  end.

(** [hashlib.md5(data).hexdigest()] *)
Definition md5_hexdigest (msg : list N) : string := hex (md5 msg).

End Hashlib.

(* ------------------------------------------------------------------------- *)
(** ** Results that may raise *)

Declare Scope opt_scope.
Delimit Scope opt_scope with opt.
Notation "x <- e ;; k" :=
  (match e with Some x => k | None => None end)
  (at level 61, e at next level, right associativity) : opt_scope.
Local Open Scope opt_scope.

(* ------------------------------------------------------------------------- *)
(** ** The pandas calls of the script *)

Module Pandas.

(** A cell (or an index label): missing, an integer or a string.  [Int z] is
    the number [z], in whatever array it is kept: the integer [z] of an
    [int64] or [object] array, the float [z.0] of a [float64] array. *)
Inductive scalar : Type :=
| NaN
| Int (z : Z)
| Str (s : string).

(** [pd.isna(v)] *)
Definition isna (v : scalar) : bool :=
  match v with NaN => true | _ => false end.

Definition is_int (v : scalar) : bool :=
  match v with Int _ => true | _ => false end.

Definition is_str (v : scalar) : bool :=
  match v with Str _ => true | _ => false end.

(** [str(v)] of a missing value, an integer or a string. *)
Definition str (v : scalar) : string :=
  match v with
  | NaN => "nan"
  | Int z => PyStr.str_int z
  | Str s => s
  end.

(** Equality of two labels or cells as pandas hashes them: two missing
    values are the same label, and a number is the same label as an integer
    and as a float. *)
Definition scalar_eqb (x y : scalar) : bool :=
  match x, y with
  | NaN, NaN => true
  | Int a, Int b => Z.eqb a b
  | Str s, Str t => String.eqb s t
  | _, _ => false
  end.

Definition mem (x : scalar) (l : list scalar) : bool :=
  existsb (scalar_eqb x) l.

Fixpoint list_eqb {A} (eqb : A -> A -> bool) (l1 l2 : list A) : bool :=
  match l1, l2 with
  | [], [] => true
  | x :: l1', y :: l2' => eqb x y && list_eqb eqb l1' l2'
  | _, _ => false
  end.

(** The element types of the arrays behind the tables. *)
Inductive dtype : Type :=
| int64
| float64
| object.

Definition dtype_eqb (d e : dtype) : bool :=
  match d, e with
  | int64, int64 | float64, float64 | object, object => true
  | _, _ => false
  end.

(** The dtype under which pandas keeps a column of such cells, as
    [read_excel] and the [DataFrame] constructor infer it: [object] as soon
    as there is a string, else [float64] as soon as a cell is missing, else
    [int64]; a column without cells is [object]. *)
Definition dtype_of (cells : list scalar) : dtype :=
  if existsb is_str cells then object
  else if existsb isna cells then float64
  else match cells with
       | [] => object
       | _ => int64
       end.

(** The dtype of a row taken across columns ([interleaved_dtype]): [object]
    beside an [object] column, else [float64] beside a [float64] column. *)
Definition common_dtype (ds : list dtype) : dtype :=
  if existsb (dtype_eqb object) ds then object
  else if existsb (dtype_eqb float64) ds then float64
  else match ds with
       | [] => float64
       | _ => int64
       end.

(** A table: column labels and rows of cells, each column under the dtype
    that [dtype_of] gives it. *)
Record DataFrame : Type :=
  mkFrame { columns : list string; rows : list (list scalar) }.

(** [pd.DataFrame()] *)
Definition empty_frame : DataFrame := mkFrame [] [].

Fixpoint position (c : string) (cols : list string) : option nat :=
  match cols with
  | [] => None
  | c' :: cols' =>
      if String.eqb c' c then Some O
      else match position c cols' with
           | Some p => Some (S p)
           | None => None
           end
  end.

Definition in_columns (c : string) (cols : list string) : bool :=
  existsb (String.eqb c) cols.

(** A label that names several columns. *)
Definition repeated (c : string) (cols : list string) : bool :=
  1 <? count_occ string_dec cols c.

Fixpoint remove_nth {A} (p : nat) (l : list A) : list A :=
  match l, p with
  | [], _ => []
  | _ :: l', O => l'
  | x :: l', S p' => x :: remove_nth p' l'
  end.

(** The cells of the first column labelled [c]. *)
Definition column (df : DataFrame) (c : string) : option (list scalar) :=
  p <- position c (columns df) ;;
  Some (map (fun r => nth p r NaN) (rows df)).

(** The cells under [n] labels, column by column, and their dtypes. *)
Definition columns_of (n : nat) (rs : list (list scalar))
  : list (list scalar) :=
  map (fun j => map (fun r => nth j r NaN) rs) (seq 0 n).

Definition dtypes_of (n : nat) (rs : list (list scalar)) : list dtype :=
  map dtype_of (columns_of n rs).

(** [Series.is_unique] *)
Fixpoint is_unique (l : list scalar) : bool :=
  match l with
  | [] => true
  | x :: l' => negb (mem x l') && is_unique l'
  end.

(** [df[c].is_unique]: [df[c]] is a frame, without that attribute, when the
    label names several columns ([AttributeError]); [KeyError] without such
    a column. *)
Definition column_is_unique (df : DataFrame) (c : string) : option bool :=
  if repeated c (columns df) then None
  else values <- column df c ;; Some (is_unique values).

(** [Index.unique()]: the distinct labels, each at its first occurrence. *)
Fixpoint unique_from (seen l : list scalar) : list scalar :=
  match l with
  | [] => []
  | x :: l' =>
      if mem x seen then unique_from seen l'
      else x :: unique_from (x :: seen) l'
  end.

Definition unique (l : list scalar) : list scalar := unique_from [] l.

(** The order in which [algorithms.safe_sort] leaves integers, strings and
    the missing label: integers ascending, then strings by code point, then
    the missing label. *)
Definition scalar_leb (x y : scalar) : bool :=
  match x, y with
  | Int a, Int b => Z.leb a b
  | Int _, _ => true
  | Str _, Int _ => false
  | Str s, Str t => negb (PyStr.ltb t s)
  | Str _, NaN => true
  | NaN, NaN => true
  | NaN, _ => false
  end.

Fixpoint insert_sorted (x : scalar) (l : list scalar) : list scalar :=
  match l with
  | [] => [x]
  | y :: l' => if scalar_leb x y then x :: l else y :: insert_sorted x l'
  end.

Definition sort_mixed (l : list scalar) : list scalar :=
  fold_right insert_sorted [] l.

(** [x < y] between the objects of an array of integers and missing values:
    a missing value is neither below nor above anything. *)
Definition object_ltb (x y : scalar) : bool :=
  match x, y with
  | Int a, Int b => Z.ltb a b
  | _, _ => false
  end.

(** numpy's [argsort] of such an [object] array: an insertion sort that moves
    an element to the left as long as it is below its left neighbour, so that
    no integer passes the missing value.  (numpy sorts up to 17 elements this
    way and partitions longer arrays first; the model inserts throughout.) *)
Fixpoint insert_left (x : scalar) (before : list scalar) : list scalar :=
  match before with
  | [] => [x]
  | y :: before' =>
      if object_ltb x y then y :: insert_left x before' else x :: before
  end.

Definition argsort_objects (l : list scalar) : list scalar :=
  rev (fold_left (fun before x => insert_left x before) l []).

(** [algorithms.safe_sort] on the distinct labels of an index of dtype [d].
    Numbers of an [int64] or [float64] index are sorted, the missing label
    last.  In an [object] index integers and strings are sorted apart
    ([_sort_mixed]), strings with the missing label as well, after
    [argsort] raised [TypeError]; integers with the missing label and no
    string are left to [argsort]. *)
Definition safe_sort (d : dtype) (l : list scalar) : list scalar :=
  match d with
  | object =>
      if existsb is_int l && existsb isna l && negb (existsb is_str l)
      then argsort_objects l
      else sort_mixed l
  | _ => sort_mixed l
  end.

(** [Index.equals] *)
Definition index_equals (i1 i2 : list scalar) : bool :=
  list_eqb scalar_eqb i1 i2.

(** [self.difference(other)] with the default [sort=None]:
    equal indexes give the empty index; an empty [other] gives the distinct
    labels of [self] unsorted; otherwise the distinct labels of [self] that
    are absent from [other], sorted.  The result has the dtype of [self]. *)
Definition difference (self other : list scalar) : list scalar :=
  if index_equals self other then []
  else match other with
       | [] => unique self
       | _ => safe_sort (dtype_of self)
                        (unique (filter (fun k => negb (mem k other)) self))
       end.

(** [self.intersection(other)] with the default [sort=False]: the distinct
    labels of [self] that occur in [other], in the order of [self]. *)
Definition intersection (self other : list scalar) : list scalar :=
  if index_equals self other then unique self
  else match self, other with
       | [], _ | _, [] => []
       | _, _ => filter (fun k => mem k other) (unique self)
       end.

(** A frame after [set_index]: the key column became the row labels. *)
Record Indexed : Type :=
  mkIndexed { index_name : string;
              index : list scalar;
              icolumns : list string;
              irows : list (list scalar) }.

(** [df.set_index(key)]: [KeyError] without such a column, [ValueError] when
    the label names several columns. *)
Definition set_index (key : string) (df : DataFrame) : option Indexed :=
  if repeated key (columns df) then None
  else
    p <- position key (columns df) ;;
    Some (mkIndexed key
                    (map (fun r => nth p r NaN) (rows df))
                    (remove_nth p (columns df))
                    (map (remove_nth p) (rows df))).

(** The rows labelled [k], in table order. *)
Fixpoint rows_at (k : scalar) (idx : list scalar) (rs : list (list scalar))
  : list (list scalar) :=
  match idx, rs with
  | l :: idx', r :: rs' =>
      if scalar_eqb l k then r :: rows_at k idx' rs' else rows_at k idx' rs'
  | _, _ => []
  end.

(** What [frame.loc[k]] returns for one label: a Series when exactly one row
    carries the label, a frame of the rows when several do.  The columns of
    the frame keep their dtypes.  The Series holds the cells of the row, and
    [ds] lists the dtypes of the columns they come from: the dtype of the
    Series is the common dtype of these, and in an [object] Series a number
    out of a [float64] column is a float, any other number an integer. *)
Inductive selection : Type :=
| Series (labels : list string) (ds : list dtype) (values : list scalar)
| Frame (labels : list string) (ds : list dtype) (body : list (list scalar)).

(** [frame.loc[k]]; [KeyError] when no row carries the label. *)
Definition loc (fr : Indexed) (k : scalar) : option selection :=
  let ds := dtypes_of (List.length (icolumns fr)) (irows fr) in
  match rows_at k (index fr) (irows fr) with
  | [] => None
  | [r] => Some (Series (icolumns fr) ds r)
  | rs => Some (Frame (icolumns fr) ds rs)
  end.

(** [frame.loc[keys]] for a list of labels: for each label in turn, the
    rows that carry it; [KeyError] when a label is absent. *)
Fixpoint loc_rows (fr : Indexed) (keys : list scalar)
  : option (list (scalar * list scalar)) :=
  match keys with
  | [] => Some []
  | k :: keys' =>
      match rows_at k (index fr) (irows fr) with
      | [] => None
      | rs =>
          rest <- loc_rows fr keys' ;;
          Some (map (fun r => (k, r)) rs ++ rest)
      end
  end.

Definition loc_list (fr : Indexed) (keys : list scalar) : option Indexed :=
  sel <- loc_rows fr keys ;;
  Some (mkIndexed (index_name fr) (map fst sel) (icolumns fr) (map snd sel)).

(** [frame.loc[keys]] for an [Index] of labels of dtype [d].  pandas first
    asks whether the key is a boolean mask, and an [object] index that holds
    nothing but missing labels raises [ValueError] there. *)
Definition loc_index (fr : Indexed) (d : dtype) (keys : list scalar)
  : option Indexed :=
  match keys with
  | _ :: _ =>
      if dtype_eqb d object && forallb isna keys then None
      else loc_list fr keys
  | [] => loc_list fr keys
  end.

(** [frame.reset_index()]: the labels go back in as the first column;
    [ValueError] when a column of that name is already there. *)
Definition reset_index (fr : Indexed) : option DataFrame :=
  if in_columns (index_name fr) (icolumns fr) then None
  else Some (mkFrame (index_name fr :: icolumns fr)
                     (map (fun kr => fst kr :: snd kr)
                          (combine (index fr) (irows fr)))).

(** [x.fillna('')], on an array of cells whose dtypes of origin are [ds]
    (one dtype for a column, one dtype per cell for a row).  An [int64] array
    stays as it is, and so does a [float64] array without a missing value;
    with one, it becomes an [object] array that holds the empty string.  An
    [object] array is inferred anew once it is filled: when it holds numbers
    only it becomes a [float64] array if one of them is a float, an [int64]
    array if not. *)
Definition fill (v : scalar) : scalar :=
  match v with NaN => Str "" | _ => v end.

Definition filled_dtype (ds : list dtype) (cells : list scalar) : dtype :=
  match common_dtype ds with
  | int64 => int64
  | float64 => if existsb isna cells then object else float64
  | object =>
      if forallb is_int cells
      then (if existsb (dtype_eqb float64) ds then float64 else int64)
      else object
  end.

Fixpoint filled_dtypes (ds : list dtype) (cols : list (list scalar))
  : list dtype :=
  match ds, cols with
  | d :: ds', c :: cols' => filled_dtype [d] c :: filled_dtypes ds' cols'
  | _, _ => ds
  end.

Definition fillna (x : selection) : selection :=
  match x with
  | Series ls ds vs => Series ls [filled_dtype ds vs] (map fill vs)
  | Frame ls ds rs =>
      Frame ls (filled_dtypes ds (columns_of (List.length ls) rs))
            (map (map fill) rs)
  end.

(** The dtype of a Series whose cells are held under the dtypes [ds]. *)
Definition series_dtype (ds : list dtype) : dtype := common_dtype ds.

(** [x.equals(y)]: same kind of object, same labels in the same order, same
    dtype (of the Series, of each column of the frame), same cells. *)
Definition equals (x y : selection) : bool :=
  match x, y with
  | Series lx dx vx, Series ly dy vy =>
      list_eqb String.eqb lx ly
      && dtype_eqb (series_dtype dx) (series_dtype dy)
      && list_eqb scalar_eqb vx vy
  | Frame lx dx rx, Frame ly dy ry =>
      list_eqb String.eqb lx ly && list_eqb dtype_eqb dx dy
      && list_eqb (list_eqb scalar_eqb) rx ry
  | _, _ => false
  end.

(** [df[mask]] for a list of booleans, one per row.  The empty list is not
    a mask: pandas reads it as an empty list of column labels. *)
Fixpoint select_rows {A} (mask : list bool) (rs : list A) : list A :=
  match mask, rs with
  | m :: mask', r :: rs' =>
      if m then r :: select_rows mask' rs' else select_rows mask' rs'
  | _, _ => []
  end.

Definition getitem_list (df : DataFrame) (mask : list bool) : DataFrame :=
  match mask with
  | [] => mkFrame [] (map (fun _ => []) (rows df))
  | _ => mkFrame (columns df) (select_rows mask (rows df))
  end.

(** [str] of the float [z.0], for an integer of at most 16 digits. *)
Definition float_str (z : Z) : string := (PyStr.str_int z ++ ".0")%string.

(** A cell as [df.apply(f, axis=1)] hands it to [f].  The row comes as a
    Series of the common dtype of the columns: in a [float64] row every
    number is a float, in an [object] row the numbers of the [float64]
    columns are.  [f] reads a cell through [pd.isna] and [str] only, and the
    float [z.0] stands here as the text that [str] gives for it. *)
Definition present (as_float : bool) (v : scalar) : scalar :=
  match v with
  | Int z => if as_float then Str (float_str z) else v
  | _ => v
  end.

Fixpoint present_row (row_dtype : dtype) (ds : list dtype)
         (r : list scalar) : list scalar :=
  match ds, r with
  | d :: ds', v :: r' =>
      present (dtype_eqb row_dtype float64 || dtype_eqb d float64) v
      :: present_row row_dtype ds' r'
  | _, _ => r
  end.

(** The rows that [df.apply(f, axis=1)] hands to [f], in order. *)
Definition apply_rows (df : DataFrame) : list (list scalar) :=
  let ds := dtypes_of (List.length (columns df)) (rows df) in
  map (present_row (common_dtype ds) ds) (rows df).

End Pandas.

(* ------------------------------------------------------------------------- *)
(** ** Python floats *)

Module Binary64.

(** A Python [float] is an IEEE 754 double.  The quotient of two integers
    below 2^53 is the double nearest to the exact quotient, ties going to the
    even significand; [double] gives that double as the rational it is.
    Overflow and subnormal numbers are left out: the quotients of the script
    lie between 0 and 1 and have string lengths as denominators. *)
Definition pow2 (k : Z) : Q := Qpower 2 k.

Definition round_half_even (s : Q) : Z :=
  let c := Qfloor (s + (1 # 2))%Q in
  if Qeq_bool (inject_Z c) (s + (1 # 2))%Q && Z.odd c then (c - 1)%Z else c.

(** The [k] with [2^52 <= q * 2^k < 2^53], for a positive [q]. *)
Definition exponent (q : Q) : Z :=
  let k0 := (52 + Z.log2 (Zpos (Qden q)) - Z.log2 (Qnum q))%Z in
  if Qle_bool (pow2 52) (q * pow2 k0)%Q then k0 else (k0 + 1)%Z.

Definition nearest (q : Q) : Q :=
  let k := exponent q in
  (inject_Z (round_half_even (q * pow2 k)%Q) * pow2 (- k))%Q.

Definition double (q : Q) : Q :=
  match Qnum q with
  | Z0 => 0%Q
  | Zpos _ => nearest q
  | Zneg _ => (- nearest (- q))%Q
  end.

End Binary64.

(* ------------------------------------------------------------------------- *)
(** ** difflib: SequenceMatcher and get_close_matches *)

Module Difflib.

(** A block [(i, j, k)]: [a[i:i+k] == b[j:j+k]]. *)
Definition block : Type := (nat * nat * nat)%type.

(** A window [(alo, ahi, blo, bhi)] still to be searched. *)
Definition window : Type := (nat * nat * nat * nat)%type.

Definition size (m : block) : nat := snd m.

Section Matcher.
(** [SequenceMatcher(None, a, b)]: no junk predicate, [autojunk] on. *)
Variables a b : list ascii.

(** The automatic junk heuristic of [__chain_b]: in a second sequence of
    200 elements or more, an element that occurs more than
    [len(b) // 100 + 1] times is popular and loses its entry in [b2j]. *)
Definition popular (c : ascii) : bool :=
  (200 <=? List.length b)
  && (List.length b / 100 + 1 <? count_occ ascii_dec b c).

Fixpoint positions (c : ascii) (l : list ascii) (j : nat) : list nat :=
  match l with
  | [] => []
  | x :: l' =>
      if Ascii.eqb x c then j :: positions c l' (S j)
      else positions c l' (S j)
  end.

(** [b2j.get(c, [])]: where [c] occurs in [b], in increasing order. *)
Definition b2j (c : ascii) : list nat :=
  if popular c then [] else positions c b 0.

(** [bjunk] stays empty because [isjunk] is [None]. *)
Definition isbjunk (c : ascii) : bool := false.

(** [j2len.get(j - 1, 0)] on a dictionary kept as a function; every stored
    length is positive, so an absent key reads [0]. *)
Definition j2lenget (j2len : nat -> nat) (j : nat) : nat :=
  match j with
  | O => 0
  | S j' => j2len j'
  end.

Definition setitem (d : nat -> nat) (j k : nat) : nat -> nat :=
  fun x => if x =? j then k else d x.

(** The inner loop of [find_longest_match] over [b2j[a[i]]]. *)
Fixpoint scan_row (i blo bhi : nat) (j2len : nat -> nat) (js : list nat)
         (newj2len : nat -> nat) (best : block) : (nat -> nat) * block :=
  match js with
  | [] => (newj2len, best)
  | j :: js' =>
      if j <? blo then scan_row i blo bhi j2len js' newj2len best
      else if bhi <=? j then (newj2len, best)
      else
        let k := j2lenget j2len j + 1 in
        let best' := if size best <? k then (i + 1 - k, j + 1 - k, k)
                     else best in
        scan_row i blo bhi j2len js' (setitem newj2len j k) best'
  end.

(** The outer loop over [range(alo, ahi)]. *)
Fixpoint scan_rows (is_ : list nat) (blo bhi : nat) (j2len : nat -> nat)
         (best : block) : block :=
  match is_ with
  | [] => best
  | i :: is' =>
      match nth_error a i with
      | Some c =>
          let '(newj2len, best') :=
            scan_row i blo bhi j2len (b2j c) (fun _ => 0) best in
          scan_rows is' blo bhi newj2len best'
      | None => best
      end
  end.

Definition same_at (i j : nat) : bool :=
  match nth_error a i, nth_error b j with
  | Some x, Some y => Ascii.eqb x y
  | _, _ => false
  end.

Definition junk_at (j : nat) : bool :=
  match nth_error b j with
  | Some y => isbjunk y
  | None => false
  end.

(** [while besti > alo and bestj > blo and isbjunk(b[bestj-1]) == junk
          and a[besti-1] == b[bestj-1]: ...] *)
Fixpoint extend_left (junk : bool) (fuel alo blo : nat) (m : block)
  : block :=
  match fuel with
  | O => m
  | S fuel' =>
      let '(i, j, k) := m in
      if (alo <? i) && (blo <? j)
         && Bool.eqb (junk_at (j - 1)) junk && same_at (i - 1) (j - 1)
      then extend_left junk fuel' alo blo (i - 1, j - 1, k + 1)
      else m
  end.

(** [while besti+bestsize < ahi and bestj+bestsize < bhi
          and isbjunk(b[bestj+bestsize]) == junk
          and a[besti+bestsize] == b[bestj+bestsize]: ...] *)
Fixpoint extend_right (junk : bool) (fuel ahi bhi : nat) (m : block)
  : block :=
  match fuel with
  | O => m
  | S fuel' =>
      let '(i, j, k) := m in
      if (i + k <? ahi) && (j + k <? bhi)
         && Bool.eqb (junk_at (j + k)) junk && same_at (i + k) (j + k)
      then extend_right junk fuel' ahi bhi (i, j, k + 1)
      else m
  end.

(** [find_longest_match(alo, ahi, blo, bhi)] *)
Definition find_longest_match (alo ahi blo bhi : nat) : block :=
  let m0 := scan_rows (seq alo (ahi - alo)) blo bhi (fun _ => 0)
                      (alo, blo, 0) in
  let m1 := extend_left false (List.length a) alo blo m0 in
  let m2 := extend_right false (List.length a) ahi bhi m1 in
  let m3 := extend_left true (List.length a) alo blo m2 in
  extend_right true (List.length a) ahi bhi m3.

(** The work list of [get_matching_blocks]; the head of [queue] is the
    element that [queue.pop()] returns. *)
Fixpoint blocks_loop (fuel : nat) (queue : list window)
         (matching_blocks : list block) : list block :=
  match fuel with
  | O => matching_blocks
  | S fuel' =>
      match queue with
      | [] => matching_blocks
      | (alo, ahi, blo, bhi) :: queue' =>
          let '(i, j, k) := find_longest_match alo ahi blo bhi in
          if 0 <? k then
            let q1 := if (alo <? i) && (blo <? j)
                      then (alo, i, blo, j) :: queue' else queue' in
            let q2 := if (i + k <? ahi) && (j + k <? bhi)
                      then (i + k, ahi, j + k, bhi) :: q1 else q1 in
            blocks_loop fuel' q2 (matching_blocks ++ [(i, j, k)])
          else blocks_loop fuel' queue' matching_blocks
      end
  end.

(** [get_matching_blocks()] before it sorts the blocks, merges adjacent
    ones and appends the closing [(la, lb, 0)]: none of the three changes
    the sum of the sizes.  A window holds at least one element of [a]
    unless it is the first, so [len(a) + 1] rounds empty the queue. *)
Definition get_matching_blocks : list block :=
  blocks_loop (S (List.length a))
              [(0, List.length a, 0, List.length b)] [].

Definition matches : nat :=
  fold_right (fun m acc => size m + acc) 0 get_matching_blocks.

(** [_calculate_ratio(matches, length)]: the exact quotient.  Python returns
    the double nearest to it, [Binary64.double] of this number. *)
Definition calculate_ratio (m length : nat) : Q :=
  match length with
  | O => 1%Q
  | S _ => Qmake (2 * Z.of_nat m) (Pos.of_nat length)
  end.

(** [ratio()] *)
Definition ratio : Q :=
  calculate_ratio matches (List.length a + List.length b).

(** [quick_ratio()]: [avail] is a dictionary kept as a partial function;
    [fullbcount.get(elt, 0)] is the number of occurrences in [b]. *)
Definition fullbcount (c : ascii) : Z := Z.of_nat (count_occ ascii_dec b c).

Fixpoint quick_loop (elts : list ascii) (avail : ascii -> option Z)
         (matches : nat) : nat :=
  match elts with
  | [] => matches
  | elt :: elts' =>
      let numb := match avail elt with
                  | Some n => n
                  | None => fullbcount elt
                  end in
      let avail' := fun c => if Ascii.eqb c elt then Some (numb - 1)%Z
                             else avail c in
      quick_loop elts' avail' (if (0 <? numb)%Z then matches + 1
                               else matches)
  end.

Definition quick_ratio : Q :=
  calculate_ratio (quick_loop a (fun _ => None) 0)
                  (List.length a + List.length b).

(** [real_quick_ratio()] *)
Definition real_quick_ratio : Q :=
  calculate_ratio (Nat.min (List.length a) (List.length b))
                  (List.length a + List.length b).

End Matcher.

(** [item > best] on the tuples [(score, x)] that [get_close_matches]
    collects. *)
Definition tuple_gtb (item best : Q * string) : bool :=
  negb (Qle_bool (fst item) (fst best))
  || (Qeq_bool (fst item) (fst best) && PyStr.ltb (snd best) (snd item)).

(** [heapq.nlargest(1, result)], which is [max(result)] when there is
    one. *)
Fixpoint max_from (best : Q * string) (l : list (Q * string)) : Q * string :=
  match l with
  | [] => best
  | item :: l' => max_from (if tuple_gtb item best then item else best) l'
  end.

Definition nlargest1 (result : list (Q * string)) : list (Q * string) :=
  match result with
  | [] => []
  | item :: l => [max_from item l]
  end.

(** The loop of [get_close_matches]: [s.set_seq2(word)], and for every
    possibility [x], [s.set_seq1(x)] and the three tests in turn.  The tests
    and the scores that are collected are on doubles. *)
Fixpoint close_loop (word : string) (possibilities : list string)
         (cutoff : Q) (result : list (Q * string)) : list (Q * string) :=
  match possibilities with
  | [] => result
  | x :: rest =>
      let sa := PyStr.chars x in
      let sb := PyStr.chars word in
      close_loop word rest cutoff
        (if Qle_bool cutoff (Binary64.double (real_quick_ratio sa sb))
            && Qle_bool cutoff (Binary64.double (quick_ratio sa sb))
            && Qle_bool cutoff (Binary64.double (ratio sa sb))
         then result ++ [(Binary64.double (ratio sa sb), x)] else result)
  end.

(** [get_close_matches(word, possibilities, n=1, cutoff=cutoff)];
    [ValueError] when [cutoff] is outside [0, 1]. *)
Definition get_close_matches (word : string) (possibilities : list string)
           (cutoff : Q) : option (list string) :=
  if Qle_bool 0 cutoff && Qle_bool cutoff 1 then
    Some (map snd (nlargest1 (close_loop word possibilities cutoff [])))
  else None.

End Difflib.

(* ------------------------------------------------------------------------- *)
(** ** compare_excels.py *)

Import Pandas.

(** [row_hash(series)] *)
Definition row_hash (series : list scalar) : string :=
  let vals := map (fun v => if isna v then "" else PyStr.strip (str v))
                  series in
  let s := PyStr.join "|" vals in
  Hashlib.md5_hexdigest (PyStr.encode_utf8 s).

(** The spelling [Código], with its o-acute as the code point U+00F3. *)
Definition Codigo_acute : string :=
  String "C" (String (ascii_of_N 243) "digo").

Definition candidates : list string :=
  ["id"; "ID"; "Id"; "codigo"; Codigo_acute; "codigo_municipio";
   "codigo_munic"; "codigoMunicipio"; "cod"].

Definition in_candidates (c : string) : bool :=
  existsb (String.eqb c) candidates.

(** The second loop of [find_key_column]: [None] when [df[c].is_unique]
    raises, [Some None] when the loop ends without a hit. *)
Fixpoint first_unique (df : DataFrame) (cols : list string)
  : option (option string) :=
  match cols with
  | [] => Some None
  | c :: cols' =>
      u <- column_is_unique df c ;;
      if u then Some (Some c) else first_unique df cols'
  end.

(** [find_key_column(df)]: the two loops, each returning at its first hit.
    The outer [None] is an exception, [Some None] the result [None]. *)
Definition find_key_column (df : DataFrame) : option (option string) :=
  match find in_candidates (columns df) with
  | Some c => Some (Some c)
  | None => first_unique df (columns df)
  end.

(** A [pathlib.Path] of a workbook, as far as the script looks at it. *)
Record Path : Type :=
  mkPath { parent : string; stem : string; suffix : string }.

Definition pair : Type := (Path * Path * Q)%type.

(** A [dict] from stems to paths, in insertion order: assigning to a key
    that is there replaces the value where the key stands. *)
Definition dict : Type := list (string * Path).

Fixpoint dict_set (d : dict) (k : string) (v : Path) : dict :=
  match d with
  | [] => [(k, v)]
  | (k', v') :: d' =>
      if String.eqb k' k then (k', v) :: d' else (k', v') :: dict_set d' k v
  end.

Fixpoint dict_get (d : dict) (k : string) : option Path :=
  match d with
  | [] => None
  | (k', v') :: d' => if String.eqb k' k then Some v' else dict_get d' k
  end.

(** [{f.stem: f for f in files_b}] *)
Definition stems_of (files_b : list Path) : dict :=
  fold_left (fun d f => dict_set d (stem f) f) files_b [].

(** The [for bstem, fb in stems_b.items()] loop: the entry it breaks on. *)
Definition exact_match (a_stem : string) (stems_b : dict)
  : option (string * Path) :=
  find (fun e => String.eqb (PyStr.lower a_stem) (PyStr.lower (fst e)))
       stems_b.

(** One round of the [for fa in files_a] loop: what it appends to [pairs].
    The score of a fuzzy pair is kept as the exact ratio; Python holds the
    double nearest to it, which the script does nothing with but print it. *)
Definition pair_one (stems_b : dict) (threshold : Q) (fa : Path)
  : option (list pair) :=
  let a_stem := stem fa in
  match exact_match a_stem stems_b with
  | Some (bstem, fb) => Some [(fa, fb, 1%Q)]
  | None =>
      let candidates := map fst stems_b in
      match_ <- Difflib.get_close_matches a_stem candidates threshold ;;
      match match_ with
      | [] => Some []
      | m :: _ =>
          fb <- dict_get stems_b m ;;
          Some [(fa, fb, Difflib.ratio (PyStr.chars a_stem) (PyStr.chars m))]
      end
  end.

Fixpoint pair_loop (stems_b : dict) (threshold : Q) (files_a : list Path)
         (pairs : list pair) : option (list pair) :=
  match files_a with
  | [] => Some pairs
  | fa :: rest =>
      new <- pair_one stems_b threshold fa ;;
      pair_loop stems_b threshold rest (pairs ++ new)
  end.

(** [pair_files(files_a, files_b, threshold)] *)
Definition pair_files (files_a files_b : list Path) (threshold : Q)
  : option (list pair) :=
  pair_loop (stems_of files_b) threshold files_a [].

(** Truth value of a string in [if key and ...]. *)
Definition truthy (s : string) : bool :=
  match s with EmptyString => false | _ => true end.

(** The [for k in common] loop of [compare_dataframes]. *)
Fixpoint modified_loop (a_idx b_idx : Indexed) (common : list scalar)
         (modified_keys : list scalar) : option (list scalar) :=
  match common with
  | [] => Some modified_keys
  | k :: rest =>
      row_a <- loc a_idx k ;;
      row_b <- loc b_idx k ;;
      modified_loop a_idx b_idx rest
        (if negb (equals (fillna row_a) (fillna row_b))
         then modified_keys ++ [k] else modified_keys)
  end.

(** [b_idx.loc[keys].reset_index() if keys else pd.DataFrame()], for a list
    of keys. *)
Definition rows_of_keys (b_idx : Indexed) (keys : list scalar)
  : option DataFrame :=
  match keys with
  | [] => Some empty_frame
  | _ => sel <- loc_list b_idx keys ;; reset_index sel
  end.

(** [b_idx.loc[keys].reset_index() if len(keys) > 0 else pd.DataFrame()],
    for an [Index] of keys of dtype [d]. *)
Definition rows_of_index (b_idx : Indexed) (d : dtype) (keys : list scalar)
  : option DataFrame :=
  match keys with
  | [] => Some empty_frame
  | _ => sel <- loc_index b_idx d keys ;; reset_index sel
  end.

(** The branch of [compare_dataframes] that uses the key column.  The index
    of added keys has the dtype of the index of B. *)
Definition compare_by_key (key : string) (df_a df_b : DataFrame)
  : option (DataFrame * DataFrame) :=
  a_idx <- set_index key df_a ;;
  b_idx <- set_index key df_b ;;
  let added_keys := difference (index b_idx) (index a_idx) in
  let common := intersection (index a_idx) (index b_idx) in
  added <- rows_of_index b_idx (dtype_of (index b_idx)) added_keys ;;
  modified_keys <- modified_loop a_idx b_idx common [] ;;
  modified <- rows_of_keys b_idx modified_keys ;;
  Some (added, modified).

(** A Python [set] of strings, and [h in s]. *)
Definition set_of (l : list string) : list string := nodup string_dec l.

Definition set_mem (h : string) (s : list string) : bool :=
  existsb (String.eqb h) s.

Definition set_minus (s t : list string) : list string :=
  filter (fun h => negb (set_mem h t)) s.

(** The branch of [compare_dataframes] that compares row hashes.  The closing
    [reset_index(drop=True)] renumbers the rows, which the model does not
    number. *)
Definition compare_by_hash (df_a df_b : DataFrame)
  : option (DataFrame * DataFrame) :=
  let ha := map row_hash (apply_rows df_a) in
  let hb := map row_hash (apply_rows df_b) in
  let set_a := set_of ha in
  let set_b := set_of hb in
  let added_hashes := set_minus set_b set_a in
  let added := getitem_list df_b (map (fun h => set_mem h added_hashes) hb) in
  let modified := empty_frame in
  Some (added, modified).

(** [compare_dataframes(df_a, df_b)] *)
Definition compare_dataframes (df_a df_b : DataFrame)
  : option (DataFrame * DataFrame) :=
  key <- find_key_column df_a ;;
  match key with
  | Some key =>
      if truthy key && in_columns key (columns df_b)
      then compare_by_key key df_a df_b
      else compare_by_hash df_a df_b
  | None => compare_by_hash df_a df_b
  end.

(* ------------------------------------------------------------------------- *)
(** ** main *)

(** What [main] meets outside the program: the environment once
    [load_dotenv] has run, the two directories, the workbooks, and whether the
    output directory and an output workbook can be made.  [None] and [false]
    stand for the call raising. *)
Record World : Type :=
  mkWorld { getenv : string -> option string;
            mkdir : string -> bool;
            iterdir : string -> option (list Path);
            is_file : Path -> bool;
            read_excel : Path -> option DataFrame;
            writable : Path -> bool }.

(** The lines [main] prints, each with the values it interpolates. *)
Inductive message : Type :=
| Configure
| Counts (files_a files_b : nat)
| Found (pairs : nat) (threshold : Q)
| Comparing (fa fb : Path) (score : Q)
| ReadError
| NoChanges
| Saved (out_file : Path).

(** What a run does to the world, in order. *)
Inductive effect : Type :=
| Print (m : message)
| MakeDir (dir : string)
| WriteWorkbook (out_file : Path) (sheets : list (string * DataFrame)).

(** How a run ends: [main] returns, [sys.exit(code)], or an exception
    escapes. *)
Inductive outcome : Type :=
| Returned
| Exited (code : nat)
| Raised.

(** [os.getenv(name, default)] *)
Definition getenv_default (w : World) (name default : string) : string :=
  match getenv w name with
  | Some v => v
  | None => default
  end.

Definition exts : list string := [".xlsx"; ".xls"; ".xlsm"].

(** [[f for f in p.iterdir() if f.suffix in exts and f.is_file()]] *)
Definition listed (w : World) (dir : string) : option (list Path) :=
  fs <- iterdir w dir ;;
  Some (filter (fun f => existsb (String.eqb (suffix f)) exts && is_file w f)
               fs).

(** [df.empty]: no column or no row. *)
Definition frame_empty (df : DataFrame) : bool :=
  match columns df, rows df with
  | [], _ => true
  | _, [] => true
  | _, _ => false
  end.

(** [out / f"{fa.stem}_vs_{fb.stem}_comparacion.xlsx"] *)
Definition out_file_of (out : string) (fa fb : Path) : Path :=
  mkPath out (stem fa ++ "_vs_" ++ stem fb ++ "_comparacion")%string ".xlsx".

(** The sheets written inside the [with pd.ExcelWriter(...)] block. *)
Definition sheets_of (added modified : DataFrame)
  : list (string * DataFrame) :=
  (if frame_empty added then [] else [("added", added)])
  ++ (if frame_empty modified then [] else [("modified", modified)]).

(** One round of the [for fa, fb, score in pairs] loop: its effects, and
    whether the loop goes on ([false]: an exception escaped). *)
Definition compare_pair (w : World) (out : string) (p : pair)
  : list effect * bool :=
  let '(fa, fb, score) := p in
  match read_excel w fa with
  | None => ([Print (Comparing fa fb score); Print ReadError], true)
  | Some dfa =>
      match read_excel w fb with
      | None => ([Print (Comparing fa fb score); Print ReadError], true)
      | Some dfb =>
          match compare_dataframes dfa dfb with
          | None => ([Print (Comparing fa fb score)], false)
          | Some (added, modified) =>
              if frame_empty added && frame_empty modified then
                ([Print (Comparing fa fb score); Print NoChanges], true)
              else
                let out_file := out_file_of out fa fb in
                if writable w out_file then
                  ([Print (Comparing fa fb score);
                    WriteWorkbook out_file (sheets_of added modified);
                    Print (Saved out_file)], true)
                else ([Print (Comparing fa fb score)], false)
          end
      end
  end.

Fixpoint compare_loop (w : World) (out : string) (pairs : list pair)
  : list effect * outcome :=
  match pairs with
  | [] => ([], Returned)
  | p :: rest =>
      let '(es, go_on) := compare_pair w out p in
      if go_on then
        let '(es', o) := compare_loop w out rest in (es ++ es', o)
      else (es, Raised)
  end.

Section Main.
(** [float(s)] on the text of [FUZZY_THRESHOLD]; [None]: [ValueError]. *)
Variable float : string -> option Q.

(** [main()] after the configuration is read and found complete. *)
Definition run (w : World) (FOLDER_A FOLDER_B OUTPUT_DIR : string)
           (THRESHOLD : Q) : list effect * outcome :=
  if negb (mkdir w OUTPUT_DIR) then ([], Raised)
  else
    match listed w FOLDER_A with
    | None => ([MakeDir OUTPUT_DIR], Raised)
    | Some files_a =>
        match listed w FOLDER_B with
        | None => ([MakeDir OUTPUT_DIR], Raised)
        | Some files_b =>
            let counts := Print (Counts (List.length files_a)
                                        (List.length files_b)) in
            match pair_files files_a files_b THRESHOLD with
            | None => ([MakeDir OUTPUT_DIR; counts], Raised)
            | Some pairs =>
                let '(es, o) := compare_loop w OUTPUT_DIR pairs in
                ([MakeDir OUTPUT_DIR; counts;
                  Print (Found (List.length pairs) THRESHOLD)] ++ es, o)
            end
        end
    end.

(** [main()] *)
Definition main (w : World) : list effect * outcome :=
  let FOLDER_A := getenv w "FOLDER_A" in
  let FOLDER_B := getenv w "FOLDER_B" in
  let OUTPUT_DIR := getenv_default w "OUTPUT_DIR" "comparisons_output" in
  match float (getenv_default w "FUZZY_THRESHOLD" "0.9") with
  | None => ([], Raised)
  | Some THRESHOLD =>
      match FOLDER_A, FOLDER_B with
      | Some a, Some b =>
          if truthy a && truthy b then run w a b OUTPUT_DIR THRESHOLD
          else ([Print Configure], Exited 1)
      | _, _ => ([Print Configure], Exited 1)
      end
  end.

End Main.

(* ------------------------------------------------------------------------- *)
(** ** Vocabulary of the statements *)

(** [c] is the first element of [cols], in their order, that satisfies [P]. *)
Definition first_with (P : string -> bool) (cols : list string) (c : string)
  : Prop :=
  exists before after,
    cols = before ++ c :: after
    /\ P c = true
    /\ forall x, In x before -> P x = false.

(** The cells of the column [c] are pairwise distinct. *)
Definition distinct_values (df : DataFrame) (c : string) : bool :=
  match column df c with
  | Some values => is_unique values
  | None => false
  end.

(** Tables for the examples of key detection: an [id] column that repeats a
    value, a table whose second column alone has distinct values, a table
    without any column of distinct values, and a label that names two
    columns. *)
Definition repeated_id : DataFrame :=
  mkFrame ["name"; "id"] [[Str "Ana"; Int 7]; [Str "Luis"; Int 7]].

Definition unique_second : DataFrame :=
  mkFrame ["name"; "code"] [[Str "Ana"; Int 7]; [Str "Ana"; Int 8]].

Definition no_key : DataFrame :=
  mkFrame ["x"; "y"] [[Int 1; Int 2]; [Int 1; Int 2]].

Definition repeated_label : DataFrame :=
  mkFrame ["x"; "x"] [[Int 1; Int 2]; [Int 1; Int 3]].

(** A missing cell reads as the empty string, any other cell as its string
    stripped of surrounding white space. *)
Definition normalized (v : scalar) : string :=
  match v with
  | NaN => EmptyString
  | Int z => PyStr.strip (PyStr.str_int z)
  | Str s => PyStr.strip s
  end.

(** The normalized cells of a row, in row order, with a bar between two
    neighbours. *)
Fixpoint joined (row : list scalar) : string :=
  match row with
  | [] => EmptyString
  | [v] => normalized v
  | v :: rest => (normalized v ++ "|" ++ joined rest)%string
  end.

Definition is_lower_hex (c : ascii) : bool :=
  let n := PyStr.code c in
  (((48 <=? n) && (n <=? 57)) || ((97 <=? n) && (n <=? 102)))%N.

(** A table as [read_excel] delivers it: every row has a cell under every
    column, and every integer is one that a double holds exactly. *)
Definition in_range (v : scalar) : Prop :=
  match v with
  | Int z => (Z.abs z <= 2 ^ 53)%Z
  | _ => True
  end.

Definition well_formed (df : DataFrame) : Prop :=
  Forall (fun r => List.length r = List.length (columns df)
                   /\ Forall in_range r) (rows df).

(** A row of the table [df] as [apply] hands it to [row_hash], and its
    fingerprint. *)
Definition presented (df : DataFrame) (r : list scalar) : list scalar :=
  let ds := dtypes_of (List.length (columns df)) (rows df) in
  present_row (common_dtype ds) ds r.

Definition fingerprint (df : DataFrame) (r : list scalar) : string :=
  row_hash (presented df r).

(** The fingerprint of the row [r] of B occurs among the fingerprints of the
    rows of A. *)
Definition fingerprint_in (df_a df_b : DataFrame) (r : list scalar) : bool :=
  existsb (String.eqb (fingerprint df_b r))
          (map (fingerprint df_a) (rows df_a)).

(** The key cell of a row, for the key column at position [p]. *)
Definition key_of (p : nat) (r : list scalar) : scalar := nth p r NaN.

Definition keys_of (p : nat) (df : DataFrame) : list scalar :=
  map (key_of p) (rows df).

(** A row as the diff emits it: the key cell, then the other cells. *)
Definition key_first (p : nat) (r : list scalar) : list scalar :=
  key_of p r :: remove_nth p r.

Definition has_key (p : nat) (k : scalar) (r : list scalar) : bool :=
  scalar_eqb (key_of p r) k.

(** The rows of [df] that carry the key [k], in table order, as emitted. *)
Definition emitted_rows (p : nat) (df : DataFrame) (k : scalar)
  : list (list scalar) :=
  map (key_first p) (filter (has_key p k) (rows df)).

(** The same rows without their key cell: what the comparison looks at. *)
Definition other_cells (p : nat) (df : DataFrame) (k : scalar)
  : list (list scalar) :=
  map (remove_nth p) (filter (has_key p k) (rows df)).

(** The frame the key branch builds from a list of keys. *)
Definition emitted (p : nat) (key : string) (df : DataFrame)
           (keys : list scalar) : DataFrame :=
  match keys with
  | [] => empty_frame
  | _ => mkFrame (key :: remove_nth p (columns df))
                 (flat_map (emitted_rows p df) keys)
  end.

(** The dtypes of the columns beside the key column at position [p]. *)
Definition other_dtypes (p : nat) (df : DataFrame) : list dtype :=
  dtypes_of (List.length (remove_nth p (columns df)))
            (map (remove_nth p) (rows df)).

(** The dtype of the row [r] of [df], without its key cell, once it is
    filled. *)
Definition filled_row_dtype (p : nat) (df : DataFrame) (r : list scalar)
  : dtype :=
  filled_dtype (other_dtypes p df) (remove_nth p r).

(** What [loc] makes of the rows found under one label. *)
Definition selection_of (labels : list string) (ds : list dtype)
           (rs : list (list scalar)) : selection :=
  match rs with
  | [r] => Series labels ds r
  | _ => Frame labels ds rs
  end.

(** What the loop compares for the key [k]: the rows under [k] without their
    key cell, as a Series or as a frame. *)
Definition selected (p : nat) (df : DataFrame) (k : scalar) : selection :=
  selection_of (remove_nth p (columns df)) (other_dtypes p df)
               (other_cells p df k).

(** The comparison of the rows under key [k] reports a difference. *)
Definition differsb (pa pb : nat) (df_a df_b : DataFrame) (k : scalar) : bool :=
  negb (equals (fillna (selected pa df_a k)) (fillna (selected pb df_b k))).

(** Two single rows, without their key cells, compare as different: the
    labels of the other columns differ as sequences, or the rows are kept
    under different dtypes once missing cells are filled, or a cell differs
    once missing cells are read as empty strings. *)
Definition rows_differ (pa pb : nat) (df_a df_b : DataFrame)
           (ra rb : list scalar) : Prop :=
  remove_nth pa (columns df_a) <> remove_nth pb (columns df_b)
  \/ filled_row_dtype pa df_a ra <> filled_row_dtype pb df_b rb
  \/ map fill (remove_nth pa ra) <> map fill (remove_nth pb rb).

(** An index of keys of dtype [d] that pandas takes for a boolean mask with
    missing values. *)
Definition masks (d : dtype) (keys : list scalar) : bool :=
  match keys with
  | [] => false
  | _ => dtype_eqb d object && forallb isna keys
  end.

(** The keys that only B has are the missing label alone, in a key column
    that holds text: the case in which the selection of the added rows
    raises. *)
Definition only_missing_key_is_new (pa pb : nat) (df_a df_b : DataFrame)
  : Prop :=
  dtype_of (keys_of pb df_b) = object
  /\ difference (keys_of pb df_b) (keys_of pa df_a) = [NaN].

Definition scalar_le (x y : scalar) : Prop := scalar_leb x y = true.

(** The order of the keys [ks], out of an index of dtype [d], is one that
    the model of [argsort] answers for: they are not integers beside the
    missing key in an [object] index, or they are at most 17. *)
Definition order_modelled (d : dtype) (ks : list scalar) : Prop :=
  d = object -> In NaN ks -> (forall s, ~ In (Str s) ks) ->
  List.length ks <= 17.

(** Where the key column stands in a table. *)
Definition key_position (key : string) (df : DataFrame) : nat :=
  match position key (columns df) with
  | Some p => p
  | None => 0
  end.

(** The rows of B whose key is no key of A, in the order of B, key cell
    first. *)
Definition absent_rows_in_table_order (pa pb : nat) (df_a df_b : DataFrame)
  : list (list scalar) :=
  map (key_first pb)
      (filter (fun r => negb (mem (key_of pb r) (keys_of pa df_a)))
              (rows df_b)).



(** The tables of the end-to-end scenario. *)
Definition scenario_A : DataFrame :=
  mkFrame ["id"; "name"] [[Int 1; Str "Ana"]; [Int 2; Str "Luis"]].

Definition scenario_B : DataFrame :=
  mkFrame ["id"; "name"]
          [[Int 1; Str "Ana"]; [Int 2; Str "Luisa"]; [Int 3; Str "Maria"]].

(** Two new rows that B lists with the larger key first. *)
Definition unordered_A : DataFrame :=
  mkFrame ["id"; "name"] [[Int 1; Str "Ana"]].

Definition unordered_B : DataFrame :=
  mkFrame ["id"; "name"]
          [[Int 1; Str "Ana"]; [Int 3; Str "Maria"]; [Int 2; Str "Luis"]].

(** A key column of text in A; in B the same column with integers and a
    blank besides, and with a blank alone besides. *)
Definition text_keys_A : DataFrame :=
  mkFrame ["id"; "name"] [[Str "x"; Str "Rosa"]].

Definition unsorted_B : DataFrame :=
  mkFrame ["id"; "name"]
          [[Int 5; Str "Eva"]; [NaN; Str "Luis"]; [Int 3; Str "Ana"];
           [Str "x"; Str "Rosa"]].

Definition blank_key_B : DataFrame :=
  mkFrame ["id"; "name"] [[Str "x"; Str "Rosa"]; [NaN; Str "Eva"]].

(** The same row, with the two value columns in a different order. *)
Definition swapped_A : DataFrame :=
  mkFrame ["id"; "x"; "y"] [[Int 1; Int 7; Int 7]].

Definition swapped_B : DataFrame :=
  mkFrame ["id"; "y"; "x"] [[Int 1; Int 7; Int 7]].

(** The same rows for key 1; a blank in the other row of B. *)
Definition blank_A : DataFrame :=
  mkFrame ["id"; "v"] [[Int 1; Int 10]; [Int 2; Int 20]].

Definition blank_B : DataFrame :=
  mkFrame ["id"; "v"] [[Int 1; Int 10]; [Int 2; NaN]].

(** A column of the table holds text beside a blank. *)
Definition blank_beside_text (df : DataFrame) : bool :=
  existsb (fun cells => existsb is_str cells && existsb isna cells)
          (columns_of (List.length (columns df)) (rows df)).

(** Rows that read the same after normalization; and rows of integers, in A
    beside a blank. *)
Definition normalized_A : DataFrame :=
  mkFrame ["n"; "c"; "v"] [[Str "Ana"; NaN; Int 7]; [Str "Ana"; NaN; Int 7]].

Definition normalized_B : DataFrame :=
  mkFrame ["n"; "c"; "v"]
          [[Str " Ana "; Str ""; Str "7"]; [Str "Eva"; Str "x"; Int 1]].

Definition floats_A : DataFrame :=
  mkFrame ["x"; "y"]
          [[Int 1; Int 2]; [Int 1; Int 2]; [Int 1; NaN]; [Int 1; NaN]].

Definition floats_B : DataFrame :=
  mkFrame ["x"; "y"] [[Int 1; Int 2]; [Int 1; Int 2]].

(** A renamed column, text keys, and a new row of B without a key. *)
Definition renamed_text_A : DataFrame :=
  mkFrame ["id"; "name"] [[Str "a"; Str "Ana"]].

Definition renamed_text_B : DataFrame :=
  mkFrame ["id"; "nombre"] [[Str "a"; Str "Ana"]; [NaN; Str "Eva"]].

(** A column of A that B lacks, and a column of B that A lacks. *)
Definition renamed_A : DataFrame :=
  mkFrame ["id"; "name"] [[Int 1; Str "Ana"]; [Int 2; Str "Luis"]].

Definition renamed_B : DataFrame :=
  mkFrame ["id"; "nombre"] [[Int 2; Str "Luis"]; [Int 1; Str "Ana"]].

(** Every character once. *)
Definition all_ascii : list ascii := map ascii_of_nat (seq 0 256).

Definition sum_over (f : ascii -> nat) : nat :=
  fold_right (fun c acc => f c + acc) 0 all_ascii.

Definition count (l : list ascii) (c : ascii) : nat := count_occ ascii_dec l c.

(** The size of the largest multiset contained in both sequences. *)
Definition common_count (x y : list ascii) : nat :=
  sum_over (fun c => Nat.min (count x c) (count y c)).

(** [l[lo:hi]] *)
Definition slice (l : list ascii) (lo hi : nat) : list ascii :=
  firstn (hi - lo) (skipn lo l).

(** A block that lies in a window and matches there. *)
Definition valid_block (a b : list ascii) (w : Difflib.window)
           (m : Difflib.block) : Prop :=
  let '(alo, ahi, blo, bhi) := w in
  let '(i, j, k) := m in
  alo <= i /\ i + k <= ahi /\ blo <= j /\ j + k <= bhi
  /\ forall t, t < k -> Difflib.same_at a b (i + t) (j + t) = true.

(** What [j2len] holds before the row that ends at [e]: matches that end
    just before [e] in [a] and at [j] in [b]. *)
Definition ends_ok (a b : list ascii) (alo blo bhi e : nat) (d : nat -> nat)
  : Prop :=
  forall j, 0 < d j ->
            d j <= e /\ d j <= j + 1 /\ alo <= e - d j /\ blo <= j + 1 - d j
            /\ j < bhi
            /\ forall t, t < d j ->
                         Difflib.same_at a b (e - d j + t) (j + 1 - d j + t)
                         = true.

Definition window_ok (w : Difflib.window) : Prop :=
  let '(alo, ahi, blo, bhi) := w in alo <= ahi /\ blo <= bhi.

Definition total (ms : list Difflib.block) : nat :=
  fold_right (fun m acc => Difflib.size m + acc) 0 ms.

(** The room a window leaves for matches. *)
Definition cap (a b : list ascii) (w : Difflib.window) : nat :=
  let '(alo, ahi, blo, bhi) := w in
  common_count (slice a alo ahi) (slice b blo bhi).

Definition caps (a b : list ascii) (q : list Difflib.window) : nat :=
  fold_right (fun w acc => cap a b w + acc) 0 q.

(** The rounds a queue can still take: one per element of [a] in a window,
    and one for an empty window. *)
Definition weight (q : list Difflib.window) : nat :=
  fold_right (fun w acc => let '(alo, ahi, _, _) := w in
                           Nat.max 1 (ahi - alo) + acc) 0 q.

(** How many more matches [quick_ratio] would still grant a character. *)
Definition available (b : list ascii) (avail : ascii -> option Z) (c : ascii)
  : nat :=
  Z.to_nat match avail c with
           | Some n => n
           | None => Difflib.fullbcount b c
           end.

(** [f] stands in [files], and no file after it has its stem. *)
Definition last_with_stem (files : list Path) (f : Path) : Prop :=
  exists before after,
    files = before ++ f :: after
    /\ forall g, In g after -> stem g <> stem f.

(** What the dictionary of stems holds after the files [files]. *)
Definition dict_of (files : list Path) (d : dict) : Prop :=
  NoDup (map fst d)
  /\ forall k v, In (k, v) d <-> stem v = k /\ last_with_stem files v.

(** The ratio that [get_close_matches] computes for a possibility [x]
    against the word [w]: [x] is the first sequence, [w] the second. *)
Definition selection_ratio (x w : string) : Q :=
  Difflib.ratio (PyStr.chars x) (PyStr.chars w).

(** The same ratio as the double that Python compares with the threshold. *)
Definition selection_score (x w : string) : Q :=
  Binary64.double (selection_ratio x w).

(** The pairs of [pairs] whose A file is [fa] are exactly those of [out]. *)
Definition pairs_of_file (fa : Path) (pairs out : list pair) : Prop :=
  forall p, (In p pairs /\ fst (fst p) = fa) <-> In p out.

(** Files for the examples of pairing. *)
Definition file (name : string) (ext : string) : Path := mkPath "." name ext.

(** [l1] is [l2] with some elements left out. *)
Inductive subseq {A : Type} : list A -> list A -> Prop :=
| subseq_nil : subseq [] []
| subseq_skip (x : A) (l1 l2 : list A) : subseq l1 l2 -> subseq l1 (x :: l2)
| subseq_take (x : A) (l1 l2 : list A) :
    subseq l1 l2 -> subseq (x :: l1) (x :: l2).

Definition a_file (p : pair) : Path := fst (fst p).
Definition b_file (p : pair) : Path := snd (fst p).
Definition score_of (p : pair) : Q := snd p.

(** The key cells of the rows of a frame that has its key in front. *)
Definition reported_keys (df : DataFrame) : list scalar :=
  map (key_of 0) (rows df).

(** [f] is the first file of [files] whose base name is [name] up to case. *)
Definition first_match (name : string) (files : list Path) (f : Path) : Prop :=
  exists before after,
    files = before ++ f :: after
    /\ PyStr.lower name = PyStr.lower (stem f)
    /\ forall g, In g before -> PyStr.lower name <> PyStr.lower (stem g).

(** The workbooks a run writes, in order. *)
Fixpoint workbooks (es : list effect)
  : list (Path * list (string * DataFrame)) :=
  match es with
  | [] => []
  | WriteWorkbook f sheets :: es' => (f, sheets) :: workbooks es'
  | _ :: es' => workbooks es'
  end.

(** Example worlds for [main]: two folders with one workbook each. *)
Definition example_tables (f : Path) : option DataFrame :=
  if String.eqb (parent f) "A" then Some scenario_A
  else if String.eqb (parent f) "B" then Some scenario_B
  else None.

Definition example_world : World :=
  mkWorld (fun name => if String.eqb name "FOLDER_A" then Some "A"
                       else if String.eqb name "FOLDER_B" then Some "B"
                       else None)
          (fun _ => true)
          (fun dir => if String.eqb dir "A"
                      then Some [mkPath "A" "padron" ".xlsx";
                                 mkPath "A" "notas" ".txt"]
                      else if String.eqb dir "B"
                      then Some [mkPath "B" "Padron" ".xlsx"]
                      else None)
          (fun _ => true)
          example_tables
          (fun _ => true).

(** The same folders, with workbooks whose key column holds text, and in B
    a new row whose key cell is blank. *)
Definition raising_tables (f : Path) : option DataFrame :=
  if String.eqb (parent f) "A" then Some text_keys_A
  else if String.eqb (parent f) "B" then Some blank_key_B
  else None.

Definition raising_world : World :=
  mkWorld (getenv example_world) (mkdir example_world)
          (iterdir example_world) (is_file example_world)
          raising_tables (writable example_world).

(** A text reader for the examples: every text reads as 9/10. *)
Definition example_float (s : string) : option Q := Some (9 # 10)%Q.

(** The pairs a run announces with a [Comparando] line, in order. *)
Fixpoint compared (es : list effect) : list pair :=
  match es with
  | [] => []
  | Print (Comparing fa fb score) :: es' => (fa, fb, score) :: compared es'
  | _ :: es' => compared es'
  end.

(** The output workbook of a pair. *)
Definition workbook_of (out : string) (p : pair) : Path :=
  out_file_of out (a_file p) (b_file p).

(* ------------------------------------------------------------------------- *)
(** ** Facts about lists and labels *)

Lemma subseq_filter {A} (f : A -> bool) (l : list A) : subseq (filter f l) l.
Proof.
  induction l as [|x l IH]; simpl; [constructor|].
  destruct (f x); now constructor.
Qed.

Lemma scalar_eqb_eq (x y : scalar) : scalar_eqb x y = true <-> x = y.
Proof.
  destruct x, y; simpl; split; intro H; try discriminate; try reflexivity.
  - apply Z.eqb_eq in H. now subst.
  - inversion H. apply Z.eqb_refl.
  - apply String.eqb_eq in H. now subst.
  - inversion H. apply String.eqb_refl.
Qed.

Lemma scalar_eqb_refl (x : scalar) : scalar_eqb x x = true.
Proof. now apply scalar_eqb_eq. Qed.

Lemma scalar_eqb_neq (x y : scalar) : scalar_eqb x y = false <-> x <> y.
Proof.
  split.
  - intros H E. apply scalar_eqb_eq in E. congruence.
  - intro H. destruct (scalar_eqb x y) eqn:E; [|reflexivity].
    apply scalar_eqb_eq in E. contradiction.
Qed.

Lemma mem_In (x : scalar) (l : list scalar) : mem x l = true <-> In x l.
Proof.
  unfold mem. rewrite existsb_exists. split.
  - intros [y [Hy E]]. apply scalar_eqb_eq in E. now subst.
  - intro H. exists x. split; [assumption | apply scalar_eqb_refl].
Qed.

Lemma mem_not_In (x : scalar) (l : list scalar) : mem x l = false <-> ~ In x l.
Proof.
  rewrite <- mem_In. destruct (mem x l); split; congruence.
Qed.

Lemma in_columns_In (c : string) (cols : list string) :
  in_columns c cols = true <-> In c cols.
Proof.
  unfold in_columns. rewrite existsb_exists. split.
  - intros [y [Hy E]]. apply String.eqb_eq in E. now subst.
  - intro H. exists c. split; [assumption | apply String.eqb_refl].
Qed.

Lemma list_eqb_eq {A} (eqb : A -> A -> bool) :
  (forall x y, eqb x y = true <-> x = y) ->
  forall l1 l2, list_eqb eqb l1 l2 = true <-> l1 = l2.
Proof.
  intros Heq l1. induction l1 as [|x l1 IH]; intros [|y l2]; simpl;
    split; intro H; try discriminate; try reflexivity.
  - apply andb_true_iff in H as [H1 H2]. apply Heq in H1. apply IH in H2.
    now subst.
  - inversion H; subst. apply andb_true_iff. split; [now apply Heq | now apply IH].
Qed.

Lemma labels_eqb_eq (l1 l2 : list string) :
  list_eqb String.eqb l1 l2 = true <-> l1 = l2.
Proof. apply list_eqb_eq. apply String.eqb_eq. Qed.

Lemma cells_eqb_eq (l1 l2 : list scalar) :
  list_eqb scalar_eqb l1 l2 = true <-> l1 = l2.
Proof. apply list_eqb_eq. apply scalar_eqb_eq. Qed.

Lemma body_eqb_eq (l1 l2 : list (list scalar)) :
  list_eqb (list_eqb scalar_eqb) l1 l2 = true <-> l1 = l2.
Proof. apply list_eqb_eq. apply cells_eqb_eq. Qed.

Lemma is_unique_NoDup (l : list scalar) : is_unique l = true <-> NoDup l.
Proof.
  induction l as [|x l IH]; simpl.
  - split; [constructor | reflexivity].
  - rewrite andb_true_iff, negb_true_iff, mem_not_In, IH. split.
    + intros [H1 H2]. now constructor.
    + intro H. inversion H; subst. now split.
Qed.

Lemma find_first_with (P : string -> bool) (cols : list string) (c : string) :
  find P cols = Some c <-> first_with P cols c.
Proof.
  induction cols as [|x cols IH]; simpl.
  - split; [discriminate|]. intros [before [after [E _]]].
    destruct before; discriminate.
  - destruct (P x) eqn:Px.
    + split.
      * intro H. inversion H; subst. exists [], cols. repeat split; auto.
        intros y [].
      * intros [before [after [E [Pc Hb]]]]. destruct before as [|y before].
        -- simpl in E. inversion E. reflexivity.
        -- simpl in E. inversion E; subst. rewrite (Hb y) in Px; [discriminate|].
           now left.
    + rewrite IH. split.
      * intros [before [after [E [Pc Hb]]]]. exists (x :: before), after.
        subst. repeat split; auto. intros y [Hy|Hy]; [now subst | auto].
      * intros [before [after [E [Pc Hb]]]]. destruct before as [|y before].
        -- simpl in E. inversion E; subst. congruence.
        -- simpl in E. inversion E; subst. exists before, after.
           repeat split; auto. intros z Hz. apply Hb. now right.
Qed.

Lemma find_None_iff (P : string -> bool) (cols : list string) :
  find P cols = None <-> forall x, In x cols -> P x = false.
Proof.
  split.
  - apply find_none.
  - induction cols as [|x cols IH]; simpl; intro H; [reflexivity|].
    rewrite (H x (or_introl eq_refl)). apply IH. intros y Hy. apply H. now right.
Qed.

Lemma position_Some_In (c : string) (cols : list string) :
  In c cols -> exists p, position c cols = Some p.
Proof.
  induction cols as [|x cols IH]; simpl; [intros []|].
  intro H. destruct (String.eqb x c) eqn:E; [now exists 0|].
  destruct H as [H|H]; [subst; rewrite String.eqb_refl in E; discriminate|].
  destruct (IH H) as [p Hp]. rewrite Hp. now exists (S p).
Qed.

Lemma not_repeated (c : string) (cols : list string) :
  NoDup cols -> repeated c cols = false.
Proof.
  intro H. unfold repeated. apply Nat.ltb_ge.
  now apply (proj1 (NoDup_count_occ string_dec cols)).
Qed.

Lemma column_is_unique_distinct (df : DataFrame) (c : string) :
  NoDup (columns df) -> In c (columns df) ->
  column_is_unique df c = Some (distinct_values df c).
Proof.
  intros Nd H. unfold column_is_unique, distinct_values, column.
  rewrite (not_repeated c _ Nd).
  destruct (position c (columns df)) as [p|] eqn:P; [reflexivity|].
  exfalso. clear Nd. induction (columns df) as [|x cols IH]; [destruct H|].
  simpl in P. destruct (String.eqb x c) eqn:E; [discriminate|].
  destruct (position c cols); [discriminate|].
  destruct H as [H|H]; [|now apply IH].
  subst. rewrite String.eqb_refl in E. discriminate.
Qed.

Lemma first_unique_find (df : DataFrame) (cols : list string) :
  NoDup (columns df) -> (forall c, In c cols -> In c (columns df)) ->
  first_unique df cols = Some (find (distinct_values df) cols).
Proof.
  intros Nd. induction cols as [|c cols IH]; intro H; [reflexivity|].
  cbn [first_unique find].
  rewrite (column_is_unique_distinct df c Nd) by (apply H; now left).
  destruct (distinct_values df c); [reflexivity|].
  apply IH. intros x Hx. apply H. now right.
Qed.

(** With distinct labels key detection raises nothing and is the search for
    a name, then for distinct values. *)
Lemma find_key_column_eq (df : DataFrame) :
  NoDup (columns df) ->
  find_key_column df
  = Some (match find in_candidates (columns df) with
          | Some c => Some c
          | None => find (distinct_values df) (columns df)
          end).
Proof.
  intro Nd. unfold find_key_column.
  destruct (find in_candidates (columns df)); [reflexivity|].
  now apply first_unique_find.
Qed.

(** C4.  In a table whose labels name one column each, key detection returns
    the first column, in column order, whose name is one of the candidate
    names, whatever its values; only when no name matches does it return the
    first column whose values are pairwise distinct; it returns nothing
    exactly when no column qualifies, and raises nothing.  A table whose [id]
    column repeats a value still selects [id]; a table without a candidate
    name selects its first column of distinct values. *)
Theorem find_key_column_precedence :
  forall df : DataFrame,
    NoDup (columns df) ->
    (forall c, in_candidates c = true <-> In c candidates)
    /\ (forall c, In c (columns df) ->
                  column_is_unique df c = Some (distinct_values df c))
    /\ (forall c vs, column df c = Some vs ->
                     (distinct_values df c = true <-> NoDup vs))
    /\ (forall c, In c (columns df) ->
                  (distinct_values df c = true
                   <-> NoDup (keys_of (key_position c df) df)))
    /\ (forall c,
           find_key_column df = Some (Some c) <->
           first_with in_candidates (columns df) c
           \/ ((forall x, In x (columns df) -> in_candidates x = false)
               /\ first_with (distinct_values df) (columns df) c))
    /\ (find_key_column df = Some None <->
        forall x, In x (columns df) ->
                  in_candidates x = false /\ distinct_values df x = false)
    /\ find_key_column df <> None
    /\ find_key_column repeated_id = Some (Some "id")
    /\ find_key_column unique_second = Some (Some "code")
    /\ find_key_column no_key = Some None.
Proof.
  intros df Nd. rewrite (find_key_column_eq df Nd).
  split; [|split; [|split; [|split; [|split; [|split; [|split]]]]]].
  - intro c. apply in_columns_In.
  - intros c H. now apply column_is_unique_distinct.
  - intros c vs H. unfold distinct_values. rewrite H. apply is_unique_NoDup.
  - intros c H. unfold distinct_values, column, key_position.
    destruct (position_Some_In c (columns df) H) as [p P]. rewrite P.
    apply is_unique_NoDup.
  - intro c.
    destruct (find in_candidates (columns df)) as [c0|] eqn:F.
    + split.
      * intro H. inversion H; subst. left. now apply find_first_with.
      * intros [H | [H _]].
        -- apply find_first_with in H. congruence.
        -- apply find_some in F as [Hin Hc]. rewrite (H c0 Hin) in Hc.
           discriminate.
    + split.
      * intro H. injection H as H. right.
        split; [now apply find_None_iff | now apply find_first_with].
      * intros [H | [_ H]].
        -- apply find_first_with in H. congruence.
        -- apply find_first_with in H. now rewrite H.
  - destruct (find in_candidates (columns df)) as [c0|] eqn:F.
    + split; [discriminate|]. intro H. apply find_some in F as [Hin Hc].
      destruct (H c0 Hin) as [H1 _]. congruence.
    + rewrite find_None_iff in F. split.
      * intros H x Hx. injection H as H. rewrite find_None_iff in H.
        split; auto.
      * intro H. f_equal. apply find_None_iff. intros x Hx. now apply H.
  - discriminate.
  - repeat split.
Qed.

(** The fallback at work: no label of the table is a candidate name, the
    first column repeats a value, the second does not. *)
Lemma find_key_column_precedence_witness :
  find_key_column unique_second = Some (Some "code")
  /\ first_with (distinct_values unique_second) (columns unique_second) "code".
Proof.
  assert (Nd : NoDup (columns unique_second))
    by (repeat constructor; simpl; intuition discriminate).
  assert (F : first_with (distinct_values unique_second)
                         (columns unique_second) "code").
  { exists ["name"], []. split; [reflexivity|]. split; [reflexivity|].
    intros x [E|[]]. now subst. }
  split; [|exact F].
  destruct (find_key_column_precedence unique_second Nd)
    as [_ [_ [_ [_ [H _]]]]].
  apply H. right. split; [|exact F].
  intros x [E|[E|[]]]; now subst.
Defined.

(* ------------------------------------------------------------------------- *)
(** ** Row fingerprints *)

Lemma normalized_eq (v : scalar) :
  (if isna v then EmptyString else PyStr.strip (str v)) = normalized v.
Proof. destruct v; reflexivity. Qed.

Lemma join_joined (row : list scalar) :
  PyStr.join "|"
    (map (fun v => if isna v then EmptyString else PyStr.strip (str v)) row)
  = joined row.
Proof.
  induction row as [|v row IH]; [reflexivity|].
  destruct row as [|w row].
  - simpl. apply normalized_eq.
  - change (joined (v :: w :: row))
      with (normalized v ++ "|" ++ joined (w :: row))%string.
    rewrite <- IH, <- normalized_eq. reflexivity.
Qed.

Lemma le_bytes_length (n : nat) (x : N) :
  List.length (Hashlib.le_bytes n x) = n.
Proof.
  revert x. induction n as [|n IH]; intro x; simpl; [reflexivity|].
  now rewrite IH.
Qed.

Lemma le_bytes_bound (n : nat) (x : N) :
  Forall (fun b => (b < 256)%N) (Hashlib.le_bytes n x).
Proof.
  revert x. induction n as [|n IH]; intro x; simpl; constructor.
  - change 255%N with (N.ones 8). rewrite N.land_ones.
    apply N.mod_lt. discriminate.
  - apply IH.
Qed.

Lemma md5_length (msg : list N) : List.length (Hashlib.md5 msg) = 16.
Proof.
  unfold Hashlib.md5. rewrite !length_app, !le_bytes_length. reflexivity.
Qed.

Lemma md5_bound (msg : list N) :
  Forall (fun b => (b < 256)%N) (Hashlib.md5 msg).
Proof.
  unfold Hashlib.md5. repeat (apply Forall_app; split); apply le_bytes_bound.
Qed.

Lemma hex_length (bs : list N) :
  String.length (Hashlib.hex bs) = 2 * List.length bs.
Proof.
  induction bs as [|b bs IH]; simpl; [reflexivity|]. rewrite IH. lia.
Qed.

Lemma hex_digit_lower (n : N) :
  (n < 16)%N -> is_lower_hex (Hashlib.hex_digit n) = true.
Proof.
  intro H. assert (E : n = N.of_nat (N.to_nat n)) by now rewrite N2Nat.id.
  assert (L : N.to_nat n < 16) by lia.
  rewrite E. generalize dependent (N.to_nat n). intros k _ L.
  do 16 (destruct k as [|k]; [reflexivity|]). lia.
Qed.

Lemma hex_lower (bs : list N) :
  Forall (fun b => (b < 256)%N) bs ->
  Forall (fun c => is_lower_hex c = true) (PyStr.chars (Hashlib.hex bs)).
Proof.
  induction 1 as [|b bs Hb _ IH]; simpl; [constructor|].
  constructor; [|constructor; [|exact IH]]; apply hex_digit_lower.
  - apply N.Div0.div_lt_upper_bound. exact Hb.
  - apply N.mod_lt. discriminate.
Qed.

(** C7.  The fingerprint of a row is the MD5 digest, in lowercase hexadecimal,
    of the UTF-8 bytes of its normalized cells joined by bars; it is 32
    lowercase hexadecimal digits; rows with the same joined string have the
    same fingerprint, as have the rows ["a|b", "c"] and ["a", "b|c"]. *)
Theorem row_hash_is_md5_of_joined :
  (forall row,
      row_hash row = Hashlib.md5_hexdigest (PyStr.encode_utf8 (joined row)))
  /\ (forall row,
         String.length (row_hash row) = 32
         /\ Forall (fun c => is_lower_hex c = true) (PyStr.chars (row_hash row)))
  /\ (forall r1 r2, joined r1 = joined r2 -> row_hash r1 = row_hash r2)
  /\ joined [Str "a|b"; Str "c"] = "a|b|c"
  /\ joined [Str "a"; Str "b|c"] = "a|b|c"
  /\ row_hash [Str "a|b"; Str "c"] = row_hash [Str "a"; Str "b|c"]
  /\ row_hash [Str "a|b"; Str "c"] = "2e077b3ec5932ac3cf914ebdf242b4ee"
  /\ row_hash [NaN; Int 7; Str "  x "] = row_hash [Str ""; Str "7"; Str "x"].
Proof.
  assert (E : forall row,
             row_hash row
             = Hashlib.md5_hexdigest (PyStr.encode_utf8 (joined row))).
  { intro row. unfold row_hash. cbv zeta. now rewrite join_joined. }
  split; [exact E|]. split; [|split; [|repeat split]].
  - intro row. rewrite E. unfold Hashlib.md5_hexdigest. split.
    + rewrite hex_length, md5_length. reflexivity.
    + apply hex_lower, md5_bound.
  - intros r1 r2 H. now rewrite !E, H.
Qed.

(* ------------------------------------------------------------------------- *)
(** ** Comparison by row hash *)

Lemma set_mem_In (h : string) (s : list string) : set_mem h s = true <-> In h s.
Proof. apply in_columns_In. Qed.

Lemma set_mem_ext (h : string) (s t : list string) :
  (In h s <-> In h t) -> set_mem h s = set_mem h t.
Proof.
  intro H. destruct (set_mem h s) eqn:E1, (set_mem h t) eqn:E2; try reflexivity.
  - apply set_mem_In, H, set_mem_In in E1. congruence.
  - apply set_mem_In, H, set_mem_In in E2. congruence.
Qed.

Lemma set_mem_set_of (h : string) (l : list string) :
  set_mem h (set_of l) = set_mem h l.
Proof. apply set_mem_ext. unfold set_of. apply nodup_In. Qed.

Lemma set_mem_minus (h : string) (s t : list string) :
  set_mem h (set_minus s t) = set_mem h s && negb (set_mem h t).
Proof.
  destruct (set_mem h s && negb (set_mem h t)) eqn:E.
  - apply andb_true_iff in E as [E1 E2]. apply set_mem_In. unfold set_minus.
    apply filter_In. split; [now apply set_mem_In | assumption].
  - destruct (set_mem h (set_minus s t)) eqn:E'; [|reflexivity].
    apply set_mem_In in E'. unfold set_minus in E'. apply filter_In in E' as [E1 E2].
    apply set_mem_In in E1. rewrite E1, E2 in E. discriminate.
Qed.

Lemma select_rows_map {A} (f : A -> bool) (l : list A) :
  select_rows (map f l) l = filter f l.
Proof.
  induction l as [|x l IH]; simpl; [reflexivity|]. now rewrite IH.
Qed.

Lemma getitem_list_mask (df : DataFrame) (f : list scalar -> bool) :
  rows (getitem_list df (map f (rows df))) = filter f (rows df)
  /\ (rows df <> [] ->
      columns (getitem_list df (map f (rows df))) = columns df).
Proof.
  destruct df as [cols rs]. destruct rs as [|r rs].
  - simpl. split; [reflexivity|]. intro H. now contradiction H.
  - split; [|reflexivity].
    exact (select_rows_map f (r :: rs)).
Qed.

(** Discharges [well_formed] and [NoDup] on a table that is written out. *)
Ltac table_facts :=
  unfold well_formed; simpl;
  repeat first [ apply Forall_nil
               | apply Forall_cons
               | apply NoDup_nil
               | apply NoDup_cons
               | split
               | reflexivity
               | exact I
               | (simpl; lia)
               | (simpl; intuition discriminate) ].

Lemma compare_by_hash_rows (df_a df_b : DataFrame) :
  exists added,
    compare_by_hash df_a df_b = Some (added, empty_frame)
    /\ rows added
       = filter (fun r => negb (fingerprint_in df_a df_b r)) (rows df_b)
    /\ (rows df_b <> [] -> columns added = columns df_b).
Proof.
  unfold compare_by_hash. eexists. split; [reflexivity|].
  assert (Ha : map row_hash (apply_rows df_a)
               = map (fingerprint df_a) (rows df_a))
    by (unfold apply_rows; now rewrite map_map).
  assert (Hb : map row_hash (apply_rows df_b)
               = map (fingerprint df_b) (rows df_b))
    by (unfold apply_rows; now rewrite map_map).
  rewrite Ha, Hb, map_map.
  destruct (getitem_list_mask df_b
              (fun r => set_mem (fingerprint df_b r)
                          (set_minus
                             (set_of (map (fingerprint df_b) (rows df_b)))
                             (set_of (map (fingerprint df_a) (rows df_a))))))
    as [R C].
  split; [|exact C]. rewrite R.
  apply filter_ext_in. intros r Hr.
  rewrite set_mem_minus, !set_mem_set_of.
  replace (set_mem (fingerprint df_b r) (map (fingerprint df_b) (rows df_b)))
    with true.
  - reflexivity.
  - symmetry. apply set_mem_In. now apply in_map.
Qed.

Lemma fingerprint_in_In (df_a df_b : DataFrame) (r : list scalar) :
  fingerprint_in df_a df_b r = true
  <-> In (fingerprint df_b r) (map (fingerprint df_a) (rows df_a)).
Proof. apply set_mem_In. Qed.

Lemma compare_dataframes_hash_mode (df_a df_b : DataFrame) :
  (find_key_column df_a = Some None
   \/ exists key, find_key_column df_a = Some (Some key)
                  /\ ~ In key (columns df_b)) ->
  compare_dataframes df_a df_b = compare_by_hash df_a df_b.
Proof.
  unfold compare_dataframes. intros [H | [key [H N]]]; rewrite H.
  - reflexivity.
  - destruct (in_columns key (columns df_b)) eqn:I.
    + apply in_columns_In in I. contradiction.
    + now rewrite andb_false_r.
Qed.



(* ------------------------------------------------------------------------- *)
(** ** Index operations: distinct labels, sorting, difference, intersection *)

Lemma unique_from_In (seen l : list scalar) (x : scalar) :
  In x (unique_from seen l) <-> In x l /\ ~ In x seen.
Proof.
  revert seen. induction l as [|y l IH]; intro seen; simpl.
  - tauto.
  - destruct (mem y seen) eqn:M.
    + apply mem_In in M. rewrite IH. split.
      * intros [H1 H2]. tauto.
      * intros [[H1|H1] H2]; [subst; contradiction | tauto].
    + apply mem_not_In in M. simpl. rewrite IH. simpl. split.
      * intros [H | [H1 H2]]; [subst; tauto | tauto].
      * intros [[H1|H1] H2]; [now left|].
        destruct (scalar_eqb y x) eqn:E.
        -- apply scalar_eqb_eq in E. now left.
        -- apply scalar_eqb_neq in E. right. split; [assumption|].
           intros [H|H]; contradiction.
Qed.

Lemma unique_from_NoDup (seen l : list scalar) : NoDup (unique_from seen l).
Proof.
  revert seen. induction l as [|y l IH]; intro seen; simpl.
  - constructor.
  - destruct (mem y seen); [apply IH|]. constructor; [|apply IH].
    rewrite unique_from_In. intros [_ H]. apply H. now left.
Qed.

Lemma unique_In (l : list scalar) (x : scalar) : In x (unique l) <-> In x l.
Proof. unfold unique. rewrite unique_from_In. simpl. tauto. Qed.

Lemma unique_NoDup (l : list scalar) : NoDup (unique l).
Proof. apply unique_from_NoDup. Qed.

Lemma unique_from_id (seen l : list scalar) :
  NoDup l -> (forall x, In x l -> ~ In x seen) -> unique_from seen l = l.
Proof.
  intro H. revert seen. induction H as [|y l Hy Hl IH]; intros seen Hs; simpl.
  - reflexivity.
  - replace (mem y seen) with false.
    + f_equal. apply IH. intros x Hx [E|Hin].
      * subst. contradiction.
      * apply (Hs x); [now right | assumption].
    + symmetry. apply mem_not_In. apply Hs. now left.
Qed.

Lemma unique_id (l : list scalar) : NoDup l -> unique l = l.
Proof. intro H. apply unique_from_id; [assumption|]. intros x _ []. Qed.

Lemma ltb_irrefl (s : string) : PyStr.ltb s s = false.
Proof.
  induction s as [|c s IH]; simpl; [reflexivity|].
  now rewrite N.ltb_irrefl.
Qed.

Lemma ltb_asym (s t : string) : PyStr.ltb s t = true -> PyStr.ltb t s = false.
Proof.
  revert t. induction s as [|a s IH]; intros [|b t]; simpl; try congruence.
  destruct (PyStr.code a <? PyStr.code b)%N eqn:E1,
           (PyStr.code b <? PyStr.code a)%N eqn:E2; try congruence.
  - apply N.ltb_lt in E1, E2. lia.
  - apply IH.
Qed.

Lemma code_inj (a b : ascii) : PyStr.code a = PyStr.code b -> a = b.
Proof.
  unfold PyStr.code. intro H.
  rewrite <- (ascii_N_embedding a), <- (ascii_N_embedding b). now rewrite H.
Qed.

Lemma ltb_total (s t : string) :
  PyStr.ltb s t = false -> PyStr.ltb t s = false -> s = t.
Proof.
  revert t. induction s as [|a s IH]; intros [|b t]; simpl; try congruence.
  destruct (PyStr.code a <? PyStr.code b)%N eqn:E1,
           (PyStr.code b <? PyStr.code a)%N eqn:E2; try congruence.
  intros H1 H2. apply N.ltb_ge in E1, E2.
  assert (a = b) by (apply code_inj; lia). subst. f_equal. now apply IH.
Qed.

Lemma ltb_trans (s t u : string) :
  PyStr.ltb s t = true -> PyStr.ltb t u = true -> PyStr.ltb s u = true.
Proof.
  revert t u. induction s as [|a s IH]; intros [|b t] [|c u]; simpl;
    try congruence.
  destruct (PyStr.code a <? PyStr.code b)%N eqn:E1,
           (PyStr.code b <? PyStr.code a)%N eqn:E2,
           (PyStr.code b <? PyStr.code c)%N eqn:E3,
           (PyStr.code c <? PyStr.code b)%N eqn:E4,
           (PyStr.code a <? PyStr.code c)%N eqn:E5,
           (PyStr.code c <? PyStr.code a)%N eqn:E6;
    try congruence;
    repeat match goal with
           | H : (_ <? _)%N = true |- _ => apply N.ltb_lt in H
           | H : (_ <? _)%N = false |- _ => apply N.ltb_ge in H
           end; try lia.
  apply IH.
Qed.

Lemma scalar_le_refl (x : scalar) : scalar_le x x.
Proof.
  destruct x; unfold scalar_le; simpl; [reflexivity | apply Z.leb_refl |].
  now rewrite ltb_irrefl.
Qed.

Lemma scalar_leb_total (x y : scalar) :
  scalar_leb x y = false -> scalar_leb y x = true.
Proof.
  destruct x, y; simpl; try congruence.
  - intro H. apply Z.leb_gt in H. apply Z.leb_le. lia.
  - rewrite negb_false_iff, negb_true_iff. apply ltb_asym.
Qed.

Lemma scalar_le_trans (x y z : scalar) :
  scalar_le x y -> scalar_le y z -> scalar_le x z.
Proof.
  unfold scalar_le. destruct x, y, z; simpl; try congruence.
  - intros H1 H2. apply Z.leb_le in H1, H2. apply Z.leb_le. lia.
  - rewrite !negb_true_iff. intros H1 H2.
    destruct (PyStr.ltb s1 s) eqn:E; [|reflexivity].
    destruct (PyStr.ltb s0 s1) eqn:E'.
    + rewrite (ltb_trans _ _ _ E' E) in H1. discriminate.
    + assert (s0 = s1) by now apply ltb_total. subst. congruence.
Qed.

Lemma scalar_le_antisym (x y : scalar) :
  scalar_le x y -> scalar_le y x -> x = y.
Proof.
  unfold scalar_le. destruct x, y; simpl; try congruence.
  - intros H1 H2. apply Z.leb_le in H1, H2. f_equal. lia.
  - rewrite !negb_true_iff. intros H1 H2. f_equal. now apply ltb_total.
Qed.

Lemma insert_sorted_perm (x : scalar) (l : list scalar) :
  Permutation (insert_sorted x l) (x :: l).
Proof.
  induction l as [|y l IH]; simpl; [reflexivity|].
  destruct (scalar_leb x y); [reflexivity|].
  rewrite IH. apply perm_swap.
Qed.

Lemma sort_mixed_perm (l : list scalar) : Permutation (sort_mixed l) l.
Proof.
  induction l as [|x l IH]; simpl; [reflexivity|].
  rewrite insert_sorted_perm. now constructor.
Qed.

Lemma insert_sorted_sorted (x : scalar) (l : list scalar) :
  StronglySorted scalar_le l -> StronglySorted scalar_le (insert_sorted x l).
Proof.
  induction 1 as [|y l Hl IH Hy]; simpl.
  - constructor; constructor.
  - destruct (scalar_leb x y) eqn:E.
    + constructor; [now constructor|]. constructor; [exact E|].
      eapply Forall_impl; [|exact Hy]. intros z Hz.
      now apply scalar_le_trans with y.
    + constructor; [exact IH|].
      apply (Permutation_Forall (Permutation_sym (insert_sorted_perm x l))).
      constructor; [|exact Hy]. now apply scalar_leb_total.
Qed.

Lemma sort_mixed_sorted (l : list scalar) :
  StronglySorted scalar_le (sort_mixed l).
Proof.
  induction l as [|x l IH]; simpl; [constructor|].
  now apply insert_sorted_sorted.
Qed.

Lemma insert_left_perm (x : scalar) (l : list scalar) :
  Permutation (insert_left x l) (x :: l).
Proof.
  induction l as [|y l IH]; simpl; [reflexivity|].
  destruct (object_ltb x y); [|reflexivity].
  rewrite IH. apply perm_swap.
Qed.

Lemma argsort_objects_perm (l : list scalar) :
  Permutation (argsort_objects l) l.
Proof.
  unfold argsort_objects. rewrite <- Permutation_rev.
  assert (G : forall acc,
             Permutation (fold_left (fun before x => insert_left x before)
                                    l acc)
                         (l ++ acc)).
  { induction l as [|x l IH]; intro acc; simpl; [reflexivity|].
    rewrite IH, insert_left_perm. apply Permutation_sym, Permutation_middle. }
  rewrite G. now rewrite app_nil_r.
Qed.

Lemma safe_sort_perm (d : dtype) (l : list scalar) :
  Permutation (safe_sort d l) l.
Proof.
  unfold safe_sort. destruct d; try apply sort_mixed_perm.
  destruct (_ && _); [apply argsort_objects_perm | apply sort_mixed_perm].
Qed.

Lemma has_str_In (l : list scalar) :
  existsb is_str l = true <-> exists s, In (Str s) l.
Proof.
  rewrite existsb_exists. split.
  - intros [[| |s] [H E]]; try discriminate. now exists s.
  - intros [s H]. now exists (Str s).
Qed.

Lemma has_nan_In (l : list scalar) : existsb isna l = true <-> In NaN l.
Proof.
  rewrite existsb_exists. split.
  - intros [[| |] [H E]]; try discriminate. assumption.
  - intro H. now exists NaN.
Qed.

(** Outside the one case that is left to numpy's sort of objects, the sorted
    labels ascend. *)
Lemma safe_sort_sorted (d : dtype) (l : list scalar) :
  (d = object -> In NaN l -> exists s, In (Str s) l) ->
  StronglySorted scalar_le (safe_sort d l).
Proof.
  intro H. unfold safe_sort. destruct d; try apply sort_mixed_sorted.
  destruct (existsb is_int l && existsb isna l && negb (existsb is_str l))
    eqn:T; [|apply sort_mixed_sorted].
  exfalso. apply andb_true_iff in T as [T T3].
  apply andb_true_iff in T as [_ T2]. apply has_nan_In in T2.
  apply negb_true_iff in T3. apply (H eq_refl) in T2.
  apply has_str_In in T2. congruence.
Qed.

Lemma difference_perm (self other : list scalar) :
  index_equals self other = false -> other <> [] ->
  Permutation (difference self other)
              (unique (filter (fun k => negb (mem k other)) self)).
Proof.
  intros E N. unfold difference. rewrite E.
  destruct other; [now contradiction N|]. apply safe_sort_perm.
Qed.

Lemma difference_In (self other : list scalar) (k : scalar) :
  In k (difference self other) <-> In k self /\ ~ In k other.
Proof.
  unfold difference, index_equals.
  destruct (list_eqb scalar_eqb self other) eqn:E.
  - apply cells_eqb_eq in E. subst. simpl. tauto.
  - destruct other as [|o other].
    + rewrite unique_In. simpl. tauto.
    + assert (P : In k (safe_sort (dtype_of self)
                          (unique (filter (fun k0 => negb (mem k0 (o :: other)))
                                          self)))
                  <-> In k (unique (filter (fun k0 => negb (mem k0 (o :: other)))
                                           self))).
      { split; apply Permutation_in;
          [apply safe_sort_perm | apply Permutation_sym, safe_sort_perm]. }
      rewrite P, unique_In, filter_In, negb_true_iff, mem_not_In. tauto.
Qed.

Lemma difference_NoDup (self other : list scalar) :
  NoDup (difference self other).
Proof.
  unfold difference. destruct (index_equals self other); [constructor|].
  destruct other.
  - apply unique_NoDup.
  - apply (Permutation_NoDup (Permutation_sym (safe_sort_perm _ _))).
    apply unique_NoDup.
Qed.

(** The labels that only [self] has ascend when [other] has a label, unless
    [self] holds text and what is left is the missing label among integers
    only. *)
Lemma difference_sorted (self other : list scalar) :
  other <> [] ->
  (dtype_of self = object -> In NaN (difference self other) ->
   exists s, In (Str s) (difference self other)) ->
  StronglySorted scalar_le (difference self other).
Proof.
  intros H C. unfold difference in *.
  destruct (index_equals self other); [constructor|].
  destruct other as [|o other]; [now contradiction H|].
  apply safe_sort_sorted. intros D Hn.
  set (l := unique (filter (fun k => negb (mem k (o :: other))) self)) in *.
  pose proof (safe_sort_perm (dtype_of self) l) as P.
  destruct (C D) as [s Hs].
  - now apply (Permutation_in _ (Permutation_sym P)).
  - exists s. now apply (Permutation_in _ P).
Qed.

Lemma difference_nil (self : list scalar) : difference self [] = unique self.
Proof.
  unfold difference, index_equals. destruct self; reflexivity.
Qed.

Lemma intersection_filter (self other : list scalar) :
  intersection self other = filter (fun k => mem k other) (unique self).
Proof.
  unfold intersection, index_equals.
  destruct (list_eqb scalar_eqb self other) eqn:E.
  - apply cells_eqb_eq in E. subst. symmetry. apply forallb_filter_id.
    apply forallb_forall. intros x Hx. apply mem_In. now apply unique_In.
  - destruct self as [|s self]; [reflexivity|].
    destruct other as [|o other]; [|reflexivity].
    symmetry. generalize (unique (s :: self)). intro l.
    induction l; simpl; auto.
Qed.

Lemma intersection_In (self other : list scalar) (k : scalar) :
  In k (intersection self other) <-> In k self /\ In k other.
Proof.
  rewrite intersection_filter, filter_In, unique_In, mem_In. tauto.
Qed.

(* ------------------------------------------------------------------------- *)
(** ** The key branch of compare_dataframes *)

Lemma position_removed (c : string) (cols : list string) (p : nat) :
  NoDup cols -> position c cols = Some p -> ~ In c (remove_nth p cols).
Proof.
  intro H. revert p. induction H as [|x cols Hx Hc IH]; intros p; simpl.
  - discriminate.
  - destruct (String.eqb x c) eqn:E.
    + intro Hp. inversion Hp; subst. apply String.eqb_eq in E. now subst.
    + destruct (position c cols) as [q|] eqn:Q; [|discriminate].
      intro Hp. inversion Hp; subst. simpl. intros [H|H].
      * subst. rewrite String.eqb_refl in E. discriminate.
      * now apply (IH q).
Qed.

Lemma first_unique_In (df : DataFrame) (cols : list string) (key : string) :
  first_unique df cols = Some (Some key) -> In key cols.
Proof.
  induction cols as [|c cols IH]; simpl; [discriminate|].
  destruct (column_is_unique df c) as [[|]|]; [| |discriminate].
  - intro H. inversion H. now left.
  - intro H. right. now apply IH.
Qed.

Lemma find_key_column_In (df : DataFrame) (key : string) :
  find_key_column df = Some (Some key) -> In key (columns df).
Proof.
  unfold find_key_column.
  destruct (find in_candidates (columns df)) eqn:F.
  - intro H. inversion H; subst. now apply find_some in F.
  - apply first_unique_In.
Qed.

Lemma key_position_eq (key : string) (df : DataFrame) :
  In key (columns df) ->
  position key (columns df) = Some (key_position key df).
Proof.
  intro H. apply position_Some_In in H as [p Hp].
  unfold key_position. now rewrite Hp.
Qed.

Lemma rows_at_set_index (p : nat) (k : scalar) (rs : list (list scalar)) :
  rows_at k (map (key_of p) rs) (map (remove_nth p) rs)
  = map (remove_nth p) (filter (has_key p k) rs).
Proof.
  induction rs as [|r rs IH]; simpl; [reflexivity|].
  unfold has_key at 1. destruct (scalar_eqb (key_of p r) k); simpl; now rewrite IH.
Qed.

Lemma has_key_nonempty (p : nat) (k : scalar) (rs : list (list scalar)) :
  In k (map (key_of p) rs) -> filter (has_key p k) rs <> [].
Proof.
  intros H E. apply in_map_iff in H as [r [Hr Hin]].
  assert (In r (filter (has_key p k) rs)).
  { apply filter_In. split; [assumption|]. unfold has_key. rewrite Hr.
    apply scalar_eqb_refl. }
  rewrite E in H. contradiction.
Qed.

Lemma other_cells_nonempty (p : nat) (df : DataFrame) (k : scalar) :
  In k (keys_of p df) -> other_cells p df k <> [].
Proof.
  intros H E. apply (has_key_nonempty p k (rows df) H).
  unfold other_cells in E. now apply map_eq_nil in E.
Qed.

Lemma set_index_eq (key : string) (df : DataFrame) :
  NoDup (columns df) -> In key (columns df) ->
  set_index key df
  = Some (mkIndexed key (keys_of (key_position key df) df)
                    (remove_nth (key_position key df) (columns df))
                    (map (remove_nth (key_position key df)) (rows df))).
Proof.
  intros Nd H. unfold set_index.
  now rewrite (not_repeated key _ Nd), (key_position_eq key df H).
Qed.

Lemma loc_set_index (key : string) (p : nat) (df : DataFrame) (k : scalar) :
  In k (keys_of p df) ->
  loc (mkIndexed key (keys_of p df) (remove_nth p (columns df))
                 (map (remove_nth p) (rows df))) k
  = Some (selected p df k).
Proof.
  intro H. unfold loc, selected, other_dtypes.
  cbn [index irows icolumns]. unfold keys_of.
  rewrite rows_at_set_index. fold (other_cells p df k).
  pose proof (other_cells_nonempty p df k H) as N.
  destruct (other_cells p df k) as [|r [|r' rs]]; [now contradiction N| |];
    reflexivity.
Qed.

Lemma cons_key_first (p : nat) (k : scalar) (rs : list (list scalar)) :
  map (cons k) (map (remove_nth p) (filter (has_key p k) rs))
  = map (key_first p) (filter (has_key p k) rs).
Proof.
  rewrite map_map. apply map_ext_in. intros r Hr.
  apply filter_In in Hr as [_ Hr]. unfold has_key in Hr.
  apply scalar_eqb_eq in Hr. unfold key_first. now rewrite Hr.
Qed.

Lemma loc_rows_set_index (key : string) (p : nat) (df : DataFrame)
      (keys : list scalar) :
  (forall k, In k keys -> In k (keys_of p df)) ->
  exists sel,
    loc_rows (mkIndexed key (keys_of p df) (remove_nth p (columns df))
                        (map (remove_nth p) (rows df))) keys = Some sel
    /\ map (fun kr => fst kr :: snd kr) sel = flat_map (emitted_rows p df) keys.
Proof.
  induction keys as [|k keys IH]; intro H.
  - exists []. split; reflexivity.
  - destruct IH as [rest [E1 E2]].
    { intros k' Hk'. apply H. now right. }
    assert (Hk : In k (keys_of p df)) by (apply H; now left).
    exists (map (fun r => (k, r)) (other_cells p df k) ++ rest).
    split.
    + simpl. cbn [index irows] in *. unfold keys_of at 1.
      rewrite rows_at_set_index. fold (other_cells p df k).
      pose proof (other_cells_nonempty p df k Hk) as N.
      destruct (other_cells p df k) as [|r rs] eqn:O; [now contradiction N|].
      rewrite E1. reflexivity.
    + rewrite map_app, map_map, E2. simpl. f_equal.
      unfold other_cells, emitted_rows. apply cons_key_first.
Qed.

Lemma combine_fst_snd {A B} (l : list (A * B)) :
  combine (map fst l) (map snd l) = l.
Proof.
  induction l as [|[x y] l IH]; simpl; [reflexivity|]. now rewrite IH.
Qed.

Lemma rows_of_keys_set_index (key : string) (p : nat) (df : DataFrame)
      (keys : list scalar) :
  ~ In key (remove_nth p (columns df)) ->
  (forall k, In k keys -> In k (keys_of p df)) ->
  rows_of_keys (mkIndexed key (keys_of p df) (remove_nth p (columns df))
                          (map (remove_nth p) (rows df))) keys
  = Some (emitted p key df keys).
Proof.
  intros N H. destruct keys as [|k keys]; [reflexivity|].
  destruct (loc_rows_set_index key p df (k :: keys) H) as [sel [E1 E2]].
  unfold rows_of_keys, loc_list. rewrite E1. unfold reset_index.
  cbn [index_name icolumns index irows].
  replace (in_columns key (remove_nth p (columns df))) with false.
  - rewrite combine_fst_snd, E2. reflexivity.
  - symmetry. destruct (in_columns key (remove_nth p (columns df))) eqn:I;
      [|reflexivity]. apply in_columns_In in I. contradiction.
Qed.

(** The selection by an index of keys is the selection by the list of the
    keys, unless the index is taken for a mask. *)
Lemma rows_of_index_eq (fr : Indexed) (d : dtype) (keys : list scalar) :
  rows_of_index fr d keys
  = if masks d keys then None else rows_of_keys fr keys.
Proof.
  destruct keys as [|k keys]; [reflexivity|].
  unfold rows_of_index, rows_of_keys, loc_index, masks.
  now destruct (dtype_eqb d object && forallb isna (k :: keys)).
Qed.

Lemma modified_loop_set_index (key : string) (pa pb : nat)
      (df_a df_b : DataFrame) (common acc : list scalar) :
  (forall k, In k common -> In k (keys_of pa df_a) /\ In k (keys_of pb df_b)) ->
  modified_loop
    (mkIndexed key (keys_of pa df_a) (remove_nth pa (columns df_a))
               (map (remove_nth pa) (rows df_a)))
    (mkIndexed key (keys_of pb df_b) (remove_nth pb (columns df_b))
               (map (remove_nth pb) (rows df_b)))
    common acc
  = Some (acc ++ filter (differsb pa pb df_a df_b) common).
Proof.
  revert acc. induction common as [|k common IH]; intros acc H.
  - simpl. now rewrite app_nil_r.
  - destruct (H k (or_introl eq_refl)) as [Ha Hb].
    cbn [modified_loop]. rewrite (loc_set_index key pa df_a k Ha),
      (loc_set_index key pb df_b k Hb).
    fold (differsb pa pb df_a df_b k). rewrite IH.
    + cbn [filter]. destruct (differsb pa pb df_a df_b k).
      * now rewrite <- app_assoc.
      * reflexivity.
    + intros k' Hk'. apply H. now right.
Qed.

Lemma dtype_eqb_eq (d e : dtype) : dtype_eqb d e = true <-> d = e.
Proof. destruct d, e; simpl; split; congruence. Qed.

Lemma dtypes_eqb_eq (l1 l2 : list dtype) :
  list_eqb dtype_eqb l1 l2 = true <-> l1 = l2.
Proof. apply list_eqb_eq. apply dtype_eqb_eq. Qed.

(** The index of new keys is taken for a mask exactly when it is the missing
    label alone, in an index that holds text. *)
Lemma masks_iff (d : dtype) (keys : list scalar) :
  NoDup keys -> (masks d keys = true <-> d = object /\ keys = [NaN]).
Proof.
  intro Nd. unfold masks. destruct keys as [|k keys].
  - split; [discriminate | intros [_ H]; discriminate].
  - rewrite andb_true_iff, dtype_eqb_eq. split.
    + intros [D F]. split; [assumption|].
      cbn [forallb] in F. apply andb_true_iff in F as [F1 F2].
      destruct k; try discriminate.
      destruct keys as [|k' keys]; [reflexivity|]. exfalso.
      cbn [forallb] in F2. apply andb_true_iff in F2 as [F2 _].
      destruct k'; try discriminate.
      inversion Nd as [|? ? N _]. apply N. now left.
    + intros [D E]. inversion E. subst. now split.
Qed.

(** What the key branch does, for a key that is a column of both tables. *)
Lemma compare_by_key_eq (key : string) (df_a df_b : DataFrame) :
  NoDup (columns df_a) -> NoDup (columns df_b) ->
  In key (columns df_a) -> In key (columns df_b) ->
  let pa := key_position key df_a in
  let pb := key_position key df_b in
  compare_by_key key df_a df_b
  = if masks (dtype_of (keys_of pb df_b))
             (difference (keys_of pb df_b) (keys_of pa df_a))
    then None
    else Some (emitted pb key df_b
                 (difference (keys_of pb df_b) (keys_of pa df_a)),
               emitted pb key df_b
                 (filter (differsb pa pb df_a df_b)
                         (intersection (keys_of pa df_a) (keys_of pb df_b)))).
Proof.
  intros Na Nb Ha Hb pa pb. unfold compare_by_key.
  rewrite (set_index_eq key df_a Na Ha), (set_index_eq key df_b Nb Hb).
  fold pa pb. cbn [index].
  assert (N : ~ In key (remove_nth pb (columns df_b))).
  { apply position_removed; [assumption|]. now apply key_position_eq. }
  rewrite rows_of_index_eq.
  destruct (masks _ _); [reflexivity|].
  rewrite rows_of_keys_set_index; [|assumption|].
  2:{ intros k Hk. now apply difference_In in Hk as [Hk _]. }
  rewrite modified_loop_set_index.
  2:{ intros k Hk. now apply intersection_In in Hk. }
  cbn [app]. rewrite rows_of_keys_set_index; [reflexivity|assumption|].
  intros k Hk. apply filter_In in Hk as [Hk _].
  now apply intersection_In in Hk as [_ Hk].
Qed.

Lemma compare_dataframes_key_mode (key : string) (df_a df_b : DataFrame) :
  find_key_column df_a = Some (Some key) -> key <> EmptyString ->
  In key (columns df_b) ->
  compare_dataframes df_a df_b = compare_by_key key df_a df_b.
Proof.
  intros Hk Hne Hb. unfold compare_dataframes. rewrite Hk.
  apply in_columns_In in Hb. rewrite Hb.
  destruct key; [now contradiction Hne|]. reflexivity.
Qed.

Lemma series_dtype_single (d : dtype) : series_dtype [d] = d.
Proof. now destruct d. Qed.

(** The comparison of two single rows. *)
Lemma differsb_rows (pa pb : nat) (df_a df_b : DataFrame) (k : scalar)
      (ra rb : list scalar) :
  other_cells pa df_a k = [remove_nth pa ra] ->
  other_cells pb df_b k = [remove_nth pb rb] ->
  (differsb pa pb df_a df_b k = true <-> rows_differ pa pb df_a df_b ra rb).
Proof.
  intros Ea Eb. unfold differsb, selected, rows_differ, filled_row_dtype.
  rewrite Ea, Eb. cbn [selection_of fillna equals].
  rewrite !series_dtype_single.
  rewrite negb_true_iff, !andb_false_iff. split.
  - intros [[H|H]|H].
    + left. intro E. apply labels_eqb_eq in E. congruence.
    + right. left. intro E. apply dtype_eqb_eq in E. congruence.
    + right. right. intro E. apply cells_eqb_eq in E. congruence.
  - destruct (list_eqb String.eqb _ _) eqn:E1; [|now left; left].
    destruct (dtype_eqb _ _) eqn:E2; [|now left; right].
    destruct (list_eqb scalar_eqb _ _) eqn:E3; [|now right].
    apply labels_eqb_eq in E1. apply dtype_eqb_eq in E2.
    apply cells_eqb_eq in E3. intros [H|[H|H]]; contradiction.
Qed.

(* ------------------------------------------------------------------------- *)
(** ** The rows the key branch emits *)

Lemma filter_disjoint_perm {A} (P Q : A -> bool) (l : list A) :
  (forall x, P x = true -> Q x = false) ->
  Permutation (filter P l ++ filter Q l) (filter (fun x => P x || Q x) l).
Proof.
  intro D. induction l as [|x l IH]; simpl; [constructor|].
  destruct (P x) eqn:Px.
  - rewrite (D x Px). simpl. now constructor.
  - destruct (Q x); simpl; [|exact IH].
    apply Permutation_sym, Permutation_cons_app, Permutation_sym, IH.
Qed.

Lemma flat_map_has_key_perm (p : nat) (rs : list (list scalar))
      (ks : list scalar) :
  NoDup ks ->
  Permutation (flat_map (fun k => filter (has_key p k) rs) ks)
              (filter (fun r => mem (key_of p r) ks) rs).
Proof.
  induction 1 as [|k ks Hk Hks IH]; simpl.
  - induction rs; simpl; auto.
  - rewrite IH. apply filter_disjoint_perm.
    intros r Hr. unfold has_key in Hr. apply scalar_eqb_eq in Hr.
    apply mem_not_In. now rewrite Hr.
Qed.

Lemma map_flat_map {A B C} (f : B -> C) (g : A -> list B) (l : list A) :
  map f (flat_map g l) = flat_map (fun x => map f (g x)) l.
Proof.
  induction l as [|x l IH]; simpl; [reflexivity|]. now rewrite map_app, IH.
Qed.

Lemma emitted_rows_perm (p : nat) (df : DataFrame) (ks : list scalar) :
  NoDup ks ->
  Permutation (flat_map (emitted_rows p df) ks)
              (map (key_first p)
                   (filter (fun r => mem (key_of p r) ks) (rows df))).
Proof.
  intro H. unfold emitted_rows.
  rewrite <- (map_flat_map (key_first p)
                           (fun k => filter (has_key p k) (rows df))).
  apply Permutation_map. now apply flat_map_has_key_perm.
Qed.

Lemma emitted_rows_key (p : nat) (df : DataFrame) (k : scalar) :
  Forall (fun r => key_of 0 r = k) (emitted_rows p df k).
Proof.
  unfold emitted_rows. apply Forall_map. apply Forall_forall. intros r Hr.
  apply filter_In in Hr as [_ Hr]. now apply scalar_eqb_eq in Hr.
Qed.

Lemma emitted_keys_In (p : nat) (df : DataFrame) (ks : list scalar) (k : scalar) :
  In k (map (key_of 0) (flat_map (emitted_rows p df) ks))
  <-> In k ks /\ In k (keys_of p df).
Proof.
  rewrite in_map_iff. split.
  - intros [r [Hr Hin]]. apply in_flat_map in Hin as [k' [Hk' Hin]].
    pose proof (emitted_rows_key p df k') as F. rewrite Forall_forall in F.
    rewrite (F r Hin) in Hr. subst k'. split; [assumption|].
    unfold emitted_rows in Hin. apply in_map_iff in Hin as [r0 [_ Hr0]].
    apply filter_In in Hr0 as [Hr0 Hk]. apply scalar_eqb_eq in Hk.
    unfold keys_of. apply in_map_iff. now exists r0.
  - intros [Hk Hin]. unfold keys_of in Hin. apply in_map_iff in Hin as [r0 [E Hr0]].
    exists (key_first p r0). split.
    + unfold key_first, key_of. simpl. exact E.
    + apply in_flat_map. exists k. split; [assumption|].
      unfold emitted_rows. apply in_map. apply filter_In. split; [assumption|].
      unfold has_key. apply scalar_eqb_eq. exact E.
Qed.

Lemma sorted_app_const (k : scalar) (l1 l2 : list scalar) :
  Forall (fun x => x = k) l1 ->
  StronglySorted scalar_le l2 -> Forall (scalar_le k) l2 ->
  StronglySorted scalar_le (l1 ++ l2).
Proof.
  intros H1 H2 H3. induction H1 as [|x l1 Hx Hl1 IH]; simpl; [assumption|].
  subst x. constructor; [assumption|]. apply Forall_app. split; [|assumption].
  eapply Forall_impl; [|exact Hl1]. intros x Hx. cbv beta in Hx. subst.
  apply scalar_le_refl.
Qed.

Lemma emitted_keys_sorted (p : nat) (df : DataFrame) (ks : list scalar) :
  StronglySorted scalar_le ks ->
  StronglySorted scalar_le (map (key_of 0) (flat_map (emitted_rows p df) ks)).
Proof.
  induction 1 as [|k ks Hks IH Hk]; simpl; [constructor|].
  rewrite map_app. apply (sorted_app_const k).
  - apply Forall_map. exact (emitted_rows_key p df k).
  - exact IH.
  - apply Forall_forall. intros x Hx. apply emitted_keys_In in Hx as [Hx _].
    rewrite Forall_forall in Hk. now apply Hk.
Qed.

Lemma filter_has_key_all (p : nat) (rs : list (list scalar)) :
  NoDup (map (key_of p) rs) ->
  flat_map (fun k => filter (has_key p k) rs) (map (key_of p) rs) = rs.
Proof.
  induction rs as [|r rs IH]; [reflexivity|].
  intro H. cbn [map] in H. inversion H as [|? ? Hr Hrs]; subst.
  cbn [map flat_map filter]. unfold has_key at 1. rewrite scalar_eqb_refl.
  assert (E1 : filter (has_key p (key_of p r)) rs = []).
  { clear -Hr. induction rs as [|r' rs IH]; simpl; [reflexivity|].
    unfold has_key at 1. destruct (scalar_eqb (key_of p r') (key_of p r)) eqn:E.
    - apply scalar_eqb_eq in E. exfalso. apply Hr. simpl. now left.
    - apply IH. intro H. apply Hr. now right. }
  rewrite E1. cbn [app]. f_equal.
  rewrite <- (IH Hrs) at 2.
  clear -Hr. revert Hr. generalize (map (key_of p) rs) as ks.
  induction ks as [|k ks IHk]; intro Hr; [reflexivity|]. cbn [flat_map filter].
  unfold has_key at 1. destruct (scalar_eqb (key_of p r) k) eqn:E.
  - apply scalar_eqb_eq in E. exfalso. apply Hr. now left.
  - f_equal. apply IHk. intro H. apply Hr. now right.
Qed.

Lemma filter_has_key_single (p : nat) (rs : list (list scalar)) (r : list scalar) :
  NoDup (map (key_of p) rs) -> In r rs ->
  filter (has_key p (key_of p r)) rs = [r].
Proof.
  induction rs as [|x rs IH]; [intros _ []|].
  intros H Hin. cbn [map] in H. inversion H as [|? ? Hx Hrs]; subst.
  cbn [filter]. unfold has_key at 1.
  destruct Hin as [E|Hin].
  - subst x. rewrite scalar_eqb_refl. f_equal.
    clear -Hx. induction rs as [|r' rs IH]; simpl; [reflexivity|].
    unfold has_key at 1. destruct (scalar_eqb (key_of p r') (key_of p r)) eqn:E.
    + apply scalar_eqb_eq in E. exfalso. apply Hx. simpl. now left.
    + apply IH. intro H. apply Hx. now right.
  - destruct (scalar_eqb (key_of p x) (key_of p r)) eqn:E.
    + apply scalar_eqb_eq in E. exfalso. apply Hx. rewrite E. now apply in_map.
    + now apply IH.
Qed.

Lemma remove_nth_In {A} (p : nat) (l : list A) (x : A) :
  In x (remove_nth p l) -> In x l.
Proof.
  revert p. induction l as [|y l IH]; intros [|p]; simpl; auto.
  intros [H|H]; [now left | right; now apply (IH p)].
Qed.

Lemma position_kept (c key : string) (cols : list string) (p : nat) :
  position key cols = Some p -> In c cols -> c <> key ->
  In c (remove_nth p cols).
Proof.
  revert p. induction cols as [|x cols IH]; intros p; simpl; [discriminate|].
  destruct (String.eqb x key) eqn:E.
  - intro Hp. inversion Hp; subst. apply String.eqb_eq in E. subst.
    intros [H|H] N; [congruence | assumption].
  - destruct (position key cols) as [q|]; [|discriminate].
    intro Hp. inversion Hp; subst. simpl. intros [H|H] N; [now left|].
    right. now apply (IH q).
Qed.

Lemma absent_filter_eq (pa pb : nat) (df_a df_b : DataFrame) :
  filter (fun r => mem (key_of pb r)
                       (difference (keys_of pb df_b) (keys_of pa df_a)))
         (rows df_b)
  = filter (fun r => negb (mem (key_of pb r) (keys_of pa df_a))) (rows df_b).
Proof.
  apply filter_ext_in. intros r Hr.
  destruct (mem (key_of pb r) (keys_of pa df_a)) eqn:M; simpl.
  - apply mem_not_In. rewrite difference_In. apply mem_In in M. tauto.
  - apply mem_In. rewrite difference_In. apply mem_not_In in M.
    split; [|assumption]. unfold keys_of. now apply in_map.
Qed.

Lemma emitted_rows_eq (p : nat) (key : string) (df : DataFrame)
      (ks : list scalar) :
  rows (emitted p key df ks) = flat_map (emitted_rows p df) ks.
Proof. destruct ks; reflexivity. Qed.

Lemma emitted_columns_eq (p : nat) (key : string) (df : DataFrame)
      (ks : list scalar) :
  rows (emitted p key df ks) <> [] ->
  columns (emitted p key df ks) = key :: remove_nth p (columns df).
Proof. destruct ks; [intro H; now contradiction H | reflexivity]. Qed.

Lemma keys_of_nil (p : nat) (df : DataFrame) :
  keys_of p df = [] <-> rows df = [].
Proof.
  unfold keys_of. split; intro H; [now apply map_eq_nil in H | now rewrite H].
Qed.

(** When the key branch raises, and what it returns when it does not. *)
Lemma compare_dataframes_by_key (df_a df_b : DataFrame) (key : string) :
  NoDup (columns df_a) -> NoDup (columns df_b) ->
  find_key_column df_a = Some (Some key) -> key <> EmptyString ->
  In key (columns df_b) ->
  let pa := key_position key df_a in
  let pb := key_position key df_b in
  (compare_dataframes df_a df_b = None
   <-> only_missing_key_is_new pa pb df_a df_b)
  /\ forall added modified,
      compare_dataframes df_a df_b = Some (added, modified) ->
      added = emitted pb key df_b
                (difference (keys_of pb df_b) (keys_of pa df_a))
      /\ modified = emitted pb key df_b
                      (filter (differsb pa pb df_a df_b)
                              (intersection (keys_of pa df_a)
                                            (keys_of pb df_b))).
Proof.
  intros Na Nb Hk Hne Hb pa pb.
  pose proof (find_key_column_In df_a key Hk) as Ha.
  rewrite (compare_dataframes_key_mode key df_a df_b Hk Hne Hb).
  rewrite (compare_by_key_eq key df_a df_b Na Nb Ha Hb). fold pa pb.
  pose proof (masks_iff (dtype_of (keys_of pb df_b)) _
                (difference_NoDup (keys_of pb df_b) (keys_of pa df_a))) as M.
  unfold only_missing_key_is_new.
  destruct (masks _ _).
  - split; [split; [intros _; now apply M | reflexivity]|]. discriminate.
  - split.
    + split; [discriminate|]. intro H. apply M in H. discriminate.
    + intros added modified H. inversion H. now split.
Qed.

(** C1, as amended.  With a key column detected in A that is also a column of
    B, whenever the diff returns, the added rows are the rows of B whose key
    is no key of A, with the key cell first and the other cells of B after it
    in their order.  They are listed key by key over the distinct absent
    keys, rows of one key in the order of B.  The keys stand in the order of
    their first occurrence in B when A has no row; when A has a row they
    ascend (integers, then strings, then the missing key), unless the key
    column of B holds text and the absent keys include the missing key and no
    text: then numpy leaves them in an order of its own, which the theorem
    gives for up to 17 keys.  The theorem also records when the diff does not
    return: exactly when the key column of B holds text and the missing key
    alone is absent from A. *)
Theorem added_rows_by_key :
  forall (df_a df_b : DataFrame) (key : string),
    NoDup (columns df_a) -> NoDup (columns df_b) ->
    well_formed df_a -> well_formed df_b ->
    find_key_column df_a = Some (Some key) ->
    key <> EmptyString ->
    In key (columns df_b) ->
    let pa := key_position key df_a in
    let pb := key_position key df_b in
    let ks := difference (keys_of pb df_b) (keys_of pa df_a) in
    NoDup ks
    /\ (forall k, In k ks <->
                  In k (keys_of pb df_b) /\ ~ In k (keys_of pa df_a))
    /\ (rows df_a = [] -> ks = unique (keys_of pb df_b))
    /\ (rows df_a <> [] ->
        (dtype_of (keys_of pb df_b) = object -> In NaN ks ->
         exists s, In (Str s) ks) ->
        StronglySorted scalar_le ks)
    /\ (compare_dataframes df_a df_b = None
        <-> only_missing_key_is_new pa pb df_a df_b)
    /\ forall added modified,
        compare_dataframes df_a df_b = Some (added, modified) ->
        (exists order,
            Permutation order ks
            /\ rows added = flat_map (emitted_rows pb df_b) order)
        /\ Permutation (rows added)
                       (absent_rows_in_table_order pa pb df_a df_b)
        /\ (rows added <> [] ->
            columns added = key :: remove_nth pb (columns df_b))
        /\ (order_modelled (dtype_of (keys_of pb df_b)) ks ->
            rows added = flat_map (emitted_rows pb df_b) ks
            /\ (StronglySorted scalar_le ks ->
                StronglySorted scalar_le (map (key_of 0) (rows added)))).
Proof.
  intros df_a df_b key Na Nb _ _ Hk Hne Hb pa pb ks.
  destruct (compare_dataframes_by_key df_a df_b key Na Nb Hk Hne Hb)
    as [Raise Ret]. fold pa pb in Raise, Ret.
  split; [apply difference_NoDup|].
  split; [intro k; apply difference_In|].
  split; [|split; [|split; [exact Raise|]]].
  - intro E. unfold ks. rewrite (proj2 (keys_of_nil pa df_a) E).
    apply difference_nil.
  - intros N C. apply difference_sorted; [|exact C].
    intro E. apply keys_of_nil in E. contradiction.
  - intros added modified H. destruct (Ret added modified H) as [Ea _].
    fold ks in Ea. subst added. rewrite emitted_rows_eq.
    split; [now exists ks|]. split; [|split].
    + unfold absent_rows_in_table_order. rewrite <- absent_filter_eq.
      apply emitted_rows_perm, difference_NoDup.
    + intro H'. apply emitted_columns_eq. now rewrite emitted_rows_eq.
    + intros _. split; [reflexivity | apply emitted_keys_sorted].
Qed.

(** The end-to-end scenario: the one added row is Maria's. *)
Lemma added_rows_by_key_witness :
  exists added modified,
    compare_dataframes scenario_A scenario_B = Some (added, modified)
    /\ rows added = [[Int 3; Str "Maria"]]
    /\ columns added = ["id"; "name"].
Proof.
  destruct (added_rows_by_key scenario_A scenario_B "id")
    as [_ [_ [_ [_ [_ H]]]]].
  - table_facts.
  - table_facts.
  - table_facts.
  - table_facts.
  - vm_compute. reflexivity.
  - discriminate.
  - simpl. now left.
  - destruct (compare_dataframes scenario_A scenario_B)
      as [[added modified]|] eqn:E; [|vm_compute in E; discriminate].
    destruct (H added modified eq_refl) as [_ [_ [C [R _]]]].
    { intros D. vm_compute in D. discriminate. }
    exists added, modified. split; [reflexivity|].
    split; [rewrite R; vm_compute; reflexivity|].
    rewrite C; [reflexivity|]. rewrite R. vm_compute. discriminate.
Defined.

(** C1, counterexample.  B lists two new rows with the larger key first; the
    added rows come out with the smaller key first, not in the order of B. *)
Lemma added_rows_not_in_table_order :
  find_key_column unordered_A = Some (Some "id")
  /\ In "id" (columns unordered_B)
  /\ exists added modified,
      compare_dataframes unordered_A unordered_B = Some (added, modified)
      /\ rows added = [[Int 2; Str "Luis"]; [Int 3; Str "Maria"]]
      /\ absent_rows_in_table_order 0 0 unordered_A unordered_B
         = [[Int 3; Str "Maria"]; [Int 2; Str "Luis"]]
      /\ rows added <> absent_rows_in_table_order 0 0 unordered_A unordered_B.
Proof.
  split; [reflexivity|]. split; [simpl; now left|].
  eexists _, _. split; [vm_compute; reflexivity|].
  repeat split. vm_compute. discriminate.
Qed.

(** Two behaviours of pandas that the statement above makes room for.  With
    text in the key column of B, the absent keys 5, missing and 3 are left in
    that order; and when the missing key is the only absent one, the
    selection of the added rows raises. *)
Lemma added_keys_of_a_text_column :
  compare_dataframes text_keys_A unsorted_B
  = Some (mkFrame ["id"; "name"]
                  [[Int 5; Str "Eva"]; [NaN; Str "Luis"]; [Int 3; Str "Ana"]],
          empty_frame)
  /\ compare_dataframes text_keys_A blank_key_B = None.
Proof. split; vm_compute; reflexivity. Qed.

Lemma other_cells_single (p : nat) (df : DataFrame) (r : list scalar) :
  NoDup (keys_of p df) -> In r (rows df) ->
  other_cells p df (key_of p r) = [remove_nth p r].
Proof.
  intros N H. unfold other_cells. now rewrite filter_has_key_single.
Qed.

Lemma emitted_rows_single (p : nat) (df : DataFrame) (r : list scalar) :
  NoDup (keys_of p df) -> In r (rows df) ->
  emitted_rows p df (key_of p r) = [key_first p r].
Proof.
  intros N H. unfold emitted_rows. now rewrite filter_has_key_single.
Qed.

Lemma emitted_keys_unique (p : nat) (df : DataFrame) (ks : list scalar) :
  NoDup (keys_of p df) -> (forall k, In k ks -> In k (keys_of p df)) ->
  map (key_of 0) (flat_map (emitted_rows p df) ks) = ks.
Proof.
  intros N. induction ks as [|k ks IH]; intro H; [reflexivity|].
  cbn [flat_map]. rewrite map_app, IH by (intros k' Hk'; apply H; now right).
  destruct (proj1 (in_map_iff _ _ _) (H k (or_introl eq_refl))) as [r [E Hr]].
  rewrite <- E, (emitted_rows_single p df r N Hr). reflexivity.
Qed.

(** C2, at two inputs.  A and B hold the same single row, cell for cell under
    every column name, but B lists its two value columns in the other order:
    the key is reported as modified although no column differs.  And a blank
    in one row of B makes its column a column of floats: key 1, whose rows
    are the same in A and in B, is reported as modified next to key 2. *)
Theorem modified_without_cell_difference :
  find_key_column swapped_A = Some (Some "id")
  /\ In "id" (columns swapped_B)
  /\ (forall c, In c (columns swapped_A) ->
                In c (columns swapped_B)
                /\ column swapped_A c = column swapped_B c)
  /\ map (map fill) (rows swapped_A) = map (map fill) (rows swapped_B)
  /\ compare_dataframes swapped_A swapped_B
     = Some (empty_frame, mkFrame ["id"; "y"; "x"] [[Int 1; Int 7; Int 7]])
  /\ find_key_column blank_A = Some (Some "id")
  /\ columns blank_A = columns blank_B
  /\ In [Int 1; Int 10] (rows blank_A) /\ In [Int 1; Int 10] (rows blank_B)
  /\ compare_dataframes blank_A blank_B
     = Some (empty_frame,
             mkFrame ["id"; "v"] [[Int 1; Int 10]; [Int 2; NaN]]).
Proof.
  split; [reflexivity|]. split; [simpl; now left|].
  split; [|repeat split; try reflexivity; simpl; tauto].
  intros c [H|[H|[H|[]]]]; subst; simpl; split; auto.
Qed.

Lemma mismatch_labels_differ (key : string) (df_a df_b : DataFrame) :
  In key (columns df_a) -> In key (columns df_b) ->
  (exists c, (In c (columns df_a) /\ ~ In c (columns df_b))
             \/ (In c (columns df_b) /\ ~ In c (columns df_a))) ->
  remove_nth (key_position key df_a) (columns df_a)
  <> remove_nth (key_position key df_b) (columns df_b).
Proof.
  intros Ha Hb [c H] E.
  pose proof (key_position_eq key df_a Ha) as Pa.
  pose proof (key_position_eq key df_b Hb) as Pb.
  destruct H as [[H1 H2] | [H1 H2]].
  - assert (N : c <> key) by (intro; subst; contradiction).
    pose proof (position_kept c key _ _ Pa H1 N) as K. rewrite E in K.
    apply remove_nth_In in K. contradiction.
  - assert (N : c <> key) by (intro; subst; contradiction).
    pose proof (position_kept c key _ _ Pb H1 N) as K. rewrite <- E in K.
    apply remove_nth_In in K. contradiction.
Qed.

(** Rows under different labels never compare as equal. *)
Lemma differsb_labels (pa pb : nat) (df_a df_b : DataFrame) (k : scalar) :
  remove_nth pa (columns df_a) <> remove_nth pb (columns df_b) ->
  differsb pa pb df_a df_b k = true.
Proof.
  intro N. unfold differsb, selected. apply negb_true_iff.
  assert (L : list_eqb String.eqb (remove_nth pa (columns df_a))
                       (remove_nth pb (columns df_b)) = false).
  { destruct (list_eqb String.eqb _ _) eqn:E; [|reflexivity].
    apply labels_eqb_eq in E. contradiction. }
  destruct (other_cells pa df_a k) as [|a [|a' ra]],
           (other_cells pb df_b k) as [|b [|b' rb]];
    cbn [selection_of fillna equals]; try reflexivity; now rewrite L.
Qed.

(** C8, at an input.  A has the columns id and name, B has id and nombre, the
    keys are text, and B has one new row whose key cell is blank: the diff
    raises while it selects the added rows, before any row is compared, so
    that the common key a is not reported. *)
Theorem mismatched_columns_diff_raises :
  find_key_column renamed_text_A = Some (Some "id")
  /\ In "id" (columns renamed_text_B)
  /\ In "name" (columns renamed_text_A)
  /\ ~ In "name" (columns renamed_text_B)
  /\ In (Str "a") (keys_of 0 renamed_text_A)
  /\ In (Str "a") (keys_of 0 renamed_text_B)
  /\ compare_dataframes renamed_text_A renamed_text_B = None.
Proof.
  repeat split; try reflexivity; simpl; try tauto. intuition discriminate.
Qed.

(* ------------------------------------------------------------------------- *)
(** ** Counting characters *)

Lemma sum_over_le (f g : ascii -> nat) :
  (forall c, f c <= g c) -> sum_over f <= sum_over g.
Proof.
  intro H. unfold sum_over. induction all_ascii as [|c l IH]; simpl; [lia|].
  specialize (H c). lia.
Qed.

Lemma sum_over_add (f g : ascii -> nat) :
  sum_over (fun c => f c + g c) = sum_over f + sum_over g.
Proof.
  unfold sum_over. induction all_ascii as [|c l IH]; simpl; [reflexivity|].
  rewrite IH. lia.
Qed.

Lemma sum_over_ext (f g : ascii -> nat) :
  (forall c, f c = g c) -> sum_over f = sum_over g.
Proof.
  intro H. apply Nat.le_antisymm; apply sum_over_le; intro c; rewrite H; lia.
Qed.

Lemma sum_over_indicator (x : ascii) :
  sum_over (fun c => if ascii_dec x c then 1 else 0) = 1.
Proof.
  destruct x as [[] [] [] [] [] [] [] []]; vm_compute; reflexivity.
Qed.

Lemma sum_over_count (s : list ascii) : sum_over (count s) = List.length s.
Proof.
  induction s as [|x s IH]; simpl.
  - unfold sum_over. induction all_ascii; simpl; auto.
  - transitivity (sum_over (fun c => (if ascii_dec x c then 1 else 0)
                                     + count s c)).
    + apply sum_over_ext. intro c. unfold count. simpl.
      destruct (ascii_dec x c); lia.
    + rewrite sum_over_add, sum_over_indicator, IH. reflexivity.
Qed.

Lemma count_app (x y : list ascii) (c : ascii) :
  count (x ++ y) c = count x c + count y c.
Proof. apply count_occ_app. Qed.

Lemma common_count_self (s : list ascii) : common_count s s = List.length s.
Proof.
  unfold common_count. rewrite <- sum_over_count. apply sum_over_ext.
  intro c. apply Nat.min_id.
Qed.

Lemma common_count_app (x1 x2 y1 y2 : list ascii) :
  common_count x1 y1 + common_count x2 y2
  <= common_count (x1 ++ x2) (y1 ++ y2).
Proof.
  unfold common_count. rewrite <- sum_over_add. apply sum_over_le.
  intro c. rewrite !count_app. lia.
Qed.

Lemma common_count_le_l (x y : list ascii) : common_count x y <= List.length x.
Proof.
  rewrite <- sum_over_count. apply sum_over_le. intro c. lia.
Qed.

Lemma common_count_le_r (x y : list ascii) : common_count x y <= List.length y.
Proof.
  rewrite <- sum_over_count. apply sum_over_le. intro c. lia.
Qed.

Lemma sum_over_scaled_indicator (x : ascii) (d : nat) :
  sum_over (fun c => if ascii_dec x c then d else 0) = d.
Proof.
  transitivity (d * sum_over (fun c => if ascii_dec x c then 1 else 0)).
  - unfold sum_over. induction all_ascii as [|c l IH]; simpl; [lia|].
    rewrite IH. destruct (ascii_dec x c); lia.
  - rewrite sum_over_indicator. lia.
Qed.

Lemma quick_loop_ge (b elts : list ascii) (avail : ascii -> option Z) (m : nat) :
  sum_over (fun c => Nat.min (count elts c) (available b avail c)) + m
  <= Difflib.quick_loop b elts avail m.
Proof.
  revert avail m. induction elts as [|x elts IH]; intros avail m.
  - assert (Z0 : sum_over (fun c => Nat.min (count [] c) (available b avail c))
                 <= sum_over (count [])).
    { apply sum_over_le. intro c. lia. }
    rewrite sum_over_count in Z0. simpl in *. lia.
  - cbn [Difflib.quick_loop].
    set (numb := match avail x with
                 | Some n => n
                 | None => Difflib.fullbcount b x
                 end).
    set (avail' := fun c : ascii =>
                     if Ascii.eqb c x then Some (numb - 1)%Z else avail c).
    set (d := if (0 <? numb)%Z then 1 else 0).
    replace (if (0 <? numb)%Z then m + 1 else m) with (m + d)
      by (unfold d; destruct (0 <? numb)%Z; lia).
    eapply Nat.le_trans; [|apply (IH avail' (m + d))].
    enough (sum_over (fun c => Nat.min (count (x :: elts) c) (available b avail c))
            <= sum_over (fun c => Nat.min (count elts c) (available b avail' c))
               + d) by lia.
    rewrite <- (sum_over_scaled_indicator x d) at 1. rewrite <- sum_over_add.
    apply sum_over_le. intro c. unfold count. simpl.
    destruct (ascii_dec x c) as [E|N].
    + subst c. unfold available, avail'. rewrite Ascii.eqb_refl. fold numb.
      unfold d. destruct (0 <? numb)%Z eqn:P.
      * apply Z.ltb_lt in P. lia.
      * apply Z.ltb_ge in P. lia.
    + unfold available, avail'.
      replace (Ascii.eqb c x) with false; [lia|].
      symmetry. apply Ascii.eqb_neq. congruence.
Qed.

Lemma common_count_le_quick (a b : list ascii) :
  common_count a b <= Difflib.quick_loop b a (fun _ => None) 0.
Proof.
  eapply Nat.le_trans; [|apply quick_loop_ge]. rewrite Nat.add_0_r.
  apply sum_over_le. intro c. unfold available, Difflib.fullbcount, count.
  rewrite Nat2Z.id. lia.
Qed.

(* ------------------------------------------------------------------------- *)
(** ** find_longest_match returns a matching block inside its window *)

Section MatcherFacts.
Variables a b : list ascii.

Lemma positions_nth (c : ascii) (l : list ascii) (j0 j : nat) :
  In j (Difflib.positions c l j0) ->
  exists t, j = j0 + t /\ nth_error l t = Some c.
Proof.
  revert j0. induction l as [|x l IH]; intro j0; simpl; [intros []|].
  destruct (Ascii.eqb x c) eqn:E.
  - intros [H|H].
    + exists 0. apply Ascii.eqb_eq in E. subst. split; [lia | reflexivity].
    + destruct (IH _ H) as [t [Ht Hn]]. exists (S t). split; [lia | exact Hn].
  - intro H. destruct (IH _ H) as [t [Ht Hn]]. exists (S t).
    split; [lia | exact Hn].
Qed.

Lemma b2j_nth (c : ascii) (j : nat) :
  In j (Difflib.b2j b c) -> nth_error b j = Some c.
Proof.
  unfold Difflib.b2j. destruct (Difflib.popular b c); [intros []|].
  intro H. apply positions_nth in H as [t [Ht Hn]]. now subst.
Qed.

Lemma same_at_char (c : ascii) (i j : nat) :
  nth_error a i = Some c -> nth_error b j = Some c ->
  Difflib.same_at a b i j = true.
Proof.
  intros Ha Hb. unfold Difflib.same_at. rewrite Ha, Hb. apply Ascii.eqb_refl.
Qed.

Lemma j2lenget_ok (alo blo bhi i j : nat) (j2len : nat -> nat) :
  ends_ok a b alo blo bhi i j2len -> alo <= i -> blo <= j ->
  let p := Difflib.j2lenget j2len j in
  p <= i /\ p <= j /\ alo <= i - p /\ blo <= j - p
  /\ forall t, t < p -> Difflib.same_at a b (i - p + t) (j - p + t) = true.
Proof.
  intros E Hi Hj. destruct j as [|j']; simpl.
  - split; [lia|]. split; [lia|]. split; [lia|]. split; [lia|].
    intros t Ht. lia.
  - destruct (j2len j') as [|q] eqn:Q.
    + split; [lia|]. split; [lia|]. split; [lia|]. split; [lia|].
      intros t Ht. lia.
    + destruct (E j') as [H1 [H2 [H3 [H4 [H5 H6]]]]]; [lia|].
      rewrite Q in *.
      split; [lia|]. split; [lia|]. split; [lia|]. split; [lia|].
      intros t Ht. specialize (H6 t Ht).
      replace (j' - q + t) with (j' + 1 - S q + t) by lia. exact H6.
Qed.

Lemma scan_row_ok (alo ahi blo bhi i : nat) (c : ascii) (j2len : nat -> nat) :
  nth_error a i = Some c -> alo <= i -> i < ahi -> blo <= bhi ->
  ends_ok a b alo blo bhi i j2len ->
  forall js newj2len best,
    (forall j, In j js -> nth_error b j = Some c) ->
    ends_ok a b alo blo bhi (S i) newj2len ->
    valid_block a b (alo, ahi, blo, bhi) best ->
    ends_ok a b alo blo bhi (S i)
            (fst (Difflib.scan_row i blo bhi j2len js newj2len best))
    /\ valid_block a b (alo, ahi, blo, bhi)
                   (snd (Difflib.scan_row i blo bhi j2len js newj2len best)).
Proof.
  intros Ha Hi Hi' Hb E. induction js as [|j js IH]; intros newj2len best Hjs En Vb.
  - simpl. now split.
  - cbn [Difflib.scan_row].
    assert (Hjs' : forall j0, In j0 js -> nth_error b j0 = Some c)
      by (intros j0 H0; apply Hjs; now right).
    destruct (j <? blo) eqn:L1; [now apply IH|].
    destruct (bhi <=? j) eqn:L2; [simpl; now split|].
    apply Nat.ltb_ge in L1. apply Nat.leb_gt in L2.
    pose proof (j2lenget_ok alo blo bhi i j j2len E Hi L1) as P.
    cbv zeta in P. destruct P as [P1 [P2 [P3 [P4 P5]]]].
    set (p := Difflib.j2lenget j2len j) in *.
    assert (S0 : Difflib.same_at a b i j = true).
    { apply (same_at_char c); [exact Ha | apply Hjs; now left]. }
    assert (S1 : forall t, t < p + 1 ->
                   Difflib.same_at a b (i + 1 - (p + 1) + t)
                                   (j + 1 - (p + 1) + t) = true).
    { intros t Ht. destruct (Nat.eq_dec t p) as [->|N].
      - replace (i + 1 - (p + 1) + p) with i by lia.
        replace (j + 1 - (p + 1) + p) with j by lia. exact S0.
      - replace (i + 1 - (p + 1) + t) with (i - p + t) by lia.
        replace (j + 1 - (p + 1) + t) with (j - p + t) by lia.
        apply P5. lia. }
    apply IH; [exact Hjs'| |].
    + intros j0 H0. unfold Difflib.setitem in *.
      destruct (j0 =? j) eqn:J.
      * apply Nat.eqb_eq in J. subst j0. repeat split; try lia.
        intros t Ht. replace (S i - (p + 1) + t) with (i + 1 - (p + 1) + t)
          by lia. now apply S1.
      * now apply En.
    + destruct (Difflib.size best <? p + 1); [|exact Vb].
      unfold valid_block. repeat split; try lia. exact S1.
Qed.

Lemma scan_rows_ok (alo ahi blo bhi : nat) :
  blo <= bhi ->
  forall n i0 j2len best,
    alo <= i0 -> i0 + n <= ahi ->
    ends_ok a b alo blo bhi i0 j2len ->
    valid_block a b (alo, ahi, blo, bhi) best ->
    valid_block a b (alo, ahi, blo, bhi)
                (Difflib.scan_rows a b (seq i0 n) blo bhi j2len best).
Proof.
  intro Hb. induction n as [|n IH]; intros i0 j2len best H1 H2 E V.
  - exact V.
  - cbn [seq Difflib.scan_rows]. destruct (nth_error a i0) as [c|] eqn:Ha;
      [|exact V].
    pose proof (scan_row_ok alo ahi blo bhi i0 c j2len Ha H1 ltac:(lia) Hb E
                  (Difflib.b2j b c) (fun _ => 0) best (b2j_nth c)) as R.
    destruct (Difflib.scan_row i0 blo bhi j2len (Difflib.b2j b c)
                               (fun _ => 0) best) as [new best'].
    destruct R as [R1 R2]; [intros j Hj; lia | exact V |].
    apply IH; [lia | lia | exact R1 | exact R2].
Qed.

Lemma extend_left_ok (junk : bool) (alo ahi blo bhi fuel : nat) (m : Difflib.block) :
  valid_block a b (alo, ahi, blo, bhi) m ->
  valid_block a b (alo, ahi, blo, bhi)
              (Difflib.extend_left a b junk fuel alo blo m).
Proof.
  revert m. induction fuel as [|fuel IH]; intros [[i j] k] V; [exact V|].
  cbn [Difflib.extend_left].
  destruct ((alo <? i) && (blo <? j)
            && Bool.eqb (Difflib.junk_at b (j - 1)) junk
            && Difflib.same_at a b (i - 1) (j - 1)) eqn:C; [|exact V].
  apply andb_true_iff in C as [C S0]. apply andb_true_iff in C as [C _].
  apply andb_true_iff in C as [C1 C2].
  apply Nat.ltb_lt in C1, C2. apply IH.
  destruct V as [V1 [V2 [V3 [V4 V5]]]]. unfold valid_block.
  repeat split; try lia. intros t Ht. destruct t as [|t].
  - now rewrite !Nat.add_0_r.
  - replace (i - 1 + S t) with (i + t) by lia.
    replace (j - 1 + S t) with (j + t) by lia. apply V5. lia.
Qed.

Lemma extend_right_ok (junk : bool) (alo ahi blo bhi fuel : nat)
      (m : Difflib.block) :
  valid_block a b (alo, ahi, blo, bhi) m ->
  valid_block a b (alo, ahi, blo, bhi)
              (Difflib.extend_right a b junk fuel ahi bhi m).
Proof.
  revert m. induction fuel as [|fuel IH]; intros [[i j] k] V; [exact V|].
  cbn [Difflib.extend_right].
  destruct ((i + k <? ahi) && (j + k <? bhi)
            && Bool.eqb (Difflib.junk_at b (j + k)) junk
            && Difflib.same_at a b (i + k) (j + k)) eqn:C; [|exact V].
  apply andb_true_iff in C as [C S0]. apply andb_true_iff in C as [C _].
  apply andb_true_iff in C as [C1 C2].
  apply Nat.ltb_lt in C1, C2. apply IH.
  destruct V as [V1 [V2 [V3 [V4 V5]]]]. unfold valid_block.
  repeat split; try lia. intros t Ht. destruct (Nat.eq_dec t k) as [->|N].
  - exact S0.
  - apply V5. lia.
Qed.

Lemma find_longest_match_valid (alo ahi blo bhi : nat) :
  alo <= ahi -> blo <= bhi ->
  valid_block a b (alo, ahi, blo, bhi)
              (Difflib.find_longest_match a b alo ahi blo bhi).
Proof.
  intros Ha Hb. unfold Difflib.find_longest_match.
  apply extend_right_ok, extend_left_ok, extend_right_ok, extend_left_ok.
  apply scan_rows_ok; try lia.
  - intros j Hj. lia.
  - unfold valid_block. repeat split; intros; lia.
Qed.

End MatcherFacts.

(* ------------------------------------------------------------------------- *)
(** ** The matches of ratio() are bounded by quick_ratio() and
       real_quick_ratio() *)

Lemma firstn_plus {A} (n m : nat) (l : list A) :
  firstn (n + m) l = firstn n l ++ firstn m (skipn n l).
Proof.
  revert l. induction n as [|n IH]; intro l; [reflexivity|].
  destruct l as [|x l]; simpl.
  - now rewrite firstn_nil.
  - now rewrite IH.
Qed.

Lemma slice_split (l : list ascii) (lo mid hi : nat) :
  lo <= mid -> mid <= hi ->
  slice l lo hi = slice l lo mid ++ slice l mid hi.
Proof.
  intros H1 H2. unfold slice.
  replace (hi - lo) with ((mid - lo) + (hi - mid)) by lia.
  rewrite firstn_plus, skipn_skipn.
  replace (mid - lo + lo) with mid by lia. reflexivity.
Qed.

Lemma slice_all (l : list ascii) : slice l 0 (List.length l) = l.
Proof. unfold slice. rewrite Nat.sub_0_r. simpl. apply firstn_all. Qed.

Lemma skipn_nth {A} (l : list A) (i : nat) (x : A) :
  nth_error l i = Some x -> skipn i l = x :: skipn (S i) l.
Proof.
  revert i. induction l as [|y l IH]; intros [|i]; simpl; try discriminate.
  - intro H. now inversion H.
  - intro H. now rewrite (IH i H).
Qed.

Lemma slice_match (a b : list ascii) (k i j : nat) :
  (forall t, t < k -> Difflib.same_at a b (i + t) (j + t) = true) ->
  slice a i (i + k) = slice b j (j + k)
  /\ List.length (slice a i (i + k)) = k.
Proof.
  revert i j. induction k as [|k IH]; intros i j H.
  - unfold slice. rewrite !Nat.add_0_r, !Nat.sub_diag. now split.
  - pose proof (H 0 ltac:(lia)) as H0. rewrite !Nat.add_0_r in H0.
    unfold Difflib.same_at in H0.
    destruct (nth_error a i) as [x|] eqn:Ea; [|discriminate].
    destruct (nth_error b j) as [y|] eqn:Eb; [|discriminate].
    apply Ascii.eqb_eq in H0. subst y.
    destruct (IH (S i) (S j)) as [E L].
    { intros t Ht. specialize (H (S t) ltac:(lia)).
      now rewrite !Nat.add_succ_r in H. }
    unfold slice in *.
    replace (i + S k - i) with (S k) by lia.
    replace (j + S k - j) with (S k) by lia.
    replace (S i + k - S i) with k in * by lia.
    replace (S j + k - S j) with k in * by lia.
    rewrite (skipn_nth a i x Ea), (skipn_nth b j x Eb).
    cbn [firstn List.length]. rewrite L, E. now split.
Qed.

Lemma block_cap (a b : list ascii) (alo ahi blo bhi i j k : nat) :
  valid_block a b (alo, ahi, blo, bhi) (i, j, k) ->
  k + cap a b (alo, i, blo, j) + cap a b (i + k, ahi, j + k, bhi)
  <= cap a b (alo, ahi, blo, bhi).
Proof.
  intros [V1 [V2 [V3 [V4 V5]]]]. unfold cap.
  rewrite (slice_split a alo i ahi), (slice_split a i (i + k) ahi) by lia.
  rewrite (slice_split b blo j bhi), (slice_split b j (j + k) bhi) by lia.
  destruct (slice_match a b k i j V5) as [E L].
  eapply Nat.le_trans; [|apply common_count_app].
  enough (k + common_count (slice a (i + k) ahi) (slice b (j + k) bhi)
          <= common_count (slice a i (i + k) ++ slice a (i + k) ahi)
                          (slice b j (j + k) ++ slice b (j + k) bhi)) by lia.
  eapply Nat.le_trans; [|apply common_count_app].
  rewrite <- E, common_count_self, L. lia.
Qed.

Lemma total_app (ms : list Difflib.block) (m : Difflib.block) :
  total (ms ++ [m]) = total ms + Difflib.size m.
Proof.
  induction ms as [|x ms IH]; simpl; [lia|]. rewrite IH. lia.
Qed.

Lemma blocks_loop_total (a b : list ascii) (fuel : nat) :
  forall queue acc,
    Forall window_ok queue ->
    total (Difflib.blocks_loop a b fuel queue acc)
    <= total acc + caps a b queue.
Proof.
  induction fuel as [|fuel IH]; intros queue acc W; [simpl; lia|].
  destruct queue as [|[[[alo ahi] blo] bhi] queue]; [simpl; lia|].
  inversion W as [|? ? Wk W']; subst. destruct Wk as [Wa Wb].
  cbn [Difflib.blocks_loop].
  pose proof (find_longest_match_valid a b alo ahi blo bhi Wa Wb) as V.
  destruct (Difflib.find_longest_match a b alo ahi blo bhi) as [[i j] k].
  pose proof (block_cap a b alo ahi blo bhi i j k V) as C.
  destruct V as [V1 [V2 [V3 [V4 _]]]].
  cbn [caps fold_right]. fold (caps a b queue).
  destruct (0 <? k) eqn:K.
  - set (q1 := if (alo <? i) && (blo <? j)
               then (alo, i, blo, j) :: queue else queue).
    set (q2 := if (i + k <? ahi) && (j + k <? bhi)
               then (i + k, ahi, j + k, bhi) :: q1 else q1).
    assert (W1 : Forall window_ok q1 /\ caps a b q1 <= cap a b (alo, i, blo, j) + caps a b queue).
    { unfold q1. destruct ((alo <? i) && (blo <? j)).
      - split; [constructor; [split; lia | exact W'] | simpl; lia].
      - split; [exact W' | lia]. }
    destruct W1 as [W1 C1].
    assert (W2 : Forall window_ok q2
                 /\ caps a b q2
                    <= cap a b (i + k, ahi, j + k, bhi) + caps a b q1).
    { unfold q2. destruct ((i + k <? ahi) && (j + k <? bhi)).
      - split; [constructor; [split; lia | exact W1] | simpl; lia].
      - split; [exact W1 | lia]. }
    destruct W2 as [W2 C2].
    eapply Nat.le_trans; [apply (IH q2 _ W2)|].
    rewrite total_app. unfold Difflib.size. simpl snd. lia.
  - eapply Nat.le_trans; [apply (IH queue acc W')|]. lia.
Qed.

Lemma matches_le_common (a b : list ascii) :
  Difflib.matches a b <= common_count a b.
Proof.
  unfold Difflib.matches, Difflib.get_matching_blocks.
  fold (total (Difflib.blocks_loop a b (S (List.length a))
                 [(0, List.length a, 0, List.length b)] [])).
  eapply Nat.le_trans; [apply blocks_loop_total|].
  - constructor; [split; lia | constructor].
  - simpl. rewrite !slice_all. lia.
Qed.

Lemma calculate_ratio_mono (m1 m2 len : nat) :
  m1 <= m2 ->
  Qle (Difflib.calculate_ratio m1 len) (Difflib.calculate_ratio m2 len).
Proof.
  intro H. unfold Difflib.calculate_ratio. destruct len; [apply Qle_refl|].
  unfold Qle. cbn [Qnum Qden]. apply Z.mul_le_mono_nonneg_r; lia.
Qed.

Lemma calculate_ratio_nonneg (m len : nat) :
  Qle 0 (Difflib.calculate_ratio m len).
Proof.
  unfold Difflib.calculate_ratio. destruct len; [discriminate|].
  unfold Qle. cbn [Qnum Qden]. lia.
Qed.

Lemma ratio_le_quick_ratio (a b : list ascii) :
  Qle (Difflib.ratio a b) (Difflib.quick_ratio a b).
Proof.
  apply calculate_ratio_mono. eapply Nat.le_trans; [apply matches_le_common|].
  apply common_count_le_quick.
Qed.

Lemma ratio_le_real_quick_ratio (a b : list ascii) :
  Qle (Difflib.ratio a b) (Difflib.real_quick_ratio a b).
Proof.
  apply calculate_ratio_mono. pose proof (matches_le_common a b).
  pose proof (common_count_le_l a b). pose proof (common_count_le_r a b). lia.
Qed.

(* ------------------------------------------------------------------------- *)
(** ** Rounding to the nearest double is monotone *)

Section Rounding.
Local Open Scope Q_scope.

Lemma pow2_pos (k : Z) : 0 < Binary64.pow2 k.
Proof. apply Qpower_0_lt. reflexivity. Qed.

Lemma pow2_plus (a b : Z) : Binary64.pow2 (a + b) == Binary64.pow2 a * Binary64.pow2 b.
Proof. apply Qpower_plus. discriminate. Qed.

Lemma pow2_succ (a : Z) : Binary64.pow2 (a + 1) == 2 * Binary64.pow2 a.
Proof. rewrite pow2_plus. unfold Binary64.pow2 at 2. simpl (2 ^ 1). ring. Qed.

Lemma pow2_le (a b : Z) : (a <= b)%Z -> Binary64.pow2 a <= Binary64.pow2 b.
Proof. intro H. apply Qpower_le_compat_l; [assumption|]. discriminate. Qed.

Lemma pow2_Z (a : Z) : (0 <= a)%Z -> inject_Z (2 ^ a) == Binary64.pow2 a.
Proof. intro H. now apply Zpower_Qpower. Qed.

Lemma pow2_cancel (a : Z) : Binary64.pow2 a * Binary64.pow2 (- a) == 1.
Proof. rewrite <- pow2_plus, Z.add_opp_diag_r. reflexivity. Qed.

(** A positive rational lies between two powers of two. *)
Lemma log2_bounds (q : Q) :
  0 < q ->
  Binary64.pow2 (Z.log2 (Qnum q) - Z.log2 (Zpos (Qden q)) - 1) < q
  /\ q < Binary64.pow2 (Z.log2 (Qnum q) - Z.log2 (Zpos (Qden q)) + 1).
Proof.
  destruct q as [n d]. unfold Qlt at 1. cbn [Qnum Qden]. intro H.
  assert (Hn : (0 < n)%Z) by lia.
  destruct (Z.log2_spec n Hn) as [A1 A2].
  destruct (Z.log2_spec (Zpos d) (Pos2Z.is_pos d)) as [B1 B2].
  pose proof (Z.log2_nonneg n) as An. pose proof (Z.log2_nonneg (Zpos d)) as Bn.
  set (a := Z.log2 n) in *. set (b := Z.log2 (Zpos d)) in *.
  assert (E : n # d == inject_Z n * / inject_Z (Zpos d)) by apply Qmake_Qdiv.
  assert (Dpos : 0 < inject_Z (Zpos d)) by reflexivity.
  split.
  - (* 2^(a-b-1) * d < n *)
    rewrite E. apply Qlt_shift_div_l; [assumption|].
    apply Qlt_le_trans with (Binary64.pow2 (a - b - 1) * Binary64.pow2 (b + 1)).
    + apply Qmult_lt_l; [apply pow2_pos|].
      rewrite <- pow2_Z by lia. rewrite <- Zlt_Qlt.
      replace (Z.succ b) with (b + 1)%Z in B2 by lia. exact B2.
    + rewrite <- pow2_plus. replace (a - b - 1 + (b + 1))%Z with a by lia.
      rewrite <- pow2_Z by lia. now rewrite <- Zle_Qle.
  - rewrite E. apply Qlt_shift_div_r; [assumption|].
    apply Qlt_le_trans with (Binary64.pow2 (a + 1)).
    + rewrite <- pow2_Z by lia. rewrite <- Zlt_Qlt.
      replace (Z.succ a) with (a + 1)%Z in A2 by lia. exact A2.
    + replace (a + 1)%Z with (a - b + 1 + b)%Z at 1 by lia.
      rewrite pow2_plus. apply Qmult_le_l; [apply pow2_pos|].
      rewrite <- pow2_Z by lia. now rewrite <- Zle_Qle.
Qed.

Lemma exponent_spec (q : Q) :
  0 < q ->
  Binary64.pow2 52 <= q * Binary64.pow2 (Binary64.exponent q)
  /\ q * Binary64.pow2 (Binary64.exponent q) < Binary64.pow2 53.
Proof.
  intro H. destruct (log2_bounds q H) as [L U]. unfold Binary64.exponent.
  set (a := Z.log2 (Qnum q)) in *. set (b := Z.log2 (Zpos (Qden q))) in *.
  set (k0 := (52 + b - a)%Z).
  assert (U0 : q * Binary64.pow2 k0 < Binary64.pow2 53).
  { apply Qlt_le_trans with (Binary64.pow2 (a - b + 1) * Binary64.pow2 k0).
    - apply Qmult_lt_r; [apply pow2_pos | assumption].
    - rewrite <- pow2_plus. apply pow2_le. unfold k0. lia. }
  assert (L0 : Binary64.pow2 51 < q * Binary64.pow2 k0).
  { apply Qle_lt_trans with (Binary64.pow2 (a - b - 1) * Binary64.pow2 k0).
    - rewrite <- pow2_plus. apply pow2_le. unfold k0. lia.
    - apply Qmult_lt_r; [apply pow2_pos | assumption]. }
  destruct (Qle_bool (Binary64.pow2 52) (q * Binary64.pow2 k0)) eqn:T.
  - apply Qle_bool_iff in T. now split.
  - assert (T' : q * Binary64.pow2 k0 < Binary64.pow2 52).
    { apply Qnot_le_lt. intro A. apply Qle_bool_iff in A. congruence. }
    assert (E52 : Binary64.pow2 52 == 2 * Binary64.pow2 51)
      by (change 52%Z with (51 + 1)%Z; apply pow2_succ).
    assert (E53 : Binary64.pow2 53 == 2 * Binary64.pow2 52)
      by (change 53%Z with (52 + 1)%Z; apply pow2_succ).
    rewrite pow2_succ.
    setoid_replace (q * (2 * Binary64.pow2 k0)) with (2 * (q * Binary64.pow2 k0))
      by ring.
    split.
    + rewrite E52. apply Qmult_le_l; [reflexivity|]. now apply Qlt_le_weak.
    + rewrite E53. now apply Qmult_lt_l.
Qed.

Lemma round_half_even_le (s : Q) :
  (Binary64.round_half_even s <= Qfloor (s + (1 # 2)))%Z.
Proof.
  unfold Binary64.round_half_even. destruct (_ && _); lia.
Qed.

Lemma round_half_even_mono (s1 s2 : Q) :
  s1 <= s2 -> (Binary64.round_half_even s1 <= Binary64.round_half_even s2)%Z.
Proof.
  intro H.
  assert (H' : s1 + (1 # 2) <= s2 + (1 # 2)) by now apply Qplus_le_l.
  pose proof (Qfloor_resp_le _ _ H') as F.
  pose proof (round_half_even_le s1) as L1.
  unfold Binary64.round_half_even at 2.
  destruct (Qeq_bool (inject_Z (Qfloor (s2 + (1 # 2)))) (s2 + (1 # 2))
            && Z.odd (Qfloor (s2 + (1 # 2)))) eqn:T; [|lia].
  apply andb_true_iff in T as [T1 T2]. apply Qeq_bool_iff in T1.
  destruct (Z.eq_dec (Qfloor (s1 + (1 # 2))) (Qfloor (s2 + (1 # 2))))
    as [E|N]; [|lia].
  assert (S : s1 + (1 # 2) == s2 + (1 # 2)).
  { apply Qle_antisym; [assumption|]. rewrite <- T1, <- E. apply Qfloor_le. }
  unfold Binary64.round_half_even.
  replace (Qeq_bool (inject_Z (Qfloor (s1 + (1 # 2)))) (s1 + (1 # 2))) with true.
  - rewrite E, T2. cbn [andb]. lia.
  - symmetry. apply Qeq_bool_iff. rewrite E, T1. now symmetry.
Qed.

Lemma round_half_even_bounds (s : Q) :
  Binary64.pow2 52 <= s -> s < Binary64.pow2 53 ->
  (2 ^ 52 <= Binary64.round_half_even s <= 2 ^ 53)%Z.
Proof.
  intros L U. split.
  - assert (F : (2 ^ 52 <= Qfloor (s + (1 # 2)))%Z).
    { rewrite <- (Qfloor_Z (2 ^ 52)). apply Qfloor_resp_le.
      rewrite pow2_Z by lia.
      apply Qle_trans with s; [assumption|].
      rewrite <- (Qplus_0_r s) at 1. apply Qplus_le_r. discriminate. }
    unfold Binary64.round_half_even.
    destruct (Qeq_bool _ _ && Z.odd (Qfloor (s + (1 # 2)))) eqn:T; [|lia].
    apply andb_true_iff in T as [_ T].
    assert (Qfloor (s + (1 # 2)) <> 2 ^ 52)%Z.
    { intro E. rewrite E in T. discriminate. }
    lia.
  - apply Z.le_trans with (Qfloor (s + (1 # 2))); [apply round_half_even_le|].
    assert (F : (Qfloor (s + (1 # 2)) < 2 ^ 53 + 1)%Z).
    { rewrite Zlt_Qlt. apply Qle_lt_trans with (s + (1 # 2)); [apply Qfloor_le|].
      rewrite inject_Z_plus, pow2_Z by lia.
      apply Qplus_lt_le_compat; [assumption | discriminate]. }
    lia.
Qed.

Lemma nearest_mono (q1 q2 : Q) :
  0 < q1 -> q1 <= q2 -> Binary64.nearest q1 <= Binary64.nearest q2.
Proof.
  intros P1 H. assert (P2 : 0 < q2) by now apply Qlt_le_trans with q1.
  destruct (exponent_spec q1 P1) as [L1 U1].
  destruct (exponent_spec q2 P2) as [L2 U2].
  unfold Binary64.nearest.
  set (k1 := Binary64.exponent q1) in *. set (k2 := Binary64.exponent q2) in *.
  destruct (round_half_even_bounds _ L1 U1) as [A1 B1].
  destruct (round_half_even_bounds _ L2 U2) as [A2 B2].
  assert (K : (k2 <= k1)%Z).
  { destruct (Z_le_gt_dec k2 k1) as [K|K]; [assumption|]. exfalso.
    apply (Qlt_irrefl (Binary64.pow2 53)).
    apply Qle_lt_trans with (q2 * Binary64.pow2 k2); [|assumption].
    apply Qle_trans with (q1 * Binary64.pow2 (k1 + 1)).
    - rewrite pow2_succ.
      setoid_replace (q1 * (2 * Binary64.pow2 k1)) with (2 * (q1 * Binary64.pow2 k1))
        by ring.
      change 53%Z with (52 + 1)%Z. rewrite pow2_succ.
      now apply Qmult_le_l.
    - apply Qle_trans with (q1 * Binary64.pow2 k2).
      + apply Qmult_le_l; [assumption|]. apply pow2_le. lia.
      + apply Qmult_le_r; [apply pow2_pos | assumption]. }
  destruct (Z.eq_dec k1 k2) as [E|N].
  - rewrite E. apply Qmult_le_r; [apply pow2_pos|]. rewrite <- Zle_Qle.
    apply round_half_even_mono. rewrite <- E.
    apply Qmult_le_r; [apply pow2_pos | assumption].
  - apply Qle_trans with (Binary64.pow2 53 * Binary64.pow2 (- k1)).
    + apply Qmult_le_r; [apply pow2_pos|]. rewrite <- (pow2_Z 53) by lia.
      now rewrite <- Zle_Qle.
    + apply Qle_trans with (Binary64.pow2 52 * Binary64.pow2 (- k2)).
      * rewrite <- !pow2_plus. apply pow2_le. lia.
      * apply Qmult_le_r; [apply pow2_pos|]. rewrite <- (pow2_Z 52) by lia.
        now rewrite <- Zle_Qle.
Qed.

Lemma nearest_pos (q : Q) : 0 < q -> 0 < Binary64.nearest q.
Proof.
  intro P. destruct (exponent_spec q P) as [L U].
  destruct (round_half_even_bounds _ L U) as [A _].
  unfold Binary64.nearest. apply Qmult_lt_0_compat; [|apply pow2_pos].
  rewrite <- (Qmult_0_l 0). change (0 * 0) with (inject_Z 0).
  rewrite <- Zlt_Qlt. lia.
Qed.

Lemma double_mono (q1 q2 : Q) :
  0 <= q1 -> q1 <= q2 -> Binary64.double q1 <= Binary64.double q2.
Proof.
  intros P H. unfold Binary64.double.
  destruct q1 as [n1 d1], q2 as [n2 d2]. cbn [Qnum].
  unfold Qle in P, H. cbn [Qnum Qden] in P, H.
  destruct n1 as [|p1|p1]; [| |lia].
  - destruct n2 as [|p2|p2]; [apply Qle_refl | | lia].
    apply Qlt_le_weak, nearest_pos. reflexivity.
  - destruct n2 as [|p2|p2]; [lia | | lia].
    apply nearest_mono; [reflexivity|]. exact H.
Qed.

Lemma double_nonneg (q : Q) : 0 <= q -> 0 <= Binary64.double q.
Proof. intro H. now apply (double_mono 0 q). Qed.

End Rounding.

(* ------------------------------------------------------------------------- *)
(** ** get_close_matches *)

Lemma tuple_le_iff (s1 s2 : Q) (x1 x2 : string) :
  Difflib.tuple_gtb (s1, x1) (s2, x2) = false
  <-> Qle s1 s2 /\ (Qeq s1 s2 -> PyStr.ltb x2 x1 = false).
Proof.
  unfold Difflib.tuple_gtb. cbn [fst snd].
  rewrite orb_false_iff, negb_false_iff, andb_false_iff, Qle_bool_iff. split.
  - intros [H1 [H2|H2]]; split; auto.
    + intro E. apply Qeq_bool_iff in E. congruence.
  - intros [H1 H2]. split; [assumption|].
    destruct (Qeq_bool s1 s2) eqn:E; [|now left].
    right. apply H2. now apply Qeq_bool_iff.
Qed.

Lemma tuple_le_refl (x : Q * string) : Difflib.tuple_gtb x x = false.
Proof.
  destruct x as [s x]. apply tuple_le_iff. split; [apply Qle_refl|].
  intros _. apply ltb_irrefl.
Qed.

Lemma tuple_le_trans (x y z : Q * string) :
  Difflib.tuple_gtb x y = false -> Difflib.tuple_gtb y z = false ->
  Difflib.tuple_gtb x z = false.
Proof.
  destruct x as [s1 x1], y as [s2 x2], z as [s3 x3].
  rewrite !tuple_le_iff. intros [A1 A2] [B1 B2]. split.
  - now apply Qle_trans with s2.
  - intro E.
    assert (E12 : Qeq s1 s2).
    { apply Qle_antisym; [assumption|]. rewrite E. assumption. }
    assert (E23 : Qeq s2 s3) by (rewrite <- E12; assumption).
    specialize (A2 E12). specialize (B2 E23).
    destruct (PyStr.ltb x3 x1) eqn:L; [|reflexivity].
    destruct (PyStr.ltb x1 x2) eqn:L'.
    + rewrite (ltb_trans _ _ _ L L') in B2. discriminate.
    + assert (x1 = x2) by now apply ltb_total. subst. congruence.
Qed.

Lemma tuple_gt_le (x y : Q * string) :
  Difflib.tuple_gtb x y = true -> Difflib.tuple_gtb y x = false.
Proof.
  destruct x as [s1 x1], y as [s2 x2]. intro H. apply tuple_le_iff.
  unfold Difflib.tuple_gtb in H. cbn [fst snd] in H.
  apply orb_true_iff in H as [H|H].
  - apply negb_true_iff in H.
    assert (N : ~ Qle s1 s2).
    { intro A. apply Qle_bool_iff in A. congruence. }
    apply Qnot_le_lt in N. split; [now apply Qlt_le_weak|].
    intro E. rewrite E in N. now apply Qlt_irrefl in N.
  - apply andb_true_iff in H as [H1 H2]. apply Qeq_bool_iff in H1. split.
    + rewrite H1. apply Qle_refl.
    + intros _. now apply ltb_asym.
Qed.

Lemma max_from_ge (best : Q * string) (l : list (Q * string)) :
  Difflib.tuple_gtb best (Difflib.max_from best l) = false.
Proof.
  revert best. induction l as [|item l IH]; intro best; simpl.
  - apply tuple_le_refl.
  - destruct (Difflib.tuple_gtb item best) eqn:G.
    + apply tuple_le_trans with item; [now apply tuple_gt_le | apply IH].
    + apply IH.
Qed.

Lemma max_from_max (best : Q * string) (l : list (Q * string)) (x : Q * string) :
  In x (best :: l) -> Difflib.tuple_gtb x (Difflib.max_from best l) = false.
Proof.
  revert best. induction l as [|item l IH]; intros best [H|H].
  - subst. apply tuple_le_refl.
  - destruct H.
  - subst. apply max_from_ge.
  - simpl. destruct H as [H|H].
    + subst. destruct (Difflib.tuple_gtb x best) eqn:G.
      * apply max_from_ge.
      * apply tuple_le_trans with best; [exact G | apply max_from_ge].
    + apply IH. now right.
Qed.

Lemma max_from_In (best : Q * string) (l : list (Q * string)) :
  In (Difflib.max_from best l) (best :: l).
Proof.
  revert best. induction l as [|item l IH]; intro best; simpl.
  - now left.
  - destruct (Difflib.tuple_gtb item best).
    + destruct (IH item) as [H|H]; [right; left; exact H | right; right; exact H].
    + destruct (IH best) as [H|H]; [left; exact H | right; right; exact H].
Qed.

(** The three tests of [get_close_matches] amount to the last one. *)
Lemma three_tests (x word : string) (cutoff : Q) :
  Qle_bool cutoff
    (Binary64.double
       (Difflib.real_quick_ratio (PyStr.chars x) (PyStr.chars word)))
  && Qle_bool cutoff
       (Binary64.double
          (Difflib.quick_ratio (PyStr.chars x) (PyStr.chars word)))
  && Qle_bool cutoff
       (Binary64.double (Difflib.ratio (PyStr.chars x) (PyStr.chars word)))
  = Qle_bool cutoff
      (Binary64.double (Difflib.ratio (PyStr.chars x) (PyStr.chars word))).
Proof.
  destruct (Qle_bool cutoff
              (Binary64.double
                 (Difflib.ratio (PyStr.chars x) (PyStr.chars word))))
    eqn:R; [|apply andb_false_r].
  apply Qle_bool_iff in R. rewrite andb_true_r. apply andb_true_iff.
  split; apply Qle_bool_iff; (eapply Qle_trans; [exact R|]);
    (apply double_mono; [apply calculate_ratio_nonneg|]).
  - apply ratio_le_real_quick_ratio.
  - apply ratio_le_quick_ratio.
Qed.

Lemma close_loop_eq (word : string) (cutoff : Q) :
  forall possibilities result,
    Difflib.close_loop word possibilities cutoff result
    = result
      ++ map (fun x => (Binary64.double
                          (Difflib.ratio (PyStr.chars x) (PyStr.chars word)),
                        x))
             (filter (fun x => Qle_bool cutoff
                                 (Binary64.double
                                    (Difflib.ratio (PyStr.chars x)
                                                   (PyStr.chars word))))
                     possibilities).
Proof.
  induction possibilities as [|x rest IH]; intro result.
  - simpl. now rewrite app_nil_r.
  - cbn [Difflib.close_loop filter]. rewrite three_tests, IH.
    destruct (Qle_bool cutoff _).
    + now rewrite <- app_assoc.
    + reflexivity.
Qed.

(* ------------------------------------------------------------------------- *)
(** ** The dictionary of stems *)

Lemma dict_set_keys (d : dict) (k : string) (v : Path) (k' : string) :
  In k' (map fst (dict_set d k v)) <-> k' = k \/ In k' (map fst d).
Proof.
  induction d as [|[k0 v0] d IH]; simpl.
  - intuition.
  - destruct (String.eqb k0 k) eqn:E; simpl.
    + apply String.eqb_eq in E. subst. intuition.
    + rewrite IH. intuition.
Qed.

Lemma dict_set_NoDup (d : dict) (k : string) (v : Path) :
  NoDup (map fst d) -> NoDup (map fst (dict_set d k v)).
Proof.
  induction d as [|[k0 v0] d IH]; simpl; intro H.
  - constructor; [intros [] | constructor].
  - inversion H as [|? ? H1 H2]; subst.
    destruct (String.eqb k0 k) eqn:E; simpl.
    + now constructor.
    + constructor; [|now apply IH]. rewrite dict_set_keys.
      intros [H3|H3]; [|contradiction]. subst.
      rewrite String.eqb_refl in E. discriminate.
Qed.

Lemma dict_set_In (d : dict) (k : string) (v : Path) (k' : string) (v' : Path) :
  NoDup (map fst d) ->
  (In (k', v') (dict_set d k v)
   <-> (k' = k /\ v' = v) \/ (k' <> k /\ In (k', v') d)).
Proof.
  induction d as [|[k0 v0] d IH]; simpl; intro H.
  - split.
    + intros [E|[]]. inversion E. now left.
    + intros [[E1 E2]|[_ []]]. subst. now left.
  - inversion H as [|? ? H1 H2]; subst.
    destruct (String.eqb k0 k) eqn:E; simpl.
    + apply String.eqb_eq in E. subst k0. split.
      * intros [E|E]; [inversion E; now left|].
        right. split; [|now right]. intro. subst.
        apply H1. apply in_map_iff. now exists (k, v').
      * intros [[E1 E2]|[N [E|E]]]; subst.
        -- now left.
        -- inversion E. congruence.
        -- now right.
    + apply String.eqb_neq in E. rewrite (IH H2). split.
      * intros [E'|[E'|E']].
        -- inversion E'; subst. right. split; [assumption | now left].
        -- now left.
        -- right. split; [tauto | right; tauto].
      * intros [E'|[N [E'|E']]].
        -- right. now left.
        -- now left.
        -- right. right. now split.
Qed.

Lemma last_with_stem_snoc (files : list Path) (f v : Path) :
  last_with_stem (files ++ [f]) v
  <-> v = f \/ (stem v <> stem f /\ last_with_stem files v).
Proof.
  split.
  - intros [before [after [E H]]].
    destruct after as [|g after0].
    + left. apply app_inj_tail in E as [_ E]. now subst.
    + destruct (@exists_last _ (g :: after0)) as [after' [f' E']];
        [discriminate|].
      rewrite E' in E, H. clear E'.
      replace (before ++ v :: after' ++ [f'])
        with ((before ++ v :: after') ++ [f']) in E
        by now rewrite <- app_assoc.
      apply app_inj_tail in E as [E1 E2]. subst f'. right. split.
      * intro N. apply (H f); [apply in_or_app; right; now left | congruence].
      * exists before, after'. split; [assumption|].
        intros g' Hg'. apply H. apply in_or_app. now left.
  - intros [E | [N [before [after [E H]]]]].
    + subst. exists files, []. split; [reflexivity | intros g []].
    + exists before, (after ++ [f]). split.
      * subst. now rewrite <- app_assoc.
      * intros g Hg. apply in_app_or in Hg as [Hg|[Hg|[]]].
        -- now apply H.
        -- subst. congruence.
Qed.

Lemma dict_of_step (files : list Path) (d : dict) (f : Path) :
  dict_of files d -> dict_of (files ++ [f]) (dict_set d (stem f) f).
Proof.
  intros [N I]. split; [now apply dict_set_NoDup|].
  intros k v. rewrite (dict_set_In d (stem f) f k v N), I, last_with_stem_snoc.
  split.
  - intros [[E1 E2] | [E1 [E2 E3]]].
    + subst. split; [reflexivity | now left].
    + split; [assumption|]. right. split; [congruence | assumption].
  - intros [E1 [E2 | [E2 E3]]].
    + subst. now left.
    + right. split; [congruence | now split].
Qed.

Lemma dict_of_fold (files prefix : list Path) (d : dict) :
  dict_of prefix d ->
  dict_of (prefix ++ files) (fold_left (fun d f => dict_set d (stem f) f) files d).
Proof.
  revert prefix d. induction files as [|f files IH]; intros prefix d H; simpl.
  - now rewrite app_nil_r.
  - replace (prefix ++ f :: files) with ((prefix ++ [f]) ++ files)
      by now rewrite <- app_assoc.
    apply IH. now apply dict_of_step.
Qed.

Lemma stems_of_dict (files : list Path) : dict_of files (stems_of files).
Proof.
  apply (dict_of_fold files [] []). split; [constructor|].
  intros k v. split; [intros []|]. intros [_ [before [after [E _]]]].
  destruct before; discriminate.
Qed.

Lemma last_with_stem_In (files : list Path) (f : Path) :
  last_with_stem files f -> In f files.
Proof.
  intros [before [after [E _]]]. subst. apply in_or_app. right. now left.
Qed.

Lemma last_with_stem_exists (files : list Path) (f : Path) :
  In f files -> exists v, stem v = stem f /\ last_with_stem files v.
Proof.
  induction files as [|g files IH] using rev_ind; [intros []|].
  intro H. destruct (string_dec (stem g) (stem f)) as [E|N].
  - exists g. split; [assumption|]. apply last_with_stem_snoc. now left.
  - apply in_app_or in H as [H|[H|[]]]; [|subst; congruence].
    destruct (IH H) as [v [E L]]. exists v. split; [assumption|].
    apply last_with_stem_snoc. right. split; [congruence | assumption].
Qed.

Lemma dict_get_In (d : dict) (k : string) (v : Path) :
  dict_get d k = Some v -> In (k, v) d.
Proof.
  induction d as [|[k0 v0] d IH]; simpl; [discriminate|].
  destruct (String.eqb k0 k) eqn:E.
  - apply String.eqb_eq in E. intro H. inversion H. subst. now left.
  - intro H. right. now apply IH.
Qed.

Lemma dict_get_key (d : dict) (k : string) :
  In k (map fst d) -> exists v, dict_get d k = Some v.
Proof.
  induction d as [|[k0 v0] d IH]; simpl; [intros []|].
  destruct (String.eqb k0 k) eqn:E; [now exists v0|].
  intros [H|H]; [subst; rewrite String.eqb_refl in E; discriminate | now apply IH].
Qed.

Lemma exact_match_Some (a_stem : string) (d : dict) (k : string) (fb : Path) :
  exact_match a_stem d = Some (k, fb) ->
  In (k, fb) d /\ PyStr.lower a_stem = PyStr.lower k.
Proof.
  intro H. apply find_some in H as [H1 H2]. split; [assumption|].
  now apply String.eqb_eq in H2.
Qed.

Lemma exact_match_None (a_stem : string) (files : list Path) :
  exact_match a_stem (stems_of files) = None
  <-> forall fb, In fb files -> PyStr.lower a_stem <> PyStr.lower (stem fb).
Proof.
  destruct (stems_of_dict files) as [N I]. unfold exact_match. split.
  - intros H fb Hfb E.
    destruct (last_with_stem_exists files fb Hfb) as [v [Ev Lv]].
    assert (Hin : In (stem v, v) (stems_of files)) by now apply I.
    pose proof (find_none _ _ H _ Hin) as F. cbn [fst] in F.
    rewrite Ev, E, String.eqb_refl in F. discriminate.
  - intro H. destruct (find _ (stems_of files)) as [[k v]|] eqn:F;
      [|reflexivity].
    apply find_some in F as [F1 F2]. cbn [fst] in F2.
    apply String.eqb_eq in F2. apply I in F1 as [E L]. subst k.
    exfalso. apply (H v); [now apply last_with_stem_In | assumption].
Qed.

(* ------------------------------------------------------------------------- *)
(** ** pair_files *)

Lemma pair_one_sound (d : dict) (t : Q) (fa : Path) (out : list pair) :
  pair_one d t fa = Some out ->
  forall p, In p out -> fst (fst p) = fa /\ exists k, In (k, snd (fst p)) d.
Proof.
  unfold pair_one.
  destruct (exact_match (stem fa) d) as [[k fb]|] eqn:X.
  - intro H. inversion H. subst. intros p [E|[]]. subst. split; [reflexivity|].
    exists k. now apply exact_match_Some in X.
  - destruct (Difflib.get_close_matches (stem fa) (map fst d) t) as [[|m l]|];
      [| |discriminate].
    + intro H. inversion H. intros p [].
    + destruct (dict_get d m) as [fb|] eqn:G; [|discriminate].
      intro H. inversion H. subst. intros p [E|[]]. subst.
      split; [reflexivity|]. exists m. now apply dict_get_In.
Qed.

Lemma pair_loop_spec (d : dict) (t : Q) :
  forall files acc pairs,
    pair_loop d t files acc = Some pairs ->
    forall p, In p pairs <->
              In p acc
              \/ exists fa out, In fa files /\ pair_one d t fa = Some out
                                /\ In p out.
Proof.
  induction files as [|fa files IH]; intros acc pairs H p.
  - simpl in H. inversion H. subst. split; [now left|].
    intros [H1|[fa [out [[] _]]]]. assumption.
  - cbn [pair_loop] in H. destruct (pair_one d t fa) as [new|] eqn:P;
      [|discriminate].
    rewrite (IH _ _ H p), in_app_iff. split.
    + intros [[H1|H1]|[fa' [out [H1 [H2 H3]]]]].
      * now left.
      * right. exists fa, new. repeat split; [now left | assumption..].
      * right. exists fa', out. repeat split; [now right | assumption..].
    + intros [H1|[fa' [out [[H1|H1] [H2 H3]]]]].
      * left. now left.
      * subst fa'. rewrite P in H2. inversion H2. subst. left. now right.
      * right. exists fa', out. now repeat split.
Qed.

Lemma pair_loop_total (d : dict) (t : Q) :
  forall files acc,
    (forall fa, In fa files -> exists out, pair_one d t fa = Some out) ->
    exists pairs, pair_loop d t files acc = Some pairs.
Proof.
  induction files as [|fa files IH]; intros acc H.
  - now exists acc.
  - cbn [pair_loop]. destruct (H fa (or_introl eq_refl)) as [out E].
    rewrite E. apply IH. intros fa' Hfa'. apply H. now right.
Qed.

Lemma pairs_for_file (files_a files_b : list Path) (t : Q) (fa : Path)
      (pairs out : list pair) :
  pair_files files_a files_b t = Some pairs ->
  In fa files_a ->
  pair_one (stems_of files_b) t fa = Some out ->
  pairs_of_file fa pairs out.
Proof.
  intros H Hfa P p. unfold pair_files in H.
  rewrite (pair_loop_spec _ _ _ _ _ H p). split.
  - intros [[[]|[fa' [out' [H1 [H2 H3]]]]] E].
    destruct (pair_one_sound _ _ _ _ H2 p H3) as [E' _].
    assert (Efa : fa' = fa) by congruence. rewrite Efa in H2.
    rewrite P in H2. inversion H2. now subst.
  - intro Hp. split.
    + right. exists fa, out. now repeat split.
    + now destruct (pair_one_sound _ _ _ _ P p Hp).
Qed.

Lemma nlargest1_In (result : list (Q * string)) (best : Q * string) :
  In best (Difflib.nlargest1 result) -> In best result.
Proof.
  destruct result as [|item l]; [intros []|]. intros [E|[]]. subst.
  apply max_from_In.
Qed.

Lemma get_close_matches_In (word : string) (possibilities : list string)
      (cutoff : Q) (found : list string) (m : string) :
  Difflib.get_close_matches word possibilities cutoff = Some found ->
  In m found -> In m possibilities.
Proof.
  unfold Difflib.get_close_matches.
  destruct (Qle_bool 0 cutoff && Qle_bool cutoff 1); [|discriminate].
  intro H. inversion H. subst. clear H. intro Hm.
  apply in_map_iff in Hm as [[s m'] [E Hm]]. cbn [snd] in E. subst m'.
  apply nlargest1_In in Hm. rewrite close_loop_eq in Hm. cbn [app] in Hm.
  apply in_map_iff in Hm as [x [E Hx]]. inversion E. subst.
  now apply filter_In in Hx.
Qed.

Lemma pair_one_total (d : dict) (t : Q) (fa : Path) :
  Qle 0 t -> Qle t 1 -> exists out, pair_one d t fa = Some out.
Proof.
  intros H0 H1. unfold pair_one.
  destruct (exact_match (stem fa) d) as [[k fb]|]; [now eexists|].
  destruct (Difflib.get_close_matches (stem fa) (map fst d) t)
    as [[|m l]|] eqn:G.
  - now eexists.
  - assert (Hm : In m (map fst d)).
    { apply (get_close_matches_In _ _ _ _ m G). now left. }
    destruct (dict_get_key d m Hm) as [fb E]. rewrite E. now eexists.
  - unfold Difflib.get_close_matches in G.
    apply Qle_bool_iff in H0, H1. rewrite H0, H1 in G. discriminate.
Qed.

Lemma pair_files_total (files_a files_b : list Path) (t : Q) :
  Qle 0 t -> Qle t 1 -> exists pairs, pair_files files_a files_b t = Some pairs.
Proof.
  intros H0 H1. apply pair_loop_total. intros fa _. now apply pair_one_total.
Qed.

(** C5.  An A file whose base name equals the base name of some B file up to
    case is paired with such a B file at score 1, whatever the threshold, even
    one for which fuzzy matching would raise; this is its only pair. *)
Theorem exact_pairing :
  forall (files_b : list Path) (threshold : Q) (fa : Path),
    (exists fb, In fb files_b
                /\ PyStr.lower (stem fa) = PyStr.lower (stem fb)) ->
    exists fb',
      In fb' files_b
      /\ PyStr.lower (stem fa) = PyStr.lower (stem fb')
      /\ pair_one (stems_of files_b) threshold fa = Some [(fa, fb', 1%Q)]
      /\ (forall files_a pairs,
             In fa files_a ->
             pair_files files_a files_b threshold = Some pairs ->
             pairs_of_file fa pairs [(fa, fb', 1%Q)])
      /\ (Qle 0 threshold -> Qle threshold 1 ->
          forall files_a,
          exists pairs, pair_files files_a files_b threshold = Some pairs).
Proof.
  intros files_b t fa [fb [Hfb E]].
  destruct (exact_match (stem fa) (stems_of files_b)) as [[k fb']|] eqn:X.
  - pose proof (exact_match_Some _ _ _ _ X) as [Hin El].
    destruct (stems_of_dict files_b) as [_ I]. apply I in Hin as [Ek L].
    subst k.
    assert (P : pair_one (stems_of files_b) t fa = Some [(fa, fb', 1%Q)]).
    { unfold pair_one. now rewrite X. }
    exists fb'. split; [now apply last_with_stem_In|].
    split; [assumption|]. split; [exact P|]. split.
    + intros files_a pairs Hfa H. now apply (pairs_for_file files_a files_b t).
    + intros H0 H1 files_a. now apply pair_files_total.
  - exfalso. rewrite exact_match_None in X. now apply (X fb).
Qed.

(** The example of the claim: Report against report and Report2024. *)
Lemma exact_pairing_witness :
  pair_files [file "Report" ".xlsx"]
             [file "report" ".xlsx"; file "Report2024" ".xlsx"] (1 # 2)%Q
  = Some [(file "Report" ".xlsx", file "report" ".xlsx", 1%Q)]
  /\ exists fb',
      pair_one (stems_of [file "report" ".xlsx"; file "Report2024" ".xlsx"])
               (1 # 2)%Q (file "Report" ".xlsx")
      = Some [(file "Report" ".xlsx", fb', 1%Q)].
Proof.
  split; [vm_compute; reflexivity|].
  destruct (exact_pairing [file "report" ".xlsx"; file "Report2024" ".xlsx"]
                          (1 # 2)%Q (file "Report" ".xlsx"))
    as [fb' [_ [_ [P _]]]].
  - exists (file "report" ".xlsx"). split; [now left | reflexivity].
  - now exists fb'.
Defined.

(** C9.  The B file of every emitted pair, exact or fuzzy, is the last file
    of its base name in the enumeration of B: no later B file has the same
    base name. *)
Theorem last_file_of_a_stem_is_paired :
  forall (files_a files_b : list Path) (threshold : Q) (pairs : list pair)
         (p : pair),
    pair_files files_a files_b threshold = Some pairs ->
    In p pairs ->
    In (fst (fst p)) files_a
    /\ last_with_stem files_b (snd (fst p)).
Proof.
  intros files_a files_b t pairs p H Hp. unfold pair_files in H.
  apply (pair_loop_spec _ _ _ _ _ H) in Hp as [[]|[fa [out [H1 [H2 H3]]]]].
  destruct (pair_one_sound _ _ _ _ H2 p H3) as [E [k Hk]].
  split; [now rewrite E|].
  destruct (stems_of_dict files_b) as [_ I]. now apply I in Hk.
Qed.

(** Two workbooks of B named report: only the later one is paired, by an
    exact match and by a fuzzy match. *)
Lemma last_file_of_a_stem_is_paired_witness :
  pair_files [file "Report" ".xlsx"; file "reports" ".xlsx"]
             [file "report" ".xlsx"; file "other" ".xlsx"; file "report" ".xls"]
             (1 # 2)
  = Some [(file "Report" ".xlsx", file "report" ".xls", 1%Q);
          (file "reports" ".xlsx", file "report" ".xls", (12 # 13)%Q)]
  /\ last_with_stem
       [file "report" ".xlsx"; file "other" ".xlsx"; file "report" ".xls"]
       (file "report" ".xls").
Proof.
  assert (E : pair_files [file "Report" ".xlsx"; file "reports" ".xlsx"]
                [file "report" ".xlsx"; file "other" ".xlsx";
                 file "report" ".xls"] (1 # 2)
              = Some [(file "Report" ".xlsx", file "report" ".xls", 1%Q);
                      (file "reports" ".xlsx", file "report" ".xls", (12 # 13)%Q)])
    by (vm_compute; reflexivity).
  split; [exact E|].
  apply (last_file_of_a_stem_is_paired _ _ _ _
           (file "reports" ".xlsx", file "report" ".xls", (12 # 13)%Q) E).
  right. now left.
Defined.

Lemma stem_is_key (files_b : list Path) (fb : Path) :
  In fb files_b -> In (stem fb) (map fst (stems_of files_b)).
Proof.
  intro H. destruct (last_with_stem_exists files_b fb H) as [v [E L]].
  destruct (stems_of_dict files_b) as [_ I].
  apply in_map_iff. exists (stem v, v). split; [exact E|]. now apply I.
Qed.

Lemma key_is_stem (files_b : list Path) (k : string) :
  In k (map fst (stems_of files_b)) ->
  exists fb, In fb files_b /\ stem fb = k.
Proof.
  intro H. apply in_map_iff in H as [[k' v] [E H]]. cbn [fst] in E. subst k'.
  destruct (stems_of_dict files_b) as [_ I]. apply I in H as [E L].
  exists v. split; [now apply last_with_stem_In | assumption].
Qed.

Lemma not_Qle_bool (x y : Q) : Qle_bool x y = false -> Qlt y x.
Proof.
  intro H. apply Qnot_le_lt. intro L. apply Qle_bool_iff in L. congruence.
Qed.

(** C6, as amended.  For a threshold between 0 and 1 and an A file whose base
    name equals no base name of B up to case, a pair is emitted exactly when
    some base name of B reaches the threshold in similarity ratio, the ratio
    being taken with the name of B as first sequence and the name of A as
    second, and rounded to a double as Python holds it.  The pair carries a B
    file whose name has the greatest such ratio, and among equal ratios the
    greatest name.  A name whose exact ratio reaches a threshold that is a
    double is paired.  When every name stays below the threshold nothing is
    emitted and nothing is raised; with threshold 0 and a non-empty B a pair
    is always emitted. *)
Theorem fuzzy_pairing :
  forall (files_b : list Path) (threshold : Q) (fa : Path),
    (forall fb, In fb files_b ->
                PyStr.lower (stem fa) <> PyStr.lower (stem fb)) ->
    Qle 0 threshold -> Qle threshold 1 ->
    exists out,
      pair_one (stems_of files_b) threshold fa = Some out
      /\ (forall files_a pairs,
             In fa files_a ->
             pair_files files_a files_b threshold = Some pairs ->
             pairs_of_file fa pairs out)
      /\ (out = [] <->
          forall fb, In fb files_b ->
                     Qlt (selection_score (stem fb) (stem fa)) threshold)
      /\ (forall p, In p out ->
            out = [p] /\ fst (fst p) = fa /\ In (snd (fst p)) files_b
            /\ Qle threshold
                   (selection_score (stem (snd (fst p))) (stem fa))
            /\ forall fb,
                In fb files_b ->
                Qle (selection_score (stem fb) (stem fa))
                    (selection_score (stem (snd (fst p))) (stem fa))
                /\ (Qeq (selection_score (stem fb) (stem fa))
                        (selection_score (stem (snd (fst p))) (stem fa)) ->
                    PyStr.ltb (stem (snd (fst p))) (stem fb) = false))
      /\ (Qeq (Binary64.double threshold) threshold ->
          forall fb, In fb files_b ->
                     Qle threshold (selection_ratio (stem fb) (stem fa)) ->
                     out <> [])
      /\ (Qeq threshold 0 -> files_b <> [] -> out <> [])
      /\ (forall files_a,
          exists pairs, pair_files files_a files_b threshold = Some pairs).
Proof.
  intros files_b t fa Hx H0 H1.
  assert (Total : forall files_a,
             exists pairs, pair_files files_a files_b t = Some pairs)
    by (intro files_a; now apply pair_files_total).
  apply exact_match_None in Hx.
  assert (Link : forall out,
             pair_one (stems_of files_b) t fa = Some out ->
             forall files_a pairs,
               In fa files_a ->
               pair_files files_a files_b t = Some pairs ->
               pairs_of_file fa pairs out).
  { intros out P files_a pairs Hfa H.
    now apply (pairs_for_file files_a files_b t). }
  revert Link. unfold pair_one. rewrite Hx. unfold Difflib.get_close_matches.
  pose proof H0 as Q0.
  apply Qle_bool_iff in H0, H1. rewrite H0, H1. cbn [andb].
  rewrite close_loop_eq. cbn [app].
  set (g := fun x => (Binary64.double
                        (Difflib.ratio (PyStr.chars x)
                                       (PyStr.chars (stem fa))), x)).
  set (pass := fun x => Qle_bool t (Binary64.double
                                      (Difflib.ratio (PyStr.chars x)
                                         (PyStr.chars (stem fa))))).
  assert (Hpass : forall fb, In fb files_b ->
                    pass (stem fb) = false ->
                    Qlt (selection_score (stem fb) (stem fa)) t).
  { intros fb _ P. now apply not_Qle_bool. }
  assert (Hexact : Qeq (Binary64.double t) t ->
                   forall fb, In fb files_b ->
                     Qle t (selection_ratio (stem fb) (stem fa)) ->
                     pass (stem fb) = true).
  { intros D fb _ R. unfold pass. apply Qle_bool_iff.
    apply Qle_trans with (Binary64.double t).
    - rewrite D. apply Qle_refl.
    - apply double_mono; assumption. }
  destruct (filter pass (map fst (stems_of files_b))) as [|x rest] eqn:F.
  - intro Link. exists []. split; [reflexivity|].
    split; [now apply Link|]. split; [|split; [|split; [|split]]].
    + split; [|reflexivity]. intros _ fb Hfb. apply (Hpass fb Hfb).
      destruct (pass (stem fb)) eqn:P; [|reflexivity].
      assert (In (stem fb) (filter pass (map fst (stems_of files_b)))).
      { apply filter_In. split; [now apply stem_is_key | assumption]. }
      rewrite F in H. destruct H.
    + intros p [].
    + intros D fb Hfb R. exfalso.
      assert (In (stem fb) (filter pass (map fst (stems_of files_b)))).
      { apply filter_In. split; [now apply stem_is_key|].
        now apply Hexact. }
      rewrite F in H. destruct H.
    + intros Et Hne. exfalso. destruct files_b as [|fb files_b];
        [now apply Hne|].
      assert (In (stem fb) (filter pass (map fst (stems_of (fb :: files_b))))).
      { apply filter_In. split; [apply stem_is_key; now left|].
        unfold pass. apply Qle_bool_iff. rewrite Et.
        apply double_nonneg, calculate_ratio_nonneg. }
      rewrite F in H. destruct H.
    + exact Total.
  - cbn [map Difflib.nlargest1].
    pose proof (max_from_In (g x) (map g rest)) as Hin.
    pose proof (max_from_max (g x) (map g rest)) as Hmax.
    destruct (Difflib.max_from (g x) (map g rest)) as [s m] eqn:Best.
    change (g x :: map g rest) with (map g (x :: rest)) in Hin, Hmax.
    rewrite <- F in Hin, Hmax.
    apply in_map_iff in Hin as [m' [Em Hm]]. unfold g in Em.
    injection Em as Es0 Em'. subst m'. apply filter_In in Hm as [Hkey Hm].
    destruct (dict_get_key _ _ Hkey) as [fb G]. cbn [map snd]. rewrite G.
    pose proof (dict_get_In _ _ _ G) as Hd.
    destruct (stems_of_dict files_b) as [_ I]. apply I in Hd as [Es L].
    intro Link. eexists. split; [reflexivity|].
    split; [now apply Link|]. split; [|split; [|split; [|split]]].
    + split; [discriminate|]. intro A. exfalso.
      specialize (A fb (last_with_stem_In _ _ L)).
      unfold pass in Hm. apply Qle_bool_iff in Hm.
      unfold selection_score, selection_ratio in A. rewrite Es in A.
      apply (Qlt_irrefl t). eapply Qle_lt_trans; eassumption.
    + intros p [Ep|[]]. subst p. cbn [fst snd].
      split; [reflexivity|]. split; [reflexivity|].
      split; [now apply last_with_stem_In|].
      unfold selection_score, selection_ratio. rewrite Es.
      assert (Tm : Qle t (Binary64.double
                            (Difflib.ratio (PyStr.chars m)
                                           (PyStr.chars (stem fa)))))
        by now apply Qle_bool_iff.
      split; [exact Tm|].
      intros fb' Hfb'. destruct (pass (stem fb')) eqn:P.
      * assert (Hg : In (g (stem fb'))
                        (map g (filter pass (map fst (stems_of files_b))))).
        { apply in_map. apply filter_In. split; [now apply stem_is_key|].
          exact P. }
        apply Hmax in Hg. unfold g in Hg. rewrite <- Es0 in Hg.
        apply tuple_le_iff in Hg. exact Hg.
      * pose proof (Hpass fb' Hfb' P) as Lt.
        unfold selection_score, selection_ratio in Lt.
        split.
        -- apply Qlt_le_weak. eapply Qlt_le_trans; eassumption.
        -- intro E. exfalso. rewrite E in Lt.
           apply (Qlt_irrefl t). eapply Qle_lt_trans; eassumption.
    + intros _ _ _ _. discriminate.
    + intros _ _. discriminate.
    + exact Total.
Qed.

(** The example of the claim: data_2023 against data_2024 at threshold 0.95
    gives no pair, the ratio 16/18 being below the threshold.  At the double
    that Python reads from 0.9, which lies above 9/10, a name whose ratio is
    18/20 is paired: the double of 18/20 is that same double. *)
Lemma fuzzy_pairing_witness :
  pair_one (stems_of [file "data_2024" ".xlsx"]) (19 # 20)%Q
           (file "data_2023" ".xlsx")
  = Some []
  /\ Qlt (18 # 20) (8106479329266893 # 9007199254740992)
  /\ pair_one (stems_of [file "abcdefghiX" ".xlsx"])
              (8106479329266893 # 9007199254740992)%Q
              (file "abcdefghij" ".xlsx")
     = Some [(file "abcdefghij" ".xlsx", file "abcdefghiX" ".xlsx",
              (18 # 20)%Q)].
Proof.
  split; [|split; vm_compute; reflexivity].
  destruct (fuzzy_pairing [file "data_2024" ".xlsx"] (19 # 20)%Q
                          (file "data_2023" ".xlsx"))
    as [out [P [_ [B _]]]].
  - intros fb [E|[]]. subst. vm_compute. discriminate.
  - vm_compute. discriminate.
  - vm_compute. discriminate.
  - rewrite P. f_equal. apply B. intros fb [E|[]]. subst.
    vm_compute. reflexivity.
Defined.

(** C6, counterexample.  With threshold 1/2, tide is paired with diet, the
    ratio 4/8 of diet against tide having reached the threshold, but the score
    of the pair is 2/8, below the threshold: the score is a ratio taken in the
    other order.  In the other direction diet finds no pair, although its
    ratio against tide, as the score would take it, is 4/8.  With threshold
    3/2 the call raises instead of skipping the file. *)
Lemma fuzzy_pairing_score_and_range :
  pair_files [file "tide" ".xlsx"] [file "diet" ".xlsx"] (1 # 2)%Q
  = Some [(file "tide" ".xlsx", file "diet" ".xlsx", (2 # 8)%Q)]
  /\ selection_ratio "diet" "tide" = (4 # 8)%Q
  /\ Qlt (2 # 8) (1 # 2)
  /\ pair_files [file "diet" ".xlsx"] [file "tide" ".xlsx"] (1 # 2)%Q = Some []
  /\ Difflib.ratio (PyStr.chars "diet") (PyStr.chars "tide") = (4 # 8)%Q
  /\ Qle (1 # 2) (4 # 8)
  /\ pair_files [file "tide" ".xlsx"] [file "diet" ".xlsx"] (3 # 2)%Q = None.
Proof.
  repeat split; try (vm_compute; reflexivity). vm_compute. discriminate.
Qed.

(** C10.  Without an exact match the raw base names go to the fuzzy matcher,
    for the choice of the candidate and for the score.  REPORT_2023 finds no
    pair in report_2024 at threshold 9/10, although the two names in lower
    case have ratio 20/22; Data_2023x is paired with data_2023y at threshold
    4/5 with score 16/20, the ratio of the names in lower case being 18/20. *)
Theorem fuzzy_matching_is_case_sensitive :
  (forall (stems_b : dict) (threshold : Q) (fa : Path),
      exact_match (stem fa) stems_b = None ->
      pair_one stems_b threshold fa
      = match Difflib.get_close_matches (stem fa) (map fst stems_b) threshold
        with
        | None => None
        | Some [] => Some []
        | Some (m :: _) =>
            match dict_get stems_b m with
            | Some fb =>
                Some [(fa, fb,
                       Difflib.ratio (PyStr.chars (stem fa)) (PyStr.chars m))]
            | None => None
            end
        end)
  /\ (exists fa fb t,
         Qle 0 t /\ Qle t 1
         /\ stem fa = "REPORT_2023" /\ stem fb = "report_2024"
         /\ exact_match (stem fa) (stems_of [fb]) = None
         /\ pair_files [fa] [fb] t = Some []
         /\ Qle t (selection_ratio (PyStr.lower (stem fb))
                                   (PyStr.lower (stem fa)))
         /\ Qle t (selection_ratio (PyStr.lower (stem fa))
                                   (PyStr.lower (stem fb))))
  /\ (exists fa fb t,
         Qle 0 t /\ Qle t 1
         /\ stem fa = "Data_2023x" /\ stem fb = "data_2023y"
         /\ pair_files [fa] [fb] t = Some [(fa, fb, (16 # 20)%Q)]
         /\ selection_ratio (PyStr.lower (stem fb)) (PyStr.lower (stem fa))
            = (18 # 20)%Q
         /\ selection_ratio (PyStr.lower (stem fa)) (PyStr.lower (stem fb))
            = (18 # 20)%Q).
Proof.
  split; [|split].
  - intros stems_b t fa X. unfold pair_one. rewrite X.
    destruct (Difflib.get_close_matches _ _ _) as [[|m l]|]; reflexivity.
  - exists (file "REPORT_2023" ".xlsx"), (file "report_2024" ".xlsx"),
      (9 # 10)%Q.
    repeat split; try (vm_compute; reflexivity); vm_compute; discriminate.
  - exists (file "Data_2023x" ".xlsx"), (file "data_2023y" ".xlsx"),
      (4 # 5)%Q.
    repeat split; try (vm_compute; reflexivity); vm_compute; discriminate.
Qed.

(* ------------------------------------------------------------------------- *)
(** ** The loops of the matcher run to their end *)

Lemma extend_left_enough (a b : list ascii) (junk : bool) (alo blo : nat) :
  forall fuel n i j k,
    i <= fuel ->
    Difflib.extend_left a b junk (fuel + n) alo blo (i, j, k)
    = Difflib.extend_left a b junk fuel alo blo (i, j, k).
Proof.
  induction fuel as [|fuel IH]; intros n i j k H.
  - assert (i = 0) by lia. subst. destruct n; [reflexivity|].
    simpl. now destruct alo.
  - cbn [Nat.add Difflib.extend_left].
    destruct ((alo <? i) && (blo <? j)
              && Bool.eqb (Difflib.junk_at b (j - 1)) junk
              && Difflib.same_at a b (i - 1) (j - 1)); [|reflexivity].
    apply IH. lia.
Qed.

Lemma extend_right_enough (a b : list ascii) (junk : bool) (ahi bhi : nat) :
  forall fuel n i j k,
    ahi - (i + k) <= fuel ->
    Difflib.extend_right a b junk (fuel + n) ahi bhi (i, j, k)
    = Difflib.extend_right a b junk fuel ahi bhi (i, j, k).
Proof.
  induction fuel as [|fuel IH]; intros n i j k H.
  - destruct n; [reflexivity|]. cbn [Nat.add Difflib.extend_right].
    replace (i + k <? ahi) with false; [reflexivity|].
    symmetry. apply Nat.ltb_ge. lia.
  - cbn [Nat.add Difflib.extend_right].
    destruct ((i + k <? ahi) && (j + k <? bhi)
              && Bool.eqb (Difflib.junk_at b (j + k)) junk
              && Difflib.same_at a b (i + k) (j + k)) eqn:C; [|reflexivity].
    apply IH. apply andb_true_iff in C as [C _].
    apply andb_true_iff in C as [C _]. apply andb_true_iff in C as [C _].
    apply Nat.ltb_lt in C. lia.
Qed.

(** More rounds than [len(a)] change nothing in [find_longest_match]. *)
Lemma find_longest_match_enough (a b : list ascii) (alo ahi blo bhi n : nat) :
  alo <= ahi -> ahi <= List.length a -> blo <= bhi ->
  Difflib.extend_right a b true (List.length a + n) ahi bhi
    (Difflib.extend_left a b true (List.length a + n) alo blo
       (Difflib.extend_right a b false (List.length a + n) ahi bhi
          (Difflib.extend_left a b false (List.length a + n) alo blo
             (Difflib.scan_rows a b (seq alo (ahi - alo)) blo bhi
                                (fun _ => 0) (alo, blo, 0)))))
  = Difflib.find_longest_match a b alo ahi blo bhi.
Proof.
  intros Ha Hl Hb. unfold Difflib.find_longest_match.
  assert (V0 : valid_block a b (alo, ahi, blo, bhi)
                 (Difflib.scan_rows a b (seq alo (ahi - alo)) blo bhi
                                    (fun _ => 0) (alo, blo, 0))).
  { apply scan_rows_ok; try lia.
    - intros j Hj. lia.
    - unfold valid_block. repeat split; intros; lia. }
  destruct (Difflib.scan_rows a b (seq alo (ahi - alo)) blo bhi
                              (fun _ => 0) (alo, blo, 0)) as [[i0 j0] k0].
  rewrite extend_left_enough by (destruct V0 as [? [? _]]; lia).
  pose proof (extend_left_ok a b false alo ahi blo bhi (List.length a) _ V0)
    as V1.
  destruct (Difflib.extend_left a b false (List.length a) alo blo (i0, j0, k0))
    as [[i1 j1] k1].
  rewrite extend_right_enough by lia.
  pose proof (extend_right_ok a b false alo ahi blo bhi (List.length a) _ V1)
    as V2.
  destruct (Difflib.extend_right a b false (List.length a) ahi bhi (i1, j1, k1))
    as [[i2 j2] k2].
  rewrite extend_left_enough by (destruct V2 as [? [? _]]; lia).
  destruct (Difflib.extend_left a b true (List.length a) alo blo (i2, j2, k2))
    as [[i3 j3] k3].
  rewrite extend_right_enough by lia. reflexivity.
Qed.

Lemma blocks_loop_nil (a b : list ascii) (fuel : nat) (acc : list Difflib.block) :
  Difflib.blocks_loop a b fuel [] acc = acc.
Proof. destruct fuel; reflexivity. Qed.

(** A queue of weight at most [fuel] is emptied within [fuel] rounds. *)
Lemma blocks_loop_enough (a b : list ascii) :
  forall fuel n queue acc,
    Forall window_ok queue -> weight queue <= fuel ->
    Difflib.blocks_loop a b (fuel + n) queue acc
    = Difflib.blocks_loop a b fuel queue acc.
Proof.
  induction fuel as [|fuel IH]; intros n queue acc W Hw.
  - destruct queue as [|[[[alo ahi] blo] bhi] queue].
    + now rewrite !blocks_loop_nil.
    + unfold weight in Hw. cbn [fold_right] in Hw. lia.
  - destruct queue as [|[[[alo ahi] blo] bhi] queue]; [reflexivity|].
    inversion W as [|? ? Wk W']; subst. destruct Wk as [Wa Wb].
    cbn [Nat.add Difflib.blocks_loop].
    pose proof (find_longest_match_valid a b alo ahi blo bhi Wa Wb) as V.
    destruct (Difflib.find_longest_match a b alo ahi blo bhi) as [[i j] k].
    destruct V as [V1 [V2 [V3 [V4 _]]]].
    cbn [weight fold_right] in Hw. fold (weight queue) in Hw.
    destruct (0 <? k) eqn:K.
    + apply Nat.ltb_lt in K.
      set (q1 := if (alo <? i) && (blo <? j)
                 then (alo, i, blo, j) :: queue else queue).
      set (q2 := if (i + k <? ahi) && (j + k <? bhi)
                 then (i + k, ahi, j + k, bhi) :: q1 else q1).
      assert (W1 : Forall window_ok q1
                   /\ weight q1 <= (i - alo) + weight queue).
      { unfold q1. destruct ((alo <? i) && (blo <? j)) eqn:C.
        - apply andb_true_iff in C as [C _]. apply Nat.ltb_lt in C.
          split; [constructor; [split; lia | exact W']|].
          unfold weight. cbn [fold_right]. fold (weight queue). lia.
        - split; [exact W' | lia]. }
      destruct W1 as [W1 C1].
      assert (W2 : Forall window_ok q2
                   /\ weight q2 <= (ahi - (i + k)) + weight q1).
      { unfold q2. destruct ((i + k <? ahi) && (j + k <? bhi)) eqn:C.
        - apply andb_true_iff in C as [C _]. apply Nat.ltb_lt in C.
          split; [constructor; [split; lia | exact W1]|].
          unfold weight. cbn [fold_right]. fold (weight q1). lia.
        - split; [exact W1 | lia]. }
      destruct W2 as [W2 C2].
      apply IH; [exact W2 | lia].
    + apply IH; [exact W' | lia].
Qed.

(** More rounds than [len(a) + 1] change nothing in [get_matching_blocks]. *)
Lemma get_matching_blocks_enough (a b : list ascii) (n : nat) :
  Difflib.blocks_loop a b (S (List.length a) + n)
                      [(0, List.length a, 0, List.length b)] []
  = Difflib.get_matching_blocks a b.
Proof.
  unfold Difflib.get_matching_blocks. apply blocks_loop_enough.
  - constructor; [split; lia | constructor].
  - unfold weight. cbn [fold_right]. lia.
Qed.

(* ------------------------------------------------------------------------- *)
(** ** Further facts about compare_dataframes *)

Lemma index_equals_refl (l : list scalar) : index_equals l l = true.
Proof. apply cells_eqb_eq. reflexivity. Qed.

Lemma equals_refl (x : selection) : equals x x = true.
Proof.
  destruct x as [ls ds vs | ls ds rs]; cbn [equals];
    repeat (apply andb_true_iff; split).
  - now apply labels_eqb_eq.
  - now apply dtype_eqb_eq.
  - now apply cells_eqb_eq.
  - now apply labels_eqb_eq.
  - now apply dtypes_eqb_eq.
  - now apply body_eqb_eq.
Qed.

Lemma differsb_same (p : nat) (df : DataFrame) (k : scalar) :
  differsb p p df df k = false.
Proof. unfold differsb. now rewrite equals_refl. Qed.

Lemma difference_self (l : list scalar) : difference l l = [].
Proof. unfold difference. now rewrite index_equals_refl. Qed.

(** The two modes of the diff, for a table A with distinct labels. *)
Lemma compare_dataframes_modes (df_a df_b : DataFrame) :
  NoDup (columns df_a) ->
  (exists key,
      find_key_column df_a = Some (Some key) /\ key <> EmptyString
      /\ In key (columns df_a) /\ In key (columns df_b)
      /\ compare_dataframes df_a df_b = compare_by_key key df_a df_b)
  \/ ((find_key_column df_a = Some None
       \/ exists key, find_key_column df_a = Some (Some key)
                      /\ (key = EmptyString \/ ~ In key (columns df_b)))
      /\ compare_dataframes df_a df_b = compare_by_hash df_a df_b).
Proof.
  intro Na. unfold compare_dataframes.
  pose proof (find_key_column_eq df_a Na) as E.
  destruct (find_key_column df_a) as [[key|]|] eqn:K; [| |discriminate].
  - destruct (truthy key && in_columns key (columns df_b)) eqn:T.
    + left. apply andb_true_iff in T as [T1 T2]. apply in_columns_In in T2.
      exists key. split; [reflexivity|].
      split; [intro; subst; discriminate|].
      split; [now apply find_key_column_In|]. now split.
    + right. split; [|reflexivity]. right. exists key.
      split; [reflexivity|]. apply andb_false_iff in T as [T|T].
      * left. now destruct key.
      * right. intro H. apply in_columns_In in H. congruence.
  - right. split; [now left | reflexivity].
Qed.

Lemma compare_dataframes_by_hash (df_a df_b : DataFrame) :
  (find_key_column df_a = Some None
   \/ exists key, find_key_column df_a = Some (Some key)
                  /\ (key = EmptyString \/ ~ In key (columns df_b))) ->
  compare_dataframes df_a df_b = compare_by_hash df_a df_b.
Proof.
  unfold compare_dataframes. intros [H | [key [H [N|N]]]]; rewrite H.
  - reflexivity.
  - now subst.
  - destruct (in_columns key (columns df_b)) eqn:I.
    + apply in_columns_In in I. contradiction.
    + now rewrite andb_false_r.
Qed.

Lemma nth_columns_of (n p : nat) (rs : list (list scalar)) :
  p < n -> In (map (key_of p) rs) (columns_of n rs).
Proof.
  intro H. unfold columns_of. apply in_map_iff. exists p.
  split; [reflexivity|]. apply in_seq. lia.
Qed.

Lemma position_lt (c : string) (cols : list string) (p : nat) :
  position c cols = Some p -> p < List.length cols.
Proof.
  revert p. induction cols as [|x cols IH]; intros p; simpl; [discriminate|].
  destruct (String.eqb x c).
  - intro H. inversion H. lia.
  - destruct (position c cols) as [q|]; [|discriminate].
    intro H. inversion H. specialize (IH q eq_refl). lia.
Qed.

(** In a table where no column holds text beside a blank, no key column can
    make the selection of the added rows raise. *)
Lemma no_blank_no_mask (key : string) (df_a df_b : DataFrame) :
  In key (columns df_b) ->
  blank_beside_text df_b = false ->
  ~ only_missing_key_is_new (key_position key df_a) (key_position key df_b)
      df_a df_b.
Proof.
  intros Hb B [D E].
  set (pb := key_position key df_b) in *.
  assert (I : In (keys_of pb df_b)
                 (columns_of (List.length (columns df_b)) (rows df_b))).
  { apply nth_columns_of. apply (position_lt key).
    now apply key_position_eq. }
  assert (N : In NaN (keys_of pb df_b)).
  { apply (difference_In _ (keys_of (key_position key df_a) df_a)).
    rewrite E. now left. }
  unfold blank_beside_text in B.
  assert (F : existsb is_str (keys_of pb df_b)
              && existsb isna (keys_of pb df_b) = false).
  { destruct (existsb is_str (keys_of pb df_b)
              && existsb isna (keys_of pb df_b)) eqn:X; [|reflexivity].
    rewrite <- B. symmetry. apply existsb_exists.
    exists (keys_of pb df_b). now split. }
  apply has_nan_In in N. rewrite N, andb_true_r in F.
  unfold dtype_of in D. rewrite F, N in D. discriminate.
Qed.

(** When the diff raises, for tables with distinct labels. *)
Lemma compare_dataframes_raises (df_a df_b : DataFrame) :
  NoDup (columns df_a) -> NoDup (columns df_b) ->
  (compare_dataframes df_a df_b = None
   <-> exists key,
         find_key_column df_a = Some (Some key) /\ key <> EmptyString
         /\ In key (columns df_b)
         /\ only_missing_key_is_new (key_position key df_a)
                                    (key_position key df_b) df_a df_b).
Proof.
  intros Na Nb.
  destruct (compare_dataframes_modes df_a df_b Na)
    as [[key [K [Ne [Ha [Hb E]]]]] | [H E]].
  - destruct (compare_dataframes_by_key df_a df_b key Na Nb K Ne Hb)
      as [Raise _]. split.
    + intro H. exists key. repeat (split; [assumption|]). now apply Raise.
    + intros [key' [K' [_ [_ O]]]]. rewrite K in K'. inversion K'. subst key'.
      now apply Raise.
  - rewrite E. unfold compare_by_hash. split; [discriminate|].
    intros [key [K [Ne [Hb _]]]]. exfalso.
    destruct H as [H | [key' [H [N|N]]]]; rewrite K in H;
      [discriminate | |]; inversion H; subst key'; contradiction.
Qed.

Lemma compare_dataframes_defined (df_a df_b : DataFrame) :
  NoDup (columns df_a) -> NoDup (columns df_b) ->
  blank_beside_text df_b = false ->
  exists added modified, compare_dataframes df_a df_b = Some (added, modified).
Proof.
  intros Na Nb B.
  destruct (compare_dataframes df_a df_b) as [[added modified]|] eqn:C.
  - now exists added, modified.
  - exfalso.
    destruct (proj1 (compare_dataframes_raises df_a df_b Na Nb) C)
      as [key [_ [_ [Hb O]]]].
    now apply (no_blank_no_mask key df_a df_b Hb B).
Qed.

(** X1.  Between two tables whose labels name one column each, the diff
    raises in one case only: a key column is used, in B it holds text, and
    the missing key is the only key of B that A lacks.  In particular it
    returns its two tables whenever no column of B holds text beside a
    blank. *)
Theorem compare_dataframes_returns :
  forall df_a df_b : DataFrame,
    NoDup (columns df_a) -> NoDup (columns df_b) ->
    well_formed df_a -> well_formed df_b ->
    (compare_dataframes df_a df_b = None
     <-> exists key,
           find_key_column df_a = Some (Some key) /\ key <> EmptyString
           /\ In key (columns df_b)
           /\ only_missing_key_is_new (key_position key df_a)
                                      (key_position key df_b) df_a df_b)
    /\ (blank_beside_text df_b = false ->
        exists added modified,
          compare_dataframes df_a df_b = Some (added, modified)).
Proof.
  intros df_a df_b Na Nb _ _. split.
  - now apply compare_dataframes_raises.
  - now apply compare_dataframes_defined.
Qed.

Lemma compare_dataframes_returns_witness :
  (compare_dataframes text_keys_A blank_key_B = None
   <-> exists key,
         find_key_column text_keys_A = Some (Some key) /\ key <> EmptyString
         /\ In key (columns blank_key_B)
         /\ only_missing_key_is_new (key_position key text_keys_A)
                                    (key_position key blank_key_B)
                                    text_keys_A blank_key_B)
  /\ exists added modified,
      compare_dataframes swapped_A renamed_B = Some (added, modified).
Proof.
  split.
  - apply (compare_dataframes_returns text_keys_A blank_key_B); table_facts.
  - apply (compare_dataframes_returns swapped_A renamed_B); table_facts.
Defined.

(** X2.  Every row reported, as added or as modified, is a row of B.  When a
    key column is used it is that row with the cell of the key column of B
    moved to the front; without one, only added rows are reported, as they
    stand in B.  Rows that only A has are never reported. *)
Theorem reported_rows_come_from_B :
  forall (df_a df_b added modified : DataFrame),
    NoDup (columns df_a) -> NoDup (columns df_b) ->
    well_formed df_a -> well_formed df_b ->
    compare_dataframes df_a df_b = Some (added, modified) ->
    (forall key,
        find_key_column df_a = Some (Some key) -> key <> EmptyString ->
        In key (columns df_b) ->
        forall r, In r (rows added) \/ In r (rows modified) ->
                  exists rb, In rb (rows df_b)
                             /\ r = key_first (key_position key df_b) rb)
    /\ ((find_key_column df_a = Some None
         \/ exists key, find_key_column df_a = Some (Some key)
                        /\ (key = EmptyString \/ ~ In key (columns df_b))) ->
        rows modified = []
        /\ forall r, In r (rows added) -> In r (rows df_b)).
Proof.
  intros df_a df_b added modified Na Nb _ _ H. split.
  - intros key K Ne Hb r Hr.
    destruct (compare_dataframes_by_key df_a df_b key Na Nb K Ne Hb)
      as [_ Ret]. destruct (Ret added modified H) as [Ea Em].
    subst added modified. rewrite !emitted_rows_eq in Hr.
    assert (G : forall ks,
               In r (flat_map (emitted_rows (key_position key df_b) df_b) ks)
               -> exists rb, In rb (rows df_b)
                             /\ r = key_first (key_position key df_b) rb).
    { intros ks Hin. apply in_flat_map in Hin as [k [_ Hin]].
      unfold emitted_rows in Hin. apply in_map_iff in Hin as [rb [Er Hrb]].
      apply filter_In in Hrb as [Hrb _]. exists rb. now split. }
    destruct Hr as [Hr|Hr]; now apply G in Hr.
  - intro M. rewrite (compare_dataframes_by_hash df_a df_b M) in H.
    destruct (compare_by_hash_rows df_a df_b) as [ad [H' [R _]]].
    rewrite H' in H. inversion H. subst. split; [reflexivity|].
    intros r Hr. rewrite R in Hr. now apply filter_In in Hr as [Hr _].
Qed.

Lemma reported_rows_come_from_B_witness :
  exists rb, In rb (rows scenario_B)
             /\ [Int 3; Str "Maria"] = key_first 0 rb.
Proof.
  destruct (reported_rows_come_from_B scenario_A scenario_B
              (mkFrame ["id"; "name"] [[Int 3; Str "Maria"]])
              (mkFrame ["id"; "name"] [[Int 2; Str "Luisa"]]))
    as [K _].
  - table_facts.
  - table_facts.
  - table_facts.
  - table_facts.
  - vm_compute. reflexivity.
  - apply (K "id").
    + vm_compute. reflexivity.
    + discriminate.
    + simpl. now left.
    + left. now left.
Defined.

(** X3.  With a key column, whenever the diff returns, no key is reported
    both as added and as modified: the keys of the added rows are keys of B
    that A lacks, the keys of the modified rows are keys of both tables. *)
Theorem added_and_modified_keys_are_disjoint :
  forall (df_a df_b added modified : DataFrame) (key : string),
    NoDup (columns df_a) -> NoDup (columns df_b) ->
    well_formed df_a -> well_formed df_b ->
    find_key_column df_a = Some (Some key) ->
    key <> EmptyString ->
    In key (columns df_b) ->
    compare_dataframes df_a df_b = Some (added, modified) ->
    (forall k, In k (reported_keys added) ->
               In k (keys_of (key_position key df_b) df_b)
               /\ ~ In k (keys_of (key_position key df_a) df_a))
    /\ (forall k, In k (reported_keys modified) ->
                  In k (keys_of (key_position key df_b) df_b)
                  /\ In k (keys_of (key_position key df_a) df_a))
    /\ (forall k, In k (reported_keys added) ->
                  ~ In k (reported_keys modified)).
Proof.
  intros df_a df_b added modified key Na Nb _ _ Hk Hne Hb H.
  destruct (compare_dataframes_by_key df_a df_b key Na Nb Hk Hne Hb)
    as [_ Ret]. destruct (Ret added modified H) as [Ea Em].
  subst added modified. unfold reported_keys. rewrite !emitted_rows_eq.
  assert (A : forall k,
             In k (map (key_of 0)
                     (flat_map (emitted_rows (key_position key df_b) df_b)
                        (difference (keys_of (key_position key df_b) df_b)
                                    (keys_of (key_position key df_a) df_a)))) ->
             In k (keys_of (key_position key df_b) df_b)
             /\ ~ In k (keys_of (key_position key df_a) df_a)).
  { intros k H'. apply emitted_keys_In in H' as [H' _].
    now apply difference_In in H'. }
  assert (M : forall k,
             In k (map (key_of 0)
                     (flat_map (emitted_rows (key_position key df_b) df_b)
                        (filter (differsb (key_position key df_a)
                                          (key_position key df_b) df_a df_b)
                           (intersection
                              (keys_of (key_position key df_a) df_a)
                              (keys_of (key_position key df_b) df_b))))) ->
             In k (keys_of (key_position key df_b) df_b)
             /\ In k (keys_of (key_position key df_a) df_a)).
  { intros k H'. apply emitted_keys_In in H' as [H' _].
    apply filter_In in H' as [H' _]. apply intersection_In in H'. tauto. }
  split; [exact A|]. split; [exact M|].
  intros k H1 H2. apply A in H1. apply M in H2. tauto.
Qed.

Lemma added_and_modified_keys_are_disjoint_witness :
  exists added modified,
    compare_dataframes scenario_A scenario_B = Some (added, modified)
    /\ reported_keys added = [Int 3]
    /\ reported_keys modified = [Int 2]
    /\ forall k, In k (reported_keys added) ->
                 ~ In k (reported_keys modified).
Proof.
  exists (mkFrame ["id"; "name"] [[Int 3; Str "Maria"]]),
         (mkFrame ["id"; "name"] [[Int 2; Str "Luisa"]]).
  split; [vm_compute; reflexivity|]. split; [reflexivity|].
  split; [reflexivity|].
  apply (added_and_modified_keys_are_disjoint scenario_A scenario_B
           (mkFrame ["id"; "name"] [[Int 3; Str "Maria"]])
           (mkFrame ["id"; "name"] [[Int 2; Str "Luisa"]]) "id").
  - table_facts.
  - table_facts.
  - table_facts.
  - table_facts.
  - vm_compute. reflexivity.
  - discriminate.
  - simpl. now left.
  - vm_compute. reflexivity.
Defined.

Lemma fingerprint_in_self (df : DataFrame) :
  filter (fun r => negb (fingerprint_in df df r)) (rows df) = [].
Proof.
  assert (H : forall l, (forall r, In r l -> In r (rows df)) ->
                        filter (fun r => negb (fingerprint_in df df r)) l = []).
  { induction l as [|r l IH]; intro Hl; [reflexivity|]. simpl.
    replace (fingerprint_in df df r) with true.
    - simpl. apply IH. intros r' Hr'. apply Hl. now right.
    - symmetry. apply fingerprint_in_In.
      apply (in_map (fingerprint df)). apply Hl. now left. }
  apply H. auto.
Qed.

(** X4.  A table compared with itself gives no added and no modified row, in
    key mode and in hash mode alike; both results are empty in the sense of
    [DataFrame.empty], so the loop of [main] writes no workbook for a pair of
    workbooks whose first sheets are the same table, and goes on. *)
Theorem identical_tables_have_no_difference :
  forall df : DataFrame,
    NoDup (columns df) ->
    (exists added modified,
        compare_dataframes df df = Some (added, modified)
        /\ rows added = [] /\ rows modified = []
        /\ frame_empty added = true /\ frame_empty modified = true)
    /\ forall (w : World) (out : string) (fa fb : Path) (score : Q),
        read_excel w fa = Some df ->
        read_excel w fb = Some df ->
        compare_pair w out (fa, fb, score)
        = ([Print (Comparing fa fb score); Print NoChanges], true).
Proof.
  intros df Nd.
  enough (X : exists added modified,
             compare_dataframes df df = Some (added, modified)
             /\ rows added = [] /\ rows modified = []
             /\ frame_empty added = true /\ frame_empty modified = true).
  { split; [exact X|]. intros w out fa fb score Ra Rb.
    destruct X as [added [modified [E [_ [_ [Fa Fm]]]]]].
    unfold compare_pair. now rewrite Ra, Rb, E, Fa, Fm. }
  assert (F : forall d : DataFrame, rows d = [] -> frame_empty d = true).
  { intros [cols rs] E. simpl in E. subst. now destruct cols. }
  destruct (compare_dataframes_modes df df Nd)
    as [[key [_ [_ [Ha [_ E]]]]] | [_ E]].
  - rewrite E, (compare_by_key_eq key df df Nd Nd Ha Ha).
    rewrite difference_self. cbn [masks].
    eexists _, _. split; [reflexivity|].
    assert (M : filter (differsb (key_position key df) (key_position key df)
                                 df df)
                  (intersection (keys_of (key_position key df) df)
                                (keys_of (key_position key df) df)) = []).
    { generalize (intersection (keys_of (key_position key df) df)
                               (keys_of (key_position key df) df)).
      induction l as [|k l IH]; [reflexivity|]. simpl.
      now rewrite differsb_same. }
    rewrite M. repeat split.
  - rewrite E. destruct (compare_by_hash_rows df df) as [added [H [R _]]].
    rewrite H. exists added, empty_frame. split; [reflexivity|].
    rewrite fingerprint_in_self in R.
    repeat split; try assumption. now apply F.
Qed.

Lemma identical_tables_have_no_difference_witness :
  exists added modified,
    compare_dataframes scenario_B scenario_B = Some (added, modified)
    /\ rows added = [] /\ rows modified = []
    /\ frame_empty added = true /\ frame_empty modified = true.
Proof.
  apply (identical_tables_have_no_difference scenario_B).
  repeat constructor; simpl; intuition discriminate.
Defined.

Lemma row_hash_normalized (r1 r2 : list scalar) :
  map normalized r1 = map normalized r2 -> row_hash r1 = row_hash r2.
Proof.
  intro H. unfold row_hash. cbv zeta.
  rewrite (map_ext _ _ normalized_eq r1), (map_ext _ _ normalized_eq r2).
  now rewrite H.
Qed.

(** X5.  In hash mode a row of B is not reported as added when some row of A
    reads the same once the cells are normalized: surrounding white space, a
    missing cell against an empty string, a number against its text.  The
    rows are read as pandas hands them over, with the numbers of a column
    that holds a blank, and every number of a table of numbers that holds
    one, as floats: there the integer 7 reads 7.0 and not 7. *)
Theorem hash_mode_ignores_normalized_differences :
  forall (df_a df_b added modified : DataFrame) (ra rb : list scalar),
    well_formed df_a -> well_formed df_b ->
    (find_key_column df_a = Some None
     \/ exists key, find_key_column df_a = Some (Some key)
                    /\ ~ In key (columns df_b)) ->
    compare_dataframes df_a df_b = Some (added, modified) ->
    In ra (rows df_a) ->
    map normalized (presented df_a ra) = map normalized (presented df_b rb) ->
    ~ In rb (rows added).
Proof.
  intros df_a df_b added modified ra rb _ _ Hm H Hra Hn Hin.
  rewrite (compare_dataframes_hash_mode df_a df_b Hm) in H.
  destruct (compare_by_hash_rows df_a df_b) as [ad [H' [R _]]].
  rewrite H' in H. inversion H. subst. clear H.
  rewrite R in Hin. apply filter_In in Hin as [_ Hin].
  apply negb_true_iff in Hin.
  assert (T : fingerprint_in df_a df_b rb = true).
  { apply fingerprint_in_In. unfold fingerprint at 1.
    rewrite <- (row_hash_normalized _ _ Hn).
    now apply (in_map (fingerprint df_a)). }
  congruence.
Qed.

Lemma hash_mode_ignores_normalized_differences_witness :
  compare_dataframes normalized_A normalized_B
  = Some (mkFrame ["n"; "c"; "v"] [[Str "Eva"; Str "x"; Int 1]], empty_frame)
  /\ ~ In [Str " Ana "; Str ""; Str "7"]
          (rows (mkFrame ["n"; "c"; "v"] [[Str "Eva"; Str "x"; Int 1]]))
  /\ In [Int 1; Int 2] (rows floats_A)
  /\ compare_dataframes floats_A floats_B
     = Some (mkFrame ["x"; "y"] [[Int 1; Int 2]; [Int 1; Int 2]],
             empty_frame).
Proof.
  assert (E : compare_dataframes normalized_A normalized_B
              = Some (mkFrame ["n"; "c"; "v"] [[Str "Eva"; Str "x"; Int 1]],
                      empty_frame))
    by (vm_compute; reflexivity).
  split; [exact E|].
  split; [|split; [now left | vm_compute; reflexivity]].
  apply (hash_mode_ignores_normalized_differences
           normalized_A normalized_B
           (mkFrame ["n"; "c"; "v"] [[Str "Eva"; Str "x"; Int 1]])
           empty_frame
           [Str "Ana"; NaN; Int 7] [Str " Ana "; Str ""; Str "7"]).
  - table_facts.
  - table_facts.
  - left. vm_compute. reflexivity.
  - exact E.
  - now left.
  - vm_compute. reflexivity.
Defined.

Lemma is_unique_short (l : list scalar) : List.length l <= 1 -> is_unique l = true.
Proof.
  destruct l as [|x [|y l]]; simpl; intro H; try reflexivity. lia.
Qed.

(** X6.  A table with at least one column, distinct labels and at most one
    row always gets a key: the first column, in column order, with a
    candidate name, and without such a column the first column of the table,
    whose single value is trivially unique. *)
Theorem short_table_has_a_key :
  forall (df : DataFrame) (c : string) (cs : list string),
    NoDup (columns df) ->
    columns df = c :: cs ->
    List.length (rows df) <= 1 ->
    exists key,
      find_key_column df = Some (Some key)
      /\ In key (columns df)
      /\ ((exists x, In x (columns df) /\ in_candidates x = true) ->
          first_with in_candidates (columns df) key)
      /\ ((forall x, In x (columns df) -> in_candidates x = false) ->
          key = c).
Proof.
  intros df c cs Nd Hc Hr. rewrite (find_key_column_eq df Nd).
  destruct (find in_candidates (columns df)) as [x|] eqn:F.
  - exists x. split; [reflexivity|].
    split; [now apply find_some in F|].
    split; [intros _; now apply find_first_with|].
    intro H. apply find_some in F as [F1 F2]. rewrite (H x F1) in F2.
    discriminate.
  - exists c. rewrite Hc. cbn [find].
    assert (U : distinct_values df c = true).
    { unfold distinct_values, column. rewrite Hc. cbn [position].
      rewrite String.eqb_refl. apply is_unique_short. now rewrite length_map. }
    rewrite U. split; [reflexivity|]. split; [now left|].
    split; [|reflexivity].
    intros [x [Hx Cx]]. exfalso. rewrite find_None_iff, Hc in F.
    rewrite (F x Hx) in Cx. discriminate.
Qed.

(** A table of one row whose second column has a candidate name, and one
    without a candidate name. *)
Lemma short_table_has_a_key_witness :
  (exists key,
      find_key_column (mkFrame ["x"; "id"] [[Int 1; Int 2]]) = Some (Some key)
      /\ key = "id")
  /\ (exists key,
         find_key_column (mkFrame ["x"; "y"] [[Int 1; Int 2]])
         = Some (Some key)
         /\ key = "x").
Proof.
  split.
  - destruct (short_table_has_a_key (mkFrame ["x"; "id"] [[Int 1; Int 2]])
                                    "x" ["id"])
      as [key [K [_ [F _]]]].
    + table_facts.
    + reflexivity.
    + simpl. lia.
    + exists key. split; [exact K|].
      vm_compute in K. now inversion K.
  - destruct (short_table_has_a_key (mkFrame ["x"; "y"] [[Int 1; Int 2]])
                                    "x" ["y"])
      as [key [K [_ [_ F]]]].
    + table_facts.
    + reflexivity.
    + simpl. lia.
    + exists key. split; [exact K|]. apply F.
      intros x [H|[H|[]]]; subst; reflexivity.
Defined.

Lemma filter_all {A} (f : A -> bool) (l : list A) :
  (forall x, In x l -> f x = true) -> filter f l = l.
Proof.
  induction l as [|x l IH]; intro H; [reflexivity|]. simpl.
  rewrite (H x (or_introl eq_refl)). f_equal. apply IH.
  intros y Hy. apply H. now right.
Qed.

Lemma unique_from_subseq (seen l : list scalar) : subseq (unique_from seen l) l.
Proof.
  revert seen. induction l as [|x l IH]; intro seen; simpl; [constructor|].
  destruct (mem x seen); now constructor.
Qed.

Lemma subseq_trans {A} (l1 l2 l3 : list A) :
  subseq l1 l2 -> subseq l2 l3 -> subseq l1 l3.
Proof.
  intros S12 S23. revert l1 S12.
  induction S23 as [|x l2 l3 S IH|x l2 l3 S IH]; intros l1 S12.
  - assumption.
  - constructor. now apply IH.
  - inversion S12; subst.
    + constructor. now apply IH.
    + apply subseq_take. now apply IH.
Qed.

(** X18.  With a key column used, whenever the diff returns, the modified
    rows are rows of B with their own cells, key cell first, listed key by
    key over the distinct keys of A that B has too, in the order of A, the
    rows of one key in the order of B.  A common key is listed exactly when
    the comparison of its rows reports a difference.  Between tables in
    which every key stands once, that is exactly when the labels of the
    other columns differ as sequences, or the two rows are held under
    different dtypes once their missing cells are filled, or a cell differs
    once missing cells are read as empty strings; and the modified keys are
    then keys of A in the order of A. *)
Theorem modified_rows_of_common_keys :
  forall (df_a df_b added modified : DataFrame) (key : string),
    NoDup (columns df_a) -> NoDup (columns df_b) ->
    well_formed df_a -> well_formed df_b ->
    find_key_column df_a = Some (Some key) ->
    key <> EmptyString ->
    In key (columns df_b) ->
    compare_dataframes df_a df_b = Some (added, modified) ->
    let pa := key_position key df_a in
    let pb := key_position key df_b in
    rows modified
    = flat_map (emitted_rows pb df_b)
        (filter (differsb pa pb df_a df_b)
           (filter (fun k => mem k (keys_of pb df_b))
                   (unique (keys_of pa df_a))))
    /\ (forall k, In k (reported_keys modified) <->
                  In k (keys_of pa df_a) /\ In k (keys_of pb df_b)
                  /\ differsb pa pb df_a df_b k = true)
    /\ (forall r, In r (rows modified) ->
                  exists rb, In rb (rows df_b) /\ r = key_first pb rb)
    /\ (NoDup (keys_of pa df_a) -> NoDup (keys_of pb df_b) ->
        (forall ra rb,
            In ra (rows df_a) -> In rb (rows df_b) ->
            key_of pa ra = key_of pb rb ->
            (In (key_first pb rb) (rows modified)
             <-> rows_differ pa pb df_a df_b ra rb))
        /\ subseq (reported_keys modified) (keys_of pa df_a))
    /\ (rows modified <> [] ->
        columns modified = key :: remove_nth pb (columns df_b)).
Proof.
  intros df_a df_b added modified key Na Nb _ _ Hk Hne Hb H pa pb.
  destruct (compare_dataframes_by_key df_a df_b key Na Nb Hk Hne Hb)
    as [_ Ret]. destruct (Ret added modified H) as [_ Em].
  fold pa pb in Em. subst modified. clear Ret H.
  unfold reported_keys. rewrite !emitted_rows_eq, intersection_filter.
  set (ks := filter (differsb pa pb df_a df_b)
               (filter (fun k => mem k (keys_of pb df_b))
                       (unique (keys_of pa df_a)))).
  assert (K : forall k, In k ks <->
                        In k (keys_of pa df_a) /\ In k (keys_of pb df_b)
                        /\ differsb pa pb df_a df_b k = true).
  { intro k. unfold ks. rewrite !filter_In, unique_In, mem_In. tauto. }
  assert (M : forall k, In k (map (key_of 0)
                                  (flat_map (emitted_rows pb df_b) ks))
                        <-> In k ks).
  { intro k. rewrite emitted_keys_In. split; [tauto|].
    intro Hin. split; [assumption|]. now apply K in Hin. }
  split; [reflexivity|]. split; [|split; [|split]].
  - intro k. now rewrite M, K.
  - intros r Hr. apply in_flat_map in Hr as [k [_ Hr]].
    unfold emitted_rows in Hr. apply in_map_iff in Hr as [rb [E Hrb]].
    apply filter_In in Hrb as [Hrb _]. now exists rb.
  - intros NA NB. split.
    + intros ra rb Hra Hrb E.
      assert (Ka : In (key_of pb rb) (keys_of pa df_a))
        by (rewrite <- E; unfold keys_of; now apply in_map).
      assert (Kb : In (key_of pb rb) (keys_of pb df_b))
        by (unfold keys_of; now apply in_map).
      rewrite <- (differsb_rows pa pb df_a df_b (key_of pb rb) ra rb).
      2:{ rewrite <- E. now apply other_cells_single. }
      2:{ now apply other_cells_single. }
      split.
      * intro Hin. apply in_flat_map in Hin as [k [Hk' Hin]].
        apply K in Hk' as [_ [Hkb D]].
        apply in_map_iff in Hkb as [rb' [Ek Hrb']]. subst k.
        rewrite (emitted_rows_single pb df_b rb' NB Hrb') in Hin.
        destruct Hin as [Hin|[]].
        assert (Ekey : key_of pb rb' = key_of pb rb)
          by (unfold key_first in Hin; now inversion Hin).
        now rewrite <- Ekey.
      * intro D. apply in_flat_map. exists (key_of pb rb).
        split; [now apply K|].
        rewrite (emitted_rows_single pb df_b rb NB Hrb). now left.
    + rewrite (emitted_keys_unique pb df_b ks NB)
        by (intros k Hin; now apply K in Hin).
      unfold ks.
      apply (subseq_trans _ (filter (fun k => mem k (keys_of pb df_b))
                                      (unique (keys_of pa df_a))));
        [apply subseq_filter|].
      apply (subseq_trans _ (unique (keys_of pa df_a)));
        [apply subseq_filter | apply unique_from_subseq].
  - intro H'. apply emitted_columns_eq. now rewrite emitted_rows_eq.
Qed.

(** The end-to-end scenario: the one modified row is the row of B for key 2,
    whose name differs. *)
Lemma modified_rows_of_common_keys_witness :
  exists added modified,
    compare_dataframes scenario_A scenario_B = Some (added, modified)
    /\ rows modified = [[Int 2; Str "Luisa"]]
    /\ columns modified = ["id"; "name"]
    /\ rows_differ 0 0 scenario_A scenario_B
                   [Int 2; Str "Luis"] [Int 2; Str "Luisa"].
Proof.
  destruct (compare_dataframes scenario_A scenario_B)
    as [[added modified]|] eqn:E; [|vm_compute in E; discriminate].
  destruct (modified_rows_of_common_keys scenario_A scenario_B added modified
                                         "id")
    as [R [_ [_ [U C]]]].
  - table_facts.
  - table_facts.
  - table_facts.
  - table_facts.
  - vm_compute. reflexivity.
  - discriminate.
  - simpl. now left.
  - exact E.
  - exists added, modified. split; [reflexivity|].
    assert (R' : rows modified = [[Int 2; Str "Luisa"]])
      by (rewrite R; vm_compute; reflexivity).
    split; [exact R'|]. split.
    + rewrite C; [reflexivity|]. rewrite R'. discriminate.
    + destruct U as [U _]; [table_facts | table_facts|].
      apply (U [Int 2; Str "Luis"] [Int 2; Str "Luisa"]).
      * simpl. tauto.
      * simpl. tauto.
      * reflexivity.
      * rewrite R'. now left.
Defined.

(** X19.  With a key column used and a column that only one of the two
    tables has, whenever the diff returns, every key of both tables is
    reported as modified, whatever its cells: the modified rows are all the
    rows of B whose key is a key of A. *)
Theorem mismatched_columns_are_modified :
  forall (df_a df_b added modified : DataFrame) (key : string),
    NoDup (columns df_a) -> NoDup (columns df_b) ->
    well_formed df_a -> well_formed df_b ->
    find_key_column df_a = Some (Some key) ->
    key <> EmptyString ->
    In key (columns df_b) ->
    (exists c, (In c (columns df_a) /\ ~ In c (columns df_b))
               \/ (In c (columns df_b) /\ ~ In c (columns df_a))) ->
    compare_dataframes df_a df_b = Some (added, modified) ->
    let pa := key_position key df_a in
    let pb := key_position key df_b in
    (forall k, In k (keys_of pa df_a) -> In k (keys_of pb df_b) ->
               In k (reported_keys modified))
    /\ rows modified
       = flat_map (emitted_rows pb df_b)
           (filter (fun k => mem k (keys_of pb df_b))
                   (unique (keys_of pa df_a)))
    /\ forall rb, In rb (rows df_b) ->
                  In (key_of pb rb) (keys_of pa df_a) ->
                  In (key_first pb rb) (rows modified).
Proof.
  intros df_a df_b added modified key Na Nb _ _ Hk Hne Hb Hc H pa pb.
  pose proof (find_key_column_In df_a key Hk) as Ha.
  destruct (compare_dataframes_by_key df_a df_b key Na Nb Hk Hne Hb)
    as [_ Ret]. destruct (Ret added modified H) as [_ Em].
  fold pa pb in Em. subst modified. clear Ret H.
  unfold reported_keys. rewrite !emitted_rows_eq, intersection_filter.
  rewrite (filter_all (differsb pa pb df_a df_b)).
  2:{ intros k _. apply differsb_labels.
      now apply mismatch_labels_differ. }
  split; [|split; [reflexivity|]].
  - intros k HA HB. apply emitted_keys_In. split; [|assumption].
    apply filter_In. split; [now apply unique_In | now apply mem_In].
  - intros rb Hrb HA. apply in_flat_map. exists (key_of pb rb). split.
    + apply filter_In. split; [now apply unique_In|]. apply mem_In.
      unfold keys_of. now apply in_map.
    + unfold emitted_rows. apply in_map. apply filter_In.
      split; [assumption|]. unfold has_key. apply scalar_eqb_refl.
Qed.

(** A column renamed in B: both keys are reported, in the order of A. *)
Lemma mismatched_columns_are_modified_witness :
  exists added modified,
    compare_dataframes renamed_A renamed_B = Some (added, modified)
    /\ rows modified = [[Int 1; Str "Ana"]; [Int 2; Str "Luis"]]
    /\ In (Int 1) (reported_keys modified)
    /\ In (Int 2) (reported_keys modified).
Proof.
  destruct (compare_dataframes renamed_A renamed_B)
    as [[added modified]|] eqn:E; [|vm_compute in E; discriminate].
  destruct (mismatched_columns_are_modified renamed_A renamed_B added modified
                                            "id")
    as [K [R _]].
  - table_facts.
  - table_facts.
  - table_facts.
  - table_facts.
  - vm_compute. reflexivity.
  - discriminate.
  - simpl. now left.
  - exists "name". left. split; [simpl; tauto|]. simpl. intuition discriminate.
  - exact E.
  - exists added, modified. split; [reflexivity|].
    split; [rewrite R; vm_compute; reflexivity|].
    split; apply K; simpl; tauto.
Defined.

(* ------------------------------------------------------------------------- *)
(** ** Further facts about pair_files *)

Lemma calculate_ratio_le_1 (m len : nat) :
  2 * m <= len -> Qle (Difflib.calculate_ratio m len) 1.
Proof.
  intro H. unfold Difflib.calculate_ratio. destruct len as [|n];
    [apply Qle_refl|].
  unfold Qle. cbn [Qnum Qden]. rewrite <- Pos.of_nat_succ, Zpos_P_of_succ_nat.
  lia.
Qed.

Lemma ratio_le_1 (a b : list ascii) : Qle (Difflib.ratio a b) 1.
Proof.
  eapply Qle_trans; [apply ratio_le_real_quick_ratio|].
  apply calculate_ratio_le_1. lia.
Qed.

Lemma pair_one_shape (d : dict) (t : Q) (fa : Path) (out : list pair) :
  pair_one d t fa = Some out ->
  out = []
  \/ exists fb s, out = [(fa, fb, s)] /\ Qle 0 s /\ Qle s 1.
Proof.
  unfold pair_one.
  destruct (exact_match (stem fa) d) as [[k fb]|].
  - intro H. inversion H. right. exists fb, 1%Q.
    repeat split; discriminate.
  - destruct (Difflib.get_close_matches (stem fa) (map fst d) t) as [[|m l]|];
      [| |discriminate].
    + intro H. inversion H. now left.
    + destruct (dict_get d m) as [fb|]; [|discriminate].
      intro H. inversion H. right. eexists _, _.
      split; [reflexivity|]. split.
      * apply calculate_ratio_nonneg.
      * apply ratio_le_1.
Qed.

(** X7.  Every score that [pair_files] returns lies between 0 and 1. *)
Theorem scores_are_between_0_and_1 :
  forall (files_a files_b : list Path) (threshold : Q) (pairs : list pair)
         (p : pair),
    pair_files files_a files_b threshold = Some pairs ->
    In p pairs ->
    Qle 0 (score_of p) /\ Qle (score_of p) 1.
Proof.
  intros files_a files_b t pairs p H Hp. unfold pair_files in H.
  apply (pair_loop_spec _ _ _ _ _ H) in Hp as [[]|[fa [out [_ [P Hin]]]]].
  destruct (pair_one_shape _ _ _ _ P) as [E|[fb [s [E [S0 S1]]]]];
    rewrite E in Hin.
  - destruct Hin.
  - destruct Hin as [Hin|[]]. subst p. now split.
Qed.

Lemma scores_are_between_0_and_1_witness :
  Qle 0 (12 # 13) /\ Qle (12 # 13) 1.
Proof.
  apply (scores_are_between_0_and_1
           [file "Report" ".xlsx"; file "reports" ".xlsx"]
           [file "report" ".xlsx"; file "other" ".xlsx"; file "report" ".xls"]
           (1 # 2)%Q
           [(file "Report" ".xlsx", file "report" ".xls", 1%Q);
            (file "reports" ".xlsx", file "report" ".xls", (12 # 13)%Q)]
           (file "reports" ".xlsx", file "report" ".xls", (12 # 13)%Q)).
  - vm_compute. reflexivity.
  - right. now left.
Defined.

Lemma subseq_length {A} (l1 l2 : list A) :
  subseq l1 l2 -> List.length l1 <= List.length l2.
Proof. induction 1; simpl; lia. Qed.

Lemma pair_loop_subseq (d : dict) (t : Q) :
  forall files acc pairs,
    pair_loop d t files acc = Some pairs ->
    exists rest, pairs = acc ++ rest /\ subseq (map a_file rest) files.
Proof.
  induction files as [|fa files IH]; intros acc pairs H.
  - simpl in H. inversion H. exists []. split; [now rewrite app_nil_r|].
    constructor.
  - cbn [pair_loop] in H. destruct (pair_one d t fa) as [new|] eqn:P;
      [|discriminate].
    destruct (IH _ _ H) as [rest [E S]].
    exists (new ++ rest). split; [now rewrite app_assoc|].
    destruct (pair_one_shape _ _ _ _ P) as [N|[fb [s [N _]]]]; subst new.
    + now constructor.
    + simpl. now constructor.
Qed.

(** X8.  [pair_files] gives at most one pair per A file, and lists the pairs
    in the order of the A files: the A files of the pairs are the list of A
    files with some left out. *)
Theorem pairs_follow_the_A_files :
  forall (files_a files_b : list Path) (threshold : Q) (pairs : list pair),
    pair_files files_a files_b threshold = Some pairs ->
    subseq (map a_file pairs) files_a
    /\ List.length pairs <= List.length files_a.
Proof.
  intros files_a files_b t pairs H. unfold pair_files in H.
  destruct (pair_loop_subseq _ _ _ _ _ H) as [rest [E S]].
  simpl in E. subst rest. split; [exact S|].
  apply subseq_length in S. now rewrite length_map in S.
Qed.

Lemma pairs_follow_the_A_files_witness :
  subseq (map a_file
            [(file "Report" ".xlsx", file "report" ".xls", 1%Q);
             (file "reports" ".xlsx", file "report" ".xls", (12 # 13)%Q)])
         [file "Report" ".xlsx"; file "zzz" ".xlsx"; file "reports" ".xlsx"]
  /\ 2 <= 3.
Proof.
  apply (pairs_follow_the_A_files
           [file "Report" ".xlsx"; file "zzz" ".xlsx"; file "reports" ".xlsx"]
           [file "report" ".xlsx"; file "other" ".xlsx"; file "report" ".xls"]
           (1 # 2)%Q).
  vm_compute. reflexivity.
Defined.

(** X9.  With no B file nothing is paired.  The threshold is then looked at
    only when there is an A file: outside the range from 0 to 1 the call
    raises, and without A files every threshold gives the empty list. *)
Theorem pairing_against_no_files :
  forall (files_a : list Path) (threshold : Q),
    pair_files files_a [] threshold
    = match files_a with
      | [] => Some []
      | _ :: _ => if Qle_bool 0 threshold && Qle_bool threshold 1
                  then Some [] else None
      end.
Proof.
  intros files_a t. unfold pair_files. cbn [stems_of fold_left].
  destruct files_a as [|fa files_a]; [reflexivity|].
  destruct (Qle_bool 0 t && Qle_bool t 1) eqn:R.
  - induction (fa :: files_a) as [|f l IH]; [reflexivity|].
    cbn [pair_loop]. unfold pair_one. cbn [exact_match find map].
    unfold Difflib.get_close_matches. rewrite R. cbn. exact IH.
  - cbn [pair_loop]. unfold pair_one. cbn [exact_match find map].
    unfold Difflib.get_close_matches. rewrite R. reflexivity.
Qed.

Lemma dict_set_fresh (d : dict) (k : string) (v : Path) :
  ~ In k (map fst d) -> dict_set d k v = d ++ [(k, v)].
Proof.
  induction d as [|[k0 v0] d IH]; simpl; intro H; [reflexivity|].
  destruct (String.eqb k0 k) eqn:E.
  - apply String.eqb_eq in E. exfalso. apply H. now left.
  - rewrite IH; [reflexivity|]. intro Hin. apply H. now right.
Qed.

Lemma stems_of_distinct_from (files : list Path) (d : dict) :
  NoDup (map fst d ++ map stem files) ->
  fold_left (fun d f => dict_set d (stem f) f) files d
  = d ++ map (fun f => (stem f, f)) files.
Proof.
  revert d. induction files as [|f files IH]; intros d H; simpl.
  - now rewrite app_nil_r.
  - simpl in H. pose proof (NoDup_remove_2 _ _ _ H) as H2.
    rewrite dict_set_fresh.
    + rewrite IH.
      * now rewrite <- app_assoc.
      * rewrite map_app, <- app_assoc. exact H.
    + intro Hin. apply H2. apply in_or_app. now left.
Qed.

Lemma stems_of_distinct (files : list Path) :
  NoDup (map stem files) ->
  stems_of files = map (fun f => (stem f, f)) files.
Proof.
  intro H. unfold stems_of. now rewrite stems_of_distinct_from.
Qed.

Lemma find_first_match (name : string) (files : list Path) (f : Path) :
  first_match name files f ->
  find (fun e => String.eqb (PyStr.lower name) (PyStr.lower (fst e)))
       (map (fun f => (stem f, f)) files)
  = Some (stem f, f).
Proof.
  intros [before [after [E [L N]]]]. subst files.
  induction before as [|g before IH]; simpl.
  - now rewrite L, String.eqb_refl.
  - replace (String.eqb (PyStr.lower name) (PyStr.lower (stem g))) with false.
    + apply IH. intros g' Hg'. apply N. now right.
    + symmetry. apply String.eqb_neq. apply N. now left.
Qed.

(** X10.  When the B files have distinct base names, an A file with an exact
    match is paired with the first B file of the enumeration whose base name
    equals its own up to case, at score 1. *)
Theorem exact_pairing_takes_the_first_match :
  forall (files_b : list Path) (threshold : Q) (fa fb : Path),
    NoDup (map stem files_b) ->
    first_match (stem fa) files_b fb ->
    pair_one (stems_of files_b) threshold fa = Some [(fa, fb, 1%Q)].
Proof.
  intros files_b t fa fb Nd F. unfold pair_one, exact_match.
  rewrite (stems_of_distinct files_b Nd), (find_first_match _ _ _ F).
  reflexivity.
Qed.

Lemma exact_pairing_takes_the_first_match_witness :
  pair_one (stems_of [file "other" ".xlsx"; file "REPORT" ".xls";
                      file "report" ".xlsx"])
           (1 # 2)%Q (file "Report" ".xlsx")
  = Some [(file "Report" ".xlsx", file "REPORT" ".xls", 1%Q)].
Proof.
  apply exact_pairing_takes_the_first_match.
  - repeat constructor; simpl; intuition discriminate.
  - exists [file "other" ".xlsx"], [file "report" ".xlsx"].
    split; [reflexivity|]. split; [reflexivity|].
    intros g [E|[]]. subst. vm_compute. discriminate.
Defined.

(* ------------------------------------------------------------------------- *)
(** ** main *)

Lemma workbooks_app (es1 es2 : list effect) :
  workbooks (es1 ++ es2) = workbooks es1 ++ workbooks es2.
Proof.
  induction es1 as [|[m|d|f s] es1 IH]; simpl;
    [reflexivity | assumption | assumption | now rewrite IH].
Qed.

Lemma compared_app (es1 es2 : list effect) :
  compared (es1 ++ es2) = compared es1 ++ compared es2.
Proof.
  induction es1 as [|[[]|d|f s] es1 IH]; simpl;
    try reflexivity; try assumption. now rewrite IH.
Qed.

(** What one round of the loop writes. *)
Lemma compare_pair_workbooks (w : World) (out : string) (p : pair) :
  workbooks (fst (compare_pair w out p)) = []
  \/ exists dfa dfb added modified,
      read_excel w (a_file p) = Some dfa
      /\ read_excel w (b_file p) = Some dfb
      /\ compare_dataframes dfa dfb = Some (added, modified)
      /\ frame_empty added && frame_empty modified = false
      /\ workbooks (fst (compare_pair w out p))
         = [(workbook_of out p, sheets_of added modified)].
Proof.
  destruct p as [[fa fb] s]. unfold compare_pair, workbook_of, a_file, b_file.
  cbn [fst snd].
  destruct (read_excel w fa) as [dfa|]; [|now left].
  destruct (read_excel w fb) as [dfb|]; [|now left].
  destruct (compare_dataframes dfa dfb) as [[added modified]|] eqn:C;
    [|now left].
  destruct (frame_empty added && frame_empty modified) eqn:E; [now left|].
  destruct (writable w (out_file_of out fa fb)); [|now left].
  right. exists dfa, dfb, added, modified. cbn [fst workbooks].
  repeat split; assumption.
Qed.

Lemma compare_pair_compared (w : World) (out : string) (p : pair) :
  compared (fst (compare_pair w out p)) = [p].
Proof.
  destruct p as [[fa fb] s]. unfold compare_pair.
  destruct (read_excel w fa) as [dfa|]; [|reflexivity].
  destruct (read_excel w fb) as [dfb|]; [|reflexivity].
  destruct (compare_dataframes dfa dfb) as [[added modified]|]; [|reflexivity].
  destruct (frame_empty added && frame_empty modified); [reflexivity|].
  now destruct (writable w (out_file_of out fa fb)).
Qed.

(** The loop writes for some of the pairs, in their order. *)
Lemma compare_loop_workbooks (w : World) (out : string) :
  forall pairs,
  exists kept,
    subseq kept pairs
    /\ workbooks (fst (compare_loop w out pairs))
       = flat_map (fun p => workbooks (fst (compare_pair w out p))) kept.
Proof.
  induction pairs as [|p pairs [kept [S E]]].
  - exists []. split; [constructor | reflexivity].
  - cbn [compare_loop].
    destruct (compare_pair w out p) as [es go_on] eqn:P.
    destruct go_on.
    + destruct (compare_loop w out pairs) as [es' o]. cbn [fst] in *.
      exists (p :: kept). split; [now constructor|].
      cbn [flat_map]. now rewrite workbooks_app, P, E.
    + exists [p]. split.
      * apply subseq_take. clear. induction pairs; now constructor.
      * cbn [flat_map fst]. rewrite P. cbn [fst]. now rewrite app_nil_r.
Qed.

Lemma subseq_In {A} (l1 l2 : list A) (x : A) :
  subseq l1 l2 -> In x l1 -> In x l2.
Proof.
  induction 1 as [|y l1 l2 S IH|y l1 l2 S IH]; intro Hx;
    [destruct Hx | right; auto |].
  destruct Hx as [Hx|Hx]; [now left | right; auto].
Qed.

Lemma subseq_map {A B} (f : A -> B) (l1 l2 : list A) :
  subseq l1 l2 -> subseq (map f l1) (map f l2).
Proof. induction 1; simpl; now constructor. Qed.

Lemma compare_loop_written (w : World) (out : string) (pairs : list pair)
      (f : Path) (sheets : list (string * DataFrame)) :
  In (f, sheets) (workbooks (fst (compare_loop w out pairs))) ->
  exists p dfa dfb added modified,
    In p pairs
    /\ read_excel w (a_file p) = Some dfa
    /\ read_excel w (b_file p) = Some dfb
    /\ compare_dataframes dfa dfb = Some (added, modified)
    /\ frame_empty added && frame_empty modified = false
    /\ f = workbook_of out p /\ sheets = sheets_of added modified.
Proof.
  destruct (compare_loop_workbooks w out pairs) as [kept [S E]].
  rewrite E. intro H. apply in_flat_map in H as [p [Hp H]].
  destruct (compare_pair_workbooks w out p)
    as [N|[dfa [dfb [added [modified [Ra [Rb [C [F W]]]]]]]]].
  - rewrite N in H. destruct H.
  - rewrite W in H. destruct H as [H|[]]. inversion H.
    exists p, dfa, dfb, added, modified.
    repeat split; try assumption. now apply (subseq_In kept).
Qed.

(** The runs of [main] that get as far as the loop. *)
Lemma main_reaches_the_loop (float : string -> option Q) (w : World) :
  workbooks (fst (main float w)) = []
  \/ exists a b t files_a files_b pairs,
      getenv w "FOLDER_A" = Some a /\ getenv w "FOLDER_B" = Some b
      /\ float (getenv_default w "FUZZY_THRESHOLD" "0.9") = Some t
      /\ listed w a = Some files_a /\ listed w b = Some files_b
      /\ pair_files files_a files_b t = Some pairs
      /\ workbooks (fst (main float w))
         = workbooks
             (fst (compare_loop
                     w (getenv_default w "OUTPUT_DIR" "comparisons_output")
                     pairs)).
Proof.
  unfold main.
  destruct (float (getenv_default w "FUZZY_THRESHOLD" "0.9")) as [t|];
    [|now left].
  destruct (getenv w "FOLDER_A") as [a|]; [|now left].
  destruct (getenv w "FOLDER_B") as [b|]; [|now left].
  destruct (truthy a && truthy b); [|now left].
  unfold run.
  destruct (mkdir w _); [|now left]. cbn [negb].
  destruct (listed w a) as [files_a|] eqn:La; [|now left].
  destruct (listed w b) as [files_b|] eqn:Lb; [|now left].
  destruct (pair_files files_a files_b t) as [pairs|] eqn:P; [|now left].
  right. exists a, b, t, files_a, files_b, pairs.
  do 3 (split; [reflexivity|]). do 3 (split; [assumption|]).
  now destruct (compare_loop
                  w (getenv_default w "OUTPUT_DIR" "comparisons_output") pairs).
Qed.

Lemma listed_subseq (w : World) (dir : string) (files : list Path) :
  listed w dir = Some files ->
  exists entries,
    iterdir w dir = Some entries
    /\ subseq files entries
    /\ forall f, In f files -> In (suffix f) exts /\ is_file w f = true.
Proof.
  unfold listed. destruct (iterdir w dir) as [entries|]; [|discriminate].
  intro H. injection H as H. subst files. exists entries.
  split; [reflexivity|]. split; [apply subseq_filter|].
  intros f Hf. apply filter_In in Hf as [_ Hf].
  apply andb_true_iff in Hf as [H1 H2]. split; [|assumption].
  change (existsb (String.eqb (suffix f)) exts = true) in H1.
  apply existsb_exists in H1 as [e [He E]]. apply String.eqb_eq in E.
  now subst.
Qed.

Lemma pair_files_members (files_a files_b : list Path) (t : Q)
      (pairs : list pair) (p : pair) :
  pair_files files_a files_b t = Some pairs ->
  In p pairs ->
  In (a_file p) files_a /\ In (b_file p) files_b.
Proof.
  intros H Hp. unfold pair_files in H.
  apply (pair_loop_spec _ _ _ _ _ H) in Hp as [[]|[fa [out [Hfa [P Hin]]]]].
  destruct (pair_one_sound _ _ _ _ P p Hin) as [E [k Hk]].
  unfold a_file, b_file. split; [now rewrite E|].
  apply (stems_of_dict files_b) in Hk as [_ L].
  now apply last_with_stem_In.
Qed.

Lemma sheets_of_shape (added modified : DataFrame) :
  frame_empty added && frame_empty modified = false ->
  sheets_of added modified <> []
  /\ List.length (sheets_of added modified) <= 2
  /\ NoDup (map fst (sheets_of added modified))
  /\ forall name df,
      In (name, df) (sheets_of added modified) ->
      frame_empty df = false
      /\ ((name = "added" /\ df = added)
          \/ (name = "modified" /\ df = modified)).
Proof.
  unfold sheets_of. intro H.
  destruct (frame_empty added) eqn:Fa, (frame_empty modified) eqn:Fm;
    try discriminate; cbn [app map fst List.length].
  - split; [discriminate|]. split; [lia|].
    split; [repeat constructor; simpl; tauto|].
    intros name df [E|[]]. inversion E. subst. split; [assumption|]. now right.
  - split; [discriminate|]. split; [lia|].
    split; [repeat constructor; simpl; tauto|].
    intros name df [E|[]]. inversion E. subst. split; [assumption|]. now left.
  - split; [discriminate|]. split; [lia|].
    split; [repeat constructor; simpl; intuition discriminate|].
    intros name df [E|[E|[]]]; inversion E; subst; (split; [assumption|]);
      [now left | now right].
Qed.

Lemma subseq_nil_l {A} (l : list A) : subseq [] l.
Proof. induction l; now constructor. Qed.

Lemma compare_pair_goes_on (w : World) (out : string) (p : pair) :
  (forall df, read_excel w (a_file p) = Some df -> NoDup (columns df)) ->
  (forall df, read_excel w (b_file p) = Some df ->
              NoDup (columns df) /\ blank_beside_text df = false) ->
  writable w (workbook_of out p) = true ->
  snd (compare_pair w out p) = true.
Proof.
  destruct p as [[fa fb] s]. unfold compare_pair, workbook_of, a_file, b_file.
  cbn [fst snd]. intros Na Nb W.
  destruct (read_excel w fa) as [dfa|]; [|reflexivity].
  destruct (read_excel w fb) as [dfb|]; [|reflexivity].
  destruct (Nb dfb eq_refl) as [Nb1 Nb2].
  destruct (compare_dataframes_defined dfa dfb (Na dfa eq_refl) Nb1 Nb2)
    as [added [modified E]].
  rewrite E, W. now destruct (frame_empty added && frame_empty modified).
Qed.

Lemma compare_loop_returns (w : World) (out : string) :
  forall pairs,
    (forall p, In p pairs -> snd (compare_pair w out p) = true) ->
    snd (compare_loop w out pairs) = Returned
    /\ compared (fst (compare_loop w out pairs)) = pairs.
Proof.
  induction pairs as [|p pairs IH]; intro H; [now split|].
  cbn [compare_loop].
  pose proof (H p (or_introl eq_refl)) as G.
  pose proof (compare_pair_compared w out p) as C.
  destruct (compare_pair w out p) as [es go_on]. cbn [fst snd] in G, C.
  subst go_on.
  destruct IH as [R E]; [intros q Hq; apply H; now right|].
  destruct (compare_loop w out pairs) as [es' o]. cbn [fst snd] in *.
  split; [assumption|]. now rewrite compared_app, C, E.
Qed.

Lemma truthy_nonempty (s : string) : s <> "" -> truthy s = true.
Proof. destruct s; [congruence | reflexivity]. Qed.

Lemma flat_map_kept (w : World) (out : string) (kept0 : list pair) :
  exists kept,
    subseq kept kept0
    /\ map fst (flat_map (fun p => workbooks (fst (compare_pair w out p)))
                         kept0)
       = map (workbook_of out) kept.
Proof.
  induction kept0 as [|p kept0 [kept [S E]]].
  - exists []. split; [constructor | reflexivity].
  - cbn [flat_map]. rewrite map_app, E.
    destruct (compare_pair_workbooks w out p)
      as [N|[dfa [dfb [added [modified [_ [_ [_ [_ W]]]]]]]]].
    + rewrite N. exists kept. split; [now constructor | reflexivity].
    + rewrite W. exists (p :: kept). split; [now constructor | reflexivity].
Qed.

Lemma pair_one_by_stem (d : dict) (t : Q) (fa fa' fb : Path) (s : Q) :
  stem fa = stem fa' ->
  pair_one d t fa = Some [(fa, fb, s)] ->
  pair_one d t fa' = Some [(fa', fb, s)].
Proof.
  unfold pair_one. intros E. rewrite <- E.
  destruct (exact_match (stem fa) d) as [[k fb0]|].
  - intro H. now inversion H.
  - destruct (Difflib.get_close_matches (stem fa) (map fst d) t) as [[|m l]|];
      [discriminate| |discriminate].
    destruct (dict_get d m) as [fb0|]; [|discriminate].
    intro H. now inversion H.
Qed.

Lemma pair_of_file (files_a files_b : list Path) (t : Q) (pairs : list pair)
      (p : pair) :
  pair_files files_a files_b t = Some pairs ->
  In p pairs ->
  pair_one (stems_of files_b) t (a_file p) = Some [p].
Proof.
  intros H Hp. unfold pair_files in H.
  apply (pair_loop_spec _ _ _ _ _ H) in Hp as [[]|[fa [out [_ [P Hin]]]]].
  destruct (pair_one_sound _ _ _ _ P p Hin) as [E _].
  unfold a_file. rewrite E.
  destruct (pair_one_shape _ _ _ _ P) as [N|[fb [s [N _]]]]; subst out.
  - destruct Hin.
  - destruct Hin as [Hin|[]]. now subst p.
Qed.

(** X11.  Without FOLDER_A or FOLDER_B, unset or empty, [main] prints its
    request for configuration and exits with status 1: it makes no directory
    and writes nothing.  The threshold is converted before that check, so a
    FUZZY_THRESHOLD that is no number raises first, with nothing printed. *)
Theorem main_stops_without_folders :
  forall (float : string -> option Q) (w : World),
    getenv_default w "FOLDER_A" "" = ""
    \/ getenv_default w "FOLDER_B" "" = "" ->
    main float w
    = match float (getenv_default w "FUZZY_THRESHOLD" "0.9") with
      | None => ([], Raised)
      | Some _ => ([Print Configure], Exited 1)
      end.
Proof.
  intros float w H. unfold main, getenv_default in *.
  destruct (float _) as [t|]; [|reflexivity].
  destruct (getenv w "FOLDER_A") as [a|]; [|reflexivity].
  destruct (getenv w "FOLDER_B") as [b|]; [|reflexivity].
  destruct H as [H|H]; subst; [reflexivity|].
  now rewrite andb_false_r.
Qed.

Lemma main_stops_without_folders_witness :
  main example_float
       (mkWorld (fun name => if String.eqb name "FOLDER_A" then Some "A"
                             else None)
                (fun _ => true) (fun _ => None) (fun _ => true)
                (fun _ => None) (fun _ => true))
  = ([Print Configure], Exited 1).
Proof.
  apply (main_stops_without_folders
           example_float
           (mkWorld (fun name => if String.eqb name "FOLDER_A" then Some "A"
                                 else None)
                    (fun _ => true) (fun _ => None) (fun _ => true)
                    (fun _ => None) (fun _ => true))).
  right. reflexivity.
Defined.

(** X12.  With both folders configured and the threshold read, a folder that
    cannot be listed makes [main] raise after the output directory is made
    and before anything is printed. *)
Theorem main_makes_the_output_directory_first :
  forall (float : string -> option Q) (w : World) (a b : string) (t : Q),
    float (getenv_default w "FUZZY_THRESHOLD" "0.9") = Some t ->
    getenv w "FOLDER_A" = Some a -> a <> "" ->
    getenv w "FOLDER_B" = Some b -> b <> "" ->
    mkdir w (getenv_default w "OUTPUT_DIR" "comparisons_output") = true ->
    iterdir w a = None \/ iterdir w b = None ->
    main float w
    = ([MakeDir (getenv_default w "OUTPUT_DIR" "comparisons_output")],
       Raised).
Proof.
  intros float w a b t F Ea Na Eb Nb M H. unfold main.
  rewrite F, Ea, Eb, (truthy_nonempty a Na), (truthy_nonempty b Nb).
  cbn [andb]. unfold run, listed. rewrite M. cbn [negb].
  destruct H as [H|H]; rewrite H; [reflexivity|].
  now destruct (iterdir w a).
Qed.

Lemma main_makes_the_output_directory_first_witness :
  main example_float
       (mkWorld (getenv example_world) (fun _ => true)
                (fun dir => if String.eqb dir "A" then Some [] else None)
                (fun _ => true) (fun _ => None) (fun _ => true))
  = ([MakeDir "comparisons_output"], Raised).
Proof.
  apply (main_makes_the_output_directory_first
           example_float
           (mkWorld (getenv example_world) (fun _ => true)
                    (fun dir => if String.eqb dir "A" then Some [] else None)
                    (fun _ => true) (fun _ => None) (fun _ => true))
           "A" "B" (9 # 10)%Q).
  - reflexivity.
  - reflexivity.
  - discriminate.
  - reflexivity.
  - discriminate.
  - reflexivity.
  - right. reflexivity.
Defined.

(** X13.  A workbook that [main] writes has one or two sheets, named added
    and modified, each name once, and none of them empty: no other sheet is
    ever written, and no workbook without a sheet. *)
Theorem written_workbooks_have_sheets :
  forall (float : string -> option Q) (w : World) (f : Path)
         (sheets : list (string * DataFrame)),
    In (f, sheets) (workbooks (fst (main float w))) ->
    sheets <> []
    /\ List.length sheets <= 2
    /\ NoDup (map fst sheets)
    /\ forall name df,
        In (name, df) sheets ->
        (name = "added" \/ name = "modified") /\ frame_empty df = false.
Proof.
  intros float w f sheets H.
  destruct (main_reaches_the_loop float w)
    as [N|[a [b [t [files_a [files_b [pairs [_ [_ [_ [_ [_ [_ E]]]]]]]]]]]]].
  - rewrite N in H. destruct H.
  - rewrite E in H. apply compare_loop_written in H
      as [p [dfa [dfb [added [modified [_ [_ [_ [_ [F [_ S]]]]]]]]]]].
    subst sheets. destruct (sheets_of_shape added modified F) as [H1 [H2 [H3 H4]]].
    repeat split; try assumption.
    + destruct (H4 name df H) as [_ [[E1 _]|[E1 _]]]; [now left | now right].
    + now destruct (H4 name df H).
Qed.

Lemma written_workbooks_have_sheets_witness :
  exists f sheets,
    In (f, sheets) (workbooks (fst (main example_float example_world)))
    /\ sheets <> []
    /\ List.length sheets <= 2
    /\ NoDup (map fst sheets)
    /\ forall name df,
        In (name, df) sheets ->
        (name = "added" \/ name = "modified") /\ frame_empty df = false.
Proof.
  destruct (workbooks (fst (main example_float example_world)))
    as [|[f sheets] l] eqn:E; [vm_compute in E; discriminate|].
  exists f, sheets. rewrite <- E.
  assert (H : In (f, sheets)
                 (workbooks (fst (main example_float example_world))))
    by (rewrite E; now left).
  split; [exact H|].
  exact (written_workbooks_have_sheets example_float example_world f sheets H).
Defined.

(** X14.  A workbook that [main] writes stands in the output directory under
    the name made of the two base names, and holds the result of comparing
    two workbooks that could be read: an entry of folder A and an entry of
    folder B, both regular files with one of the three suffixes. *)
Theorem written_workbooks_compare_listed_files :
  forall (float : string -> option Q) (w : World) (f : Path)
         (sheets : list (string * DataFrame)),
    In (f, sheets) (workbooks (fst (main float w))) ->
    exists a b entries_a entries_b fa fb dfa dfb added modified,
      getenv w "FOLDER_A" = Some a /\ getenv w "FOLDER_B" = Some b
      /\ iterdir w a = Some entries_a /\ iterdir w b = Some entries_b
      /\ In fa entries_a /\ In fb entries_b
      /\ In (suffix fa) exts /\ In (suffix fb) exts
      /\ is_file w fa = true /\ is_file w fb = true
      /\ read_excel w fa = Some dfa /\ read_excel w fb = Some dfb
      /\ compare_dataframes dfa dfb = Some (added, modified)
      /\ f = out_file_of
               (getenv_default w "OUTPUT_DIR" "comparisons_output") fa fb
      /\ sheets = sheets_of added modified.
Proof.
  intros float w f sheets H.
  destruct (main_reaches_the_loop float w)
    as [N|[a [b [t [files_a [files_b [pairs [Ea [Eb [_ [La [Lb [P E]]]]]]]]]]]]].
  - rewrite N in H. destruct H.
  - rewrite E in H. apply compare_loop_written in H
      as [p [dfa [dfb [added [modified [Hp [Ra [Rb [C [_ [Ef Es]]]]]]]]]]].
    destruct (pair_files_members _ _ _ _ _ P Hp) as [Ma Mb].
    destruct (listed_subseq _ _ _ La) as [entries_a [Ia [Sa Fa]]].
    destruct (listed_subseq _ _ _ Lb) as [entries_b [Ib [Sb Fb]]].
    destruct (Fa _ Ma) as [Xa Ya]. destruct (Fb _ Mb) as [Xb Yb].
    exists a, b, entries_a, entries_b, (a_file p), (b_file p), dfa, dfb,
      added, modified.
    repeat split; try assumption.
    + now apply (subseq_In files_a).
    + now apply (subseq_In files_b).
Qed.

Lemma written_workbooks_compare_listed_files_witness :
  exists f sheets,
    In (f, sheets) (workbooks (fst (main example_float example_world)))
    /\ exists a b entries_a entries_b fa fb dfa dfb added modified,
      getenv example_world "FOLDER_A" = Some a
      /\ getenv example_world "FOLDER_B" = Some b
      /\ iterdir example_world a = Some entries_a
      /\ iterdir example_world b = Some entries_b
      /\ In fa entries_a /\ In fb entries_b
      /\ In (suffix fa) exts /\ In (suffix fb) exts
      /\ is_file example_world fa = true /\ is_file example_world fb = true
      /\ read_excel example_world fa = Some dfa
      /\ read_excel example_world fb = Some dfb
      /\ compare_dataframes dfa dfb = Some (added, modified)
      /\ f = out_file_of
               (getenv_default example_world "OUTPUT_DIR"
                               "comparisons_output") fa fb
      /\ sheets = sheets_of added modified.
Proof.
  destruct (workbooks (fst (main example_float example_world)))
    as [|[f sheets] l] eqn:E; [vm_compute in E; discriminate|].
  exists f, sheets. rewrite <- E.
  assert (H : In (f, sheets)
                 (workbooks (fst (main example_float example_world))))
    by (rewrite E; now left).
  split; [exact H|].
  exact (written_workbooks_compare_listed_files
           example_float example_world f sheets H).
Defined.

(** X15.  [main] returns, having announced every pair found, in order, when
    the threshold reads as a number from 0 to 1, both folders are configured
    and can be listed, the output directory can be made, the tables read from
    either folder are well formed with distinct column labels, no table read
    from folder B has a column that holds text beside a blank, and the output
    workbooks can be written.  A workbook that cannot be read does not end the run. *)
Theorem main_returns :
  forall (float : string -> option Q) (w : World) (a b : string) (t : Q)
         (entries_a entries_b : list Path),
    float (getenv_default w "FUZZY_THRESHOLD" "0.9") = Some t ->
    Qle 0 t -> Qle t 1 ->
    getenv w "FOLDER_A" = Some a -> a <> "" ->
    getenv w "FOLDER_B" = Some b -> b <> "" ->
    mkdir w (getenv_default w "OUTPUT_DIR" "comparisons_output") = true ->
    iterdir w a = Some entries_a ->
    iterdir w b = Some entries_b ->
    (forall fa df,
        In fa entries_a -> read_excel w fa = Some df ->
        NoDup (columns df) /\ well_formed df) ->
    (forall fb df,
        In fb entries_b -> read_excel w fb = Some df ->
        NoDup (columns df) /\ well_formed df
        /\ blank_beside_text df = false) ->
    (forall fa fb,
        writable w (out_file_of
                      (getenv_default w "OUTPUT_DIR" "comparisons_output")
                      fa fb) = true) ->
    exists files_a files_b pairs es,
      listed w a = Some files_a /\ listed w b = Some files_b
      /\ pair_files files_a files_b t = Some pairs
      /\ main float w
         = ([MakeDir (getenv_default w "OUTPUT_DIR" "comparisons_output");
             Print (Counts (List.length files_a) (List.length files_b));
             Print (Found (List.length pairs) t)] ++ es,
            Returned)
      /\ compared es = pairs.
Proof.
  intros float w a b t entries_a entries_b F T0 T1 Ea Na Eb Nb M Ia Ib Nda Nd
         W.
  destruct (listed w a) as [files_a|] eqn:La;
    [|unfold listed in La; rewrite Ia in La; discriminate].
  destruct (listed w b) as [files_b|] eqn:Lb;
    [|unfold listed in Lb; rewrite Ib in Lb; discriminate].
  destruct (pair_files_total files_a files_b t T0 T1) as [pairs P].
  set (out := getenv_default w "OUTPUT_DIR" "comparisons_output") in *.
  destruct (compare_loop_returns w out pairs) as [R C].
  { intros p Hp. destruct (pair_files_members _ _ _ _ _ P Hp) as [Ma Mb].
    apply compare_pair_goes_on; [| |apply W].
    - intros df Ra. apply (Nda (a_file p)); [|assumption].
      destruct (listed_subseq _ _ _ La) as [entries [Ia' [Sa _]]].
      rewrite Ia in Ia'. injection Ia' as Ia'. subst entries.
      now apply (subseq_In files_a).
    - intros df Rb.
      assert (Hb : In (b_file p) entries_b).
      { destruct (listed_subseq _ _ _ Lb) as [entries [Ib' [Sb _]]].
        rewrite Ib in Ib'. injection Ib' as Ib'. subst entries.
        now apply (subseq_In files_b). }
      destruct (Nd (b_file p) df Hb Rb) as [N1 [_ N2]]. now split. }
  exists files_a, files_b, pairs, (fst (compare_loop w out pairs)).
  split; [reflexivity|]. split; [reflexivity|]. split; [assumption|].
  split; [|assumption].
  unfold main. fold out.
  rewrite F, Ea, Eb, (truthy_nonempty a Na), (truthy_nonempty b Nb).
  cbn [andb]. unfold run. rewrite M, La, Lb, P. cbn [negb].
  destruct (compare_loop w out pairs) as [es o]. cbn [fst snd] in *.
  now subst o.
Qed.

Lemma main_returns_witness :
  exists files_a files_b pairs es,
    listed example_world "A" = Some files_a
    /\ listed example_world "B" = Some files_b
    /\ pair_files files_a files_b (9 # 10)%Q = Some pairs
    /\ main example_float example_world
       = ([MakeDir (getenv_default example_world "OUTPUT_DIR"
                                   "comparisons_output");
           Print (Counts (List.length files_a) (List.length files_b));
           Print (Found (List.length pairs) (9 # 10)%Q)] ++ es,
          Returned)
    /\ compared es = pairs.
Proof.
  apply (main_returns example_float example_world "A" "B" (9 # 10)%Q
                      [mkPath "A" "padron" ".xlsx"; mkPath "A" "notas" ".txt"]
                      [mkPath "B" "Padron" ".xlsx"]).
  - reflexivity.
  - discriminate.
  - discriminate.
  - reflexivity.
  - discriminate.
  - reflexivity.
  - discriminate.
  - reflexivity.
  - reflexivity.
  - reflexivity.
  - intros fa df [E|[E|[]]] R; subst fa; vm_compute in R; injection R as R;
      subst df; split; table_facts.
  - intros fb df [E|[]] R. subst fb. vm_compute in R. injection R as R.
    subst df. split; [table_facts | split; [table_facts | reflexivity]].
  - reflexivity.
Defined.

(** X20.  The comparison of a pair is made outside the [try] block: when
    [compare_dataframes] raises for a pair, the run ends there with the
    exception.  The pair has been announced, nothing is written for it, and
    the pairs after it are not even announced. *)
Theorem the_loop_stops_when_a_comparison_raises :
  forall (w : World) (out : string) (before after : list pair) (p : pair)
         (dfa dfb : DataFrame),
    (forall q, In q before -> snd (compare_pair w out q) = true) ->
    read_excel w (a_file p) = Some dfa ->
    read_excel w (b_file p) = Some dfb ->
    compare_dataframes dfa dfb = None ->
    snd (compare_loop w out (before ++ p :: after)) = Raised
    /\ compared (fst (compare_loop w out (before ++ p :: after)))
       = before ++ [p]
    /\ workbooks (fst (compare_loop w out (before ++ p :: after)))
       = workbooks (fst (compare_loop w out before)).
Proof.
  intros w out before after p dfa dfb Hb Ra Rb C.
  assert (P : compare_pair w out p
              = ([Print (Comparing (a_file p) (b_file p) (score_of p))],
                 false)).
  { destruct p as [[fa fb] s]. unfold a_file, b_file, score_of in *.
    cbn [fst snd] in *. unfold compare_pair. now rewrite Ra, Rb, C. }
  induction before as [|q before IH].
  - cbn [app compare_loop]. rewrite P. cbn [fst snd].
    destruct p as [[fa fb] s]. repeat split.
  - cbn [app compare_loop].
    pose proof (Hb q (or_introl eq_refl)) as G.
    pose proof (compare_pair_compared w out q) as Cq.
    destruct (compare_pair w out q) as [es go_on]. cbn [fst snd] in G, Cq.
    subst go_on.
    destruct IH as [I1 [I2 I3]]; [intros q' Hq'; apply Hb; now right|].
    destruct (compare_loop w out (before ++ p :: after)) as [es1 o1].
    destruct (compare_loop w out before) as [es2 o2].
    cbn [fst snd] in *. split; [assumption|].
    rewrite compared_app, !workbooks_app, Cq, I2, I3. now split.
Qed.

(** Two workbooks whose key column holds text, the one of B with a new row
    whose key cell is blank: the run ends with the exception once the pair
    is announced. *)
Lemma the_loop_stops_when_a_comparison_raises_witness :
  snd (compare_loop raising_world "comparisons_output"
         [(mkPath "A" "padron" ".xlsx", mkPath "B" "Padron" ".xlsx", 1%Q)])
  = Raised
  /\ main example_float raising_world
     = ([MakeDir "comparisons_output"; Print (Counts 1 1);
         Print (Found 1 (9 # 10)%Q);
         Print (Comparing (mkPath "A" "padron" ".xlsx")
                          (mkPath "B" "Padron" ".xlsx") 1%Q)],
        Raised).
Proof.
  split; [|vm_compute; reflexivity].
  apply (the_loop_stops_when_a_comparison_raises
           raising_world "comparisons_output" [] []
           (mkPath "A" "padron" ".xlsx", mkPath "B" "Padron" ".xlsx", 1%Q)
           text_keys_A blank_key_B).
  - intros q [].
  - reflexivity.
  - reflexivity.
  - vm_compute. reflexivity.
Defined.

(** X16.  [main] writes at most one workbook for each entry of folder A, and
    writes them in the order in which the folder lists its entries. *)
Theorem workbooks_follow_the_listing_of_A :
  forall (float : string -> option Q) (w : World) (a : string)
         (entries_a : list Path),
    getenv w "FOLDER_A" = Some a ->
    iterdir w a = Some entries_a ->
    exists kept : list pair,
      subseq (map a_file kept) entries_a
      /\ map fst (workbooks (fst (main float w)))
         = map (workbook_of
                  (getenv_default w "OUTPUT_DIR" "comparisons_output")) kept
      /\ List.length (workbooks (fst (main float w)))
         <= List.length entries_a.
Proof.
  intros float w a entries_a Ea Ia.
  enough (X : exists kept : list pair,
             subseq (map a_file kept) entries_a
             /\ map fst (workbooks (fst (main float w)))
                = map (workbook_of
                         (getenv_default w "OUTPUT_DIR" "comparisons_output"))
                      kept).
  { destruct X as [kept [S E]]. exists kept. split; [assumption|].
    split; [assumption|].
    apply subseq_length in S. rewrite length_map in S.
    rewrite <- (length_map fst), E, length_map. exact S. }
  destruct (main_reaches_the_loop float w)
    as [N|[a' [b [t [files_a [files_b [pairs [Ea' [_ [_ [La [_ [P E]]]]]]]]]]]]].
  - rewrite N. exists []. split; [apply subseq_nil_l | reflexivity].
  - rewrite Ea in Ea'. injection Ea' as Ea'. subst a'.
    rewrite E.
    destruct (compare_loop_workbooks
                w (getenv_default w "OUTPUT_DIR" "comparisons_output") pairs)
      as [kept0 [S0 E0]].
    rewrite E0.
    destruct (flat_map_kept
                w (getenv_default w "OUTPUT_DIR" "comparisons_output") kept0)
      as [kept [S1 E1]].
    exists kept. split; [|assumption].
    destruct (listed_subseq _ _ _ La) as [entries [Ia' [Sa _]]].
    rewrite Ia in Ia'. injection Ia' as Ia'. subst entries.
    unfold pair_files in P.
    destruct (pair_loop_subseq _ _ _ _ _ P) as [rest [Er Sr]].
    simpl in Er. subst rest.
    apply (subseq_trans _ files_a); [|assumption].
    apply (subseq_trans _ (map a_file pairs)); [|assumption].
    apply subseq_map. now apply (subseq_trans _ kept0).
Qed.

Lemma workbooks_follow_the_listing_of_A_witness :
  exists kept : list pair,
    subseq (map a_file kept)
           [mkPath "A" "padron" ".xlsx"; mkPath "A" "notas" ".txt"]
    /\ map fst (workbooks (fst (main example_float example_world)))
       = map (workbook_of
                (getenv_default example_world "OUTPUT_DIR"
                                "comparisons_output")) kept
    /\ List.length (workbooks (fst (main example_float example_world))) <= 2.
Proof.
  apply (workbooks_follow_the_listing_of_A example_float example_world "A").
  - reflexivity.
  - reflexivity.
Defined.

(** X17.  [pair_files] looks at an A file through its base name only: two A
    files with one base name, differing in their suffix, are paired with the
    same B file at the same score, and their comparisons go to the same
    output workbook. *)
Theorem files_with_one_stem_share_their_output :
  forall (files_a files_b : list Path) (threshold : Q) (pairs : list pair)
         (p p' : pair) (out : string),
    pair_files files_a files_b threshold = Some pairs ->
    In p pairs -> In p' pairs ->
    stem (a_file p) = stem (a_file p') ->
    b_file p = b_file p'
    /\ score_of p = score_of p'
    /\ workbook_of out p = workbook_of out p'.
Proof.
  intros files_a files_b t pairs p p' out H Hp Hp' E.
  pose proof (pair_of_file _ _ _ _ _ H Hp) as P.
  pose proof (pair_of_file _ _ _ _ _ H Hp') as P'.
  destruct p as [[fa fb] s], p' as [[fa' fb'] s'].
  unfold a_file, b_file, score_of, workbook_of in *. cbn [fst snd] in *.
  rewrite (pair_one_by_stem _ _ _ _ _ _ E P) in P'.
  injection P' as Eb Es. subst. repeat split.
  unfold out_file_of, a_file, b_file. cbn [fst snd]. now rewrite E.
Qed.

Lemma files_with_one_stem_share_their_output_witness :
  file "report" ".xlsx" = file "report" ".xlsx"
  /\ 1%Q = 1%Q
  /\ workbook_of "out"
       (file "report" ".xlsx", file "report" ".xlsx", 1%Q)
     = workbook_of "out"
         (file "report" ".xls", file "report" ".xlsx", 1%Q).
Proof.
  apply (files_with_one_stem_share_their_output
           [file "report" ".xlsx"; file "report" ".xls"]
           [file "report" ".xlsx"]
           (1 # 2)%Q
           [(file "report" ".xlsx", file "report" ".xlsx", 1%Q);
            (file "report" ".xls", file "report" ".xlsx", 1%Q)]
           (file "report" ".xlsx", file "report" ".xlsx", 1%Q)
           (file "report" ".xls", file "report" ".xlsx", 1%Q)
           "out").
  - vm_compute. reflexivity.
  - now left.
  - right. now left.
  - reflexivity.
Defined.
